(** * The partial-file writer of [src/transfers/partial_file.cpp]

    A shallow embedding of [PartialFile] and of its [SectorPool]: the
    byte-range bookkeeping ([ValidPart], [State]), the offset to LBA
    mapping, the pool of sector buffers with its slot bitmask, and the
    writer operations [seek], [write], [sync] and [extend_valid_part],
    and the destructor; then the EEPROM image loader and saver that the
    same source file carries.  Opening and creating the file ([create],
    [open], [convert]) and the log lines are outside the embedding.

    Integers are the target's 32-bit unsigned words ([size_t], [uint32_t]
    and [UsbhMscRequest::SectorNbr] all are: the source casts pointers to
    [uint32_t]); they are modelled in [Z] with the wrap-around written
    out.  The block layer, the file descriptor poke and the semaphore are
    the environment: their answers are read from the [World]. *)

From Stdlib Require Import ZArith List Bool Lia String Strings.Byte.
From stdpp Require Import base list.
Import ListNotations.
Local Open Scope Z_scope.

(** ** Machine words *)

Definition wrap32 (z : Z) : Z := z mod 2 ^ 32.

(** Reading a 32-bit pattern as an [int], as the cast [(int)(...)] does. *)
Definition as_int (z : Z) : Z := if z <? 2 ^ 31 then z else z - 2 ^ 32.

(** [std::popcount] on a 32-bit word. *)
Definition popcount (m : Z) : Z :=
  Z.of_nat (length (filter (fun i => Z.testbit m (Z.of_nat i) = true) (seq 0 32))).

(** [std::countr_one]: the number of consecutive set bits from bit 0. *)
Fixpoint countr_one_from (n : nat) (i : Z) (m : Z) : Z :=
  match n with
  | O => 0
  | S n' => if Z.testbit m i then 1 + countr_one_from n' (i + 1) m else 0
  end.

Definition countr_one (m : Z) : Z := countr_one_from 32 0 m.

(** Modelled from the spec: the header constant [PartialFile::SECTOR_SIZE]
    (the header is not part of the sources at hand); the [static_assert]s
    equate it with [FF_MAX_SS] and [FF_MIN_SS], and the scenarios of the
    specification fix it to 512. *)
Definition SECTOR_SIZE : Z := 512.
Definition FF_MAX_SS : Z := SECTOR_SIZE.

(** ** Valid byte ranges *)

Record ValidPart : Type := mkValidPart { start : Z; end_ : Z }.

(** Modelled from the spec: [ValidPart::merge], declared in the header that
    is not part of the sources at hand.  "merge unions overlapping/touching
    ranges": when [other] overlaps or touches [this], [this] becomes their
    union; otherwise it is left alone. *)
Definition merge (this other : ValidPart) : ValidPart :=
  if (start other <=? end_ this) && (start this <=? end_ other)
  then {| start := Z.min (start this) (start other);
          end_ := Z.max (end_ this) (end_ other) |}
  else this.

Record State : Type := mkState {
  valid_head : option ValidPart;
  valid_tail : option ValidPart;
  total_size : Z
}.

Definition part_len (p : option ValidPart) : Z :=
  match p with Some r => end_ r - start r | None => 0 end.

Definition overlap (h t : option ValidPart) : Z :=
  match h, t with
  | Some a, Some b => Z.max 0 (Z.min (end_ a) (end_ b) - Z.max (start a) (start b))
  | _, _ => 0
  end.

(** Modelled from the spec: [State::get_percent_valid], declared in the
    missing header.  "percent_valid = 100 * (len(head) + len(tail) -
    overlap) / total_size, integer-truncated". *)
Definition get_percent_valid (s : State) : Z :=
  100 * (part_len (valid_head s) + part_len (valid_tail s)
         - overlap (valid_head s) (valid_tail s)) / total_size s.

(** ** Requests, the pool and the writer object *)

(** One pool slot.  [callback_param2] is the slot's own index; the
    operation (always [Write]), the status and the callback pointers are
    constant and left out. *)
Record UsbhMscRequest : Type := mkRequest {
  lun : Z;
  sector_count : Z;
  sector_nbr : Z;
  data : list byte;
  callback_param2 : nat
}.

#[global] Instance UsbhMscRequest_inhabited : Inhabited UsbhMscRequest :=
  populate (mkRequest 0 0 0 [] 0%nat).

(** Bit [i] of [slot_mask] set: slot [i] is in use. *)
Record SectorPool : Type := mkPool {
  pool : list UsbhMscRequest;
  slot_mask : Z
}.

(** [current_sector] is a pointer into [pool]: the index of the slot. *)
Record PartialFile : Type := mkPartialFile {
  sector_pool : SectorPool;
  write_error : bool;
  first_sector_nbr : Z;
  current_sector : option nat;
  current_offset : Z;
  state : State;
  last_progress_percent : Z;
  file_lock : Z
}.

Definition with_pool (p : SectorPool) (f : PartialFile) : PartialFile :=
  mkPartialFile p (write_error f) (first_sector_nbr f) (current_sector f)
                (current_offset f) (state f) (last_progress_percent f) (file_lock f).

Definition with_write_error (b : bool) (f : PartialFile) : PartialFile :=
  mkPartialFile (sector_pool f) b (first_sector_nbr f) (current_sector f)
                (current_offset f) (state f) (last_progress_percent f) (file_lock f).

Definition with_current_sector (c : option nat) (f : PartialFile) : PartialFile :=
  mkPartialFile (sector_pool f) (write_error f) (first_sector_nbr f) c
                (current_offset f) (state f) (last_progress_percent f) (file_lock f).

Definition with_current_offset (o : Z) (f : PartialFile) : PartialFile :=
  mkPartialFile (sector_pool f) (write_error f) (first_sector_nbr f) (current_sector f)
                o (state f) (last_progress_percent f) (file_lock f).

Definition with_state (s : State) (f : PartialFile) : PartialFile :=
  mkPartialFile (sector_pool f) (write_error f) (first_sector_nbr f) (current_sector f)
                (current_offset f) s (last_progress_percent f) (file_lock f).

Definition with_last_progress_percent (p : Z) (f : PartialFile) : PartialFile :=
  mkPartialFile (sector_pool f) (write_error f) (first_sector_nbr f) (current_sector f)
                (current_offset f) (state f) p (file_lock f).

(** The request a slot pointer refers to, and in-place updates of it. *)
Definition request_at (f : PartialFile) (slot : nat) : UsbhMscRequest :=
  pool (sector_pool f) !!! slot.

Definition set_sector_nbr (n : Z) (r : UsbhMscRequest) : UsbhMscRequest :=
  mkRequest (lun r) (sector_count r) n (data r) (callback_param2 r).

Definition set_data (d : list byte) (r : UsbhMscRequest) : UsbhMscRequest :=
  mkRequest (lun r) (sector_count r) (sector_nbr r) d (callback_param2 r).

Definition update_request (g : UsbhMscRequest -> UsbhMscRequest) (slot : nat)
    (f : PartialFile) : PartialFile :=
  with_pool (mkPool (alter g slot (pool (sector_pool f)))
                    (slot_mask (sector_pool f))) f.

(** ** The environment

    [xSemaphoreTake] either times out ([pdFAIL]) or passes; in the second
    case the completion callbacks that ran in the driver's context before
    the writer took the mutex again are listed with it, each as (transfer
    succeeded, slot).  A wake-up left over from an earlier release is a
    [pdPASS] with no completion.  When the list of events is used up no
    request completes any more and every further wait times out.

    [lseek_results] answers the pokes of the file descriptor ([true]: the
    medium is still the known one) and [submit_results] the calls of
    [usbh_msc_submit_request] ([true]: [USBH_OK]); when used up both
    succeed.  [usb_log] records, oldest first, every request handed to
    [usbh_msc_submit_request], as it was at that moment. *)
Inductive SemEvent : Type :=
| pdFAIL
| pdPASS (finished : list (bool * nat)).

Record World : Type := mkWorld {
  sem_events : list SemEvent;
  lseek_results : list bool;
  submit_results : list bool;
  usb_log : list UsbhMscRequest
}.

Definition with_sem_events (e : list SemEvent) (w : World) : World :=
  mkWorld e (lseek_results w) (submit_results w) (usb_log w).

(** ** Outcomes: the writer either returns or the process is aborted *)

Inductive Outcome (A : Type) : Type :=
| Done (a : A) (f : PartialFile) (w : World)
| Abort (tag : string).
Arguments Done {A} a f w.
Arguments Abort {A} tag.

Definition M (A : Type) : Type := PartialFile -> World -> Outcome A.

Definition ret {A : Type} (a : A) : M A := fun f w => Done a f w.

Definition bind {A B : Type} (m : M A) (k : A -> M B) : M B :=
  fun f w => match m f w with
             | Done a f' w' => k a f' w'
             | Abort t => Abort t
             end.

Definition gets {A : Type} (g : PartialFile -> A) : M A := fun f w => Done (g f) f w.
Definition modify (h : PartialFile -> PartialFile) : M unit := fun f w => Done tt (h f) w.

Definition fatal_error {A : Type} (msg tag : string) : M A :=
  fun _ _ => Abort (tag ++ ": " ++ msg)%string.

Declare Scope pf_scope.
Delimit Scope pf_scope with pf.
Notation "x <- c ;; k" := (bind c (fun x => k))
  (at level 100, c at next level, right associativity) : pf_scope.
Notation "c ;;; k" := (bind c (fun _ => k))
  (at level 100, right associativity) : pf_scope.
Local Open Scope pf_scope.

(** [memcpy (dst + at, src, n)] on a buffer held as a list. *)
Definition memcpy (dst : list byte) (at_ : nat) (src : list byte) (n : nat) : list byte :=
  firstn at_ dst ++ firstn n src ++ skipn (at_ + n) dst.

Section Transfers.

(** The cardinality [SectorPool::size] of the pool, a constant of the
    header that is not part of the sources at hand. *)
Variable size : nat.

(** ** SectorPool *)

(** The constructor: every slot free, the bits above [size] set. *)
Definition SectorPool_new (lun_ : Z) : SectorPool :=
  {| pool := map (fun i => mkRequest lun_ 1 0 (repeat x00 (Z.to_nat SECTOR_SIZE)) i)
                 (seq 0 size);
     slot_mask := wrap32 (Z.shiftl (2 ^ 32 - 1) (Z.of_nat size)) |}.

(** Modelled from the spec: [SectorPool::is_available_slot], declared in
    the missing header.  "no slot available" is "slot_mask has no clear bit
    in [0, N)". *)
Definition is_available_slot (p : SectorPool) : bool :=
  existsb (fun i => negb (Z.testbit (slot_mask p) (Z.of_nat i))) (seq 0 size).

(** Its [assert (is_available_slot ())] holds wherever it is called: only
    [acquire] calls it, after its loop has seen a free slot. *)
Definition get_available_slot (p : SectorPool) : nat :=
  Z.to_nat (countr_one (slot_mask p)).

Definition SectorPool_release (slot : nat) (p : SectorPool) : SectorPool :=
  mkPool (pool p) (Z.land (slot_mask p) (Z.lnot (Z.shiftl 1 (Z.of_nat slot)))).

(** The completion callback, run in the driver's context. *)
Definition usbh_msc_finished (result_ok : bool) (slot : nat) (f : PartialFile) : PartialFile :=
  let f1 := if result_ok then f else with_write_error true f in
  with_pool (SectorPool_release slot (sector_pool f1)) f1.

Definition finish_all (cs : list (bool * nat)) (f : PartialFile) : PartialFile :=
  fold_left (fun g c => usbh_msc_finished (fst c) (snd c) g) cs f.

(** The loop shared by [acquire] and [sync]:
    [while (!ready) { unlock; if (xSemaphoreTake (...) != pdPASS) return fail; lock; }].
    It yields whether [ready] was reached, the object as the completions
    left it, and the events not yet consumed. *)
Fixpoint wait_until (ready : SectorPool -> bool) (evs : list SemEvent) (f : PartialFile)
    : bool * PartialFile * list SemEvent :=
  if ready (sector_pool f) then (true, f, evs)
  else match evs with
       | [] => (false, f, [])
       | pdFAIL :: evs' => (false, f, evs')
       | pdPASS cs :: evs' => wait_until ready evs' (finish_all cs f)
       end.

(** [acquire]: the pointer [pool + slot], or [nullptr] on a timeout. *)
Definition SectorPool_acquire : M (option nat) := fun f w =>
  match wait_until is_available_slot (sem_events w) f with
  | (true, f1, evs) =>
      let p := sector_pool f1 in
      let slot := get_available_slot p in
      let p1 := mkPool (pool p) (wrap32 (Z.lor (slot_mask p) (Z.shiftl 1 (Z.of_nat slot)))) in
      let f2 := update_request (set_data (repeat x00 (Z.to_nat SECTOR_SIZE))) slot
                               (with_pool p1 f1) in
      Done (Some slot) f2 (with_sem_events evs w)
  | (false, f1, evs) => Done None f1 (with_sem_events evs w)
  end.

Definition SectorPool_sync (avoid : Z) : M bool := fun f w =>
  if Z.of_nat size <? avoid then Abort "assert (avoid <= size)"
  else
    match wait_until (fun p => popcount (slot_mask p) =? as_int (wrap32 (32 - avoid)))
                     (sem_events w) f with
    | (reached, f1, evs) => Done reached f1 (with_sem_events evs w)
    end.

(** ** PartialFile *)

Definition PartialFile_new (lun_ first_sector : Z) (st : State) (fd : Z) : PartialFile :=
  {| sector_pool := SectorPool_new lun_;
     write_error := false;
     first_sector_nbr := first_sector;
     current_sector := None;
     current_offset := 0;
     state := st;
     last_progress_percent := -1;
     file_lock := fd |}.

Definition get_sector_nbr (f : PartialFile) (offset : Z) : Z :=
  let sector := wrap32 (first_sector_nbr f + offset / FF_MAX_SS) in
  if total_size (state f) <=? offset then wrap32 (sector + 1) else sector.

Definition get_offset (f : PartialFile) (sector_nbr_ : Z) : Z :=
  wrap32 (wrap32 (sector_nbr_ - first_sector_nbr f) * SECTOR_SIZE).

(** The progress line itself is a log message and is not modelled; the
    remembered percentage is. *)
Definition extend_valid_part (new_part : ValidPart) (f : PartialFile) : PartialFile :=
  let st := state f in
  (* extend head *)
  let head1 := match valid_head st with
               | Some h => Some (merge h new_part)
               | None => if start new_part =? 0 then Some new_part else None
               end in
  let head_end := match head1 with Some h => end_ h | None => 0 end in
  (* extend tail *)
  let tail1 := match valid_tail st with
               | Some t => Some (merge t new_part)
               | None => if head_end <? start new_part then Some new_part else None
               end in
  (* does head spread to the end? *)
  let tail2 := match head1 with
               | Some h => if end_ h =? total_size st then head1 else tail1
               | None => tail1
               end in
  (* head met with tail? *)
  let st' := match head1, tail2 with
             | Some h, Some t =>
                 let h' := merge h t in
                 mkState (Some h') (Some (merge t h')) (total_size st)
             | _, _ => mkState head1 tail2 (total_size st)
             end in
  let f' := with_state st' f in
  let percent_valid := get_percent_valid st' in
  if percent_valid =? last_progress_percent f then f'
  else with_last_progress_percent percent_valid f'.

Definition has_valid_head (f : PartialFile) (bytes : Z) : bool :=
  match valid_head (state f) with
  | Some h => (start h =? 0) && (bytes <=? end_ h)
  | None => false
  end.

Definition has_valid_tail (f : PartialFile) (bytes : Z) : bool :=
  match valid_tail (state f) with
  | Some t => (start t <=? wrap32 (total_size (state f) - bytes))
              && (end_ t =? total_size (state f))
  | None => false
  end.

(** [lseek (file_lock, 0, SEEK_SET) != -1] *)
Definition lseek_poke : M bool := fun f w =>
  Done (hd true (lseek_results w)) f
       (mkWorld (sem_events w) (tl (lseek_results w)) (submit_results w) (usb_log w)).

(** [usbh_msc_submit_request (current_sector) == USBH_OK] *)
Definition usbh_msc_submit_request (slot : nat) : M bool := fun f w =>
  Done (hd true (submit_results w)) f
       (mkWorld (sem_events w) (lseek_results w) (tl (submit_results w))
                (usb_log w ++ [request_at f slot])).

Definition write_current_sector : M bool :=
  cs <- gets current_sector;;
  match cs with
  | None => fun _ _ => Abort "assert (current_sector != nullptr)"
  | Some slot =>
      poked <- lseek_poke;;
      if negb poked then ret false
      else
        result <- usbh_msc_submit_request slot;;
        if negb result then ret false
        else
          f <- gets id;;
          let start_ := get_offset f (sector_nbr (request_at f slot)) in
          let end__ := Z.min (wrap32 (start_ + SECTOR_SIZE)) (total_size (state f)) in
          modify (extend_valid_part (mkValidPart start_ end__));;;
          ret true
  end.

Definition discard_current_sector : M unit :=
  cs <- gets current_sector;;
  match cs with
  | Some slot =>
      modify (fun f =>
        with_current_sector None
          (with_pool (SectorPool_release (callback_param2 (request_at f slot))
                                         (sector_pool f)) f))
  | None => ret tt
  end.

Definition seek (offset : Z) : M bool :=
  f <- gets id;;
  let new_sector := get_sector_nbr f offset in
  match current_sector f with
  | Some slot =>
      if sector_nbr (request_at f slot) =? new_sector
      then modify (with_current_offset offset);;; ret true
      else modify (with_current_offset offset);;; discard_current_sector;;; ret true
  | None => modify (with_current_offset offset);;; discard_current_sector;;; ret true
  end.

(** The head of the loop body of [write]: "open a new sector buffer if
    needed".  [None] stands for the two [return false] of that block. *)
Definition open_sector : M (option nat) :=
  f <- gets id;;
  match current_sector f with
  | Some slot => ret (Some slot)
  | None =>
      if total_size (state f) <=? current_offset f
      then ret None (* "Write past end of file attempted" *)
      else
        let sector_nbr_ := get_sector_nbr f (current_offset f) in
        acquired <- SectorPool_acquire;;
        match acquired with
        | None => ret None
        | Some slot =>
            modify (with_current_sector (Some slot));;;
            modify (update_request (set_sector_nbr sector_nbr_) slot);;;
            ret (Some slot)
        end
  end.

(** The loop of [write].  Every round consumes at least one byte, so
    [length bytes] rounds are enough ([write_loop_fuel] below); the tag
    ["fuel"] is never seen. *)
Fixpoint write_loop (fuel : nat) (bytes : list byte) {struct fuel} : M bool :=
  match bytes with
  | [] => ret true
  | _ :: _ =>
      match fuel with
      | O => fun _ _ => Abort "fuel"
      | S fuel' =>
          opened <- open_sector;;
          match opened with
          | None => ret false
          | Some slot =>
              f <- gets id;;
              (* write data to the sector buffer *)
              let sector_offset := current_offset f mod SECTOR_SIZE in
              let sector_remaining := SECTOR_SIZE - sector_offset in
              let write_size := Z.min (Z.of_nat (length bytes)) sector_remaining in
              modify (update_request
                        (fun r => set_data (memcpy (data r) (Z.to_nat sector_offset)
                                                   bytes (Z.to_nat write_size)) r) slot);;;
              (* flush the sector if needed *)
              let next_offset := wrap32 (current_offset f + write_size) in
              let next_sector_nbr := get_sector_nbr f next_offset in
              if total_size (state f) <? next_offset
              then fatal_error "Request to write past the end of file." "transfers"
              else
                (if negb (next_sector_nbr =? sector_nbr (request_at f slot))
                 then write_current_sector;;; modify (with_current_sector None)
                 else ret tt);;;
                (* advance *)
                sought <- seek (wrap32 (current_offset f + write_size));;
                if negb sought then ret false
                else write_loop fuel' (skipn (Z.to_nat write_size) bytes)
          end
      end
  end.

Definition write (bytes : list byte) : M bool :=
  failed <- gets write_error;;
  if failed then ret false
  else write_loop (length bytes) bytes.

(** The first half of [sync]: when a sector is being filled, a copy of it
    is taken into a second slot, the original is submitted and the copy
    becomes the current sector.  [None] stands for the [return false] of
    that block, [Some sync_avoid] for falling through. *)
Definition flush_current_sector : M (option Z) :=
  cs <- gets current_sector;;
  match cs with
  | None => ret (Some 0)
  | Some cur =>
      copied <- SectorPool_acquire;;
      match copied with
      | None => ret None
      | Some copied_sector =>
          modify (fun f =>
            update_request
              (fun r => set_sector_nbr (sector_nbr (request_at f cur))
                          (set_data (memcpy (data r) 0 (data (request_at f cur))
                                            (Z.to_nat SECTOR_SIZE)) r))
              copied_sector f);;;
          status <- write_current_sector;;
          modify (with_current_sector (Some copied_sector));;;
          if negb status then ret None (* "Failed to write sector" *)
          else ret (Some 1)
      end
  end.

Definition sync : M bool :=
  flushed <- flush_current_sector;;
  match flushed with
  | None => ret false
  | Some sync_avoid =>
      drained <- SectorPool_sync sync_avoid;;
      if negb drained then ret false
      else failed <- gets write_error;; ret (negb failed)
  end.

(** ** Sequences of operations

    What can happen to a [PartialFile] between its construction and its
    destruction: the writer thread calls [seek], [write] and [sync], and
    the driver reports completions in between. *)
Inductive Op : Type :=
| OpSeek (offset : Z)
| OpWrite (bytes : list byte)
| OpSync
| OpFinished (result_ok : bool) (slot : nat).

Definition step (op : Op) : M bool :=
  match op with
  | OpSeek offset => seek offset
  | OpWrite bytes => write bytes
  | OpSync => sync
  | OpFinished ok slot => modify (usbh_msc_finished ok slot);;; ret true
  end.

(** The results of the calls, in order. *)
Fixpoint run (ops : list Op) : M (list bool) :=
  match ops with
  | [] => ret []
  | op :: ops' => r <- step op;; rs <- run ops';; ret (r :: rs)
  end.

End Transfers.

(** ** The scenarios' file: 2048 bytes at LBA 100, freshly created *)

Definition scenario_file (size : nat) : PartialFile :=
  PartialFile_new size 0 100 (mkState None None 2048) 3.

Definition quiet_world : World := mkWorld [] [] [] [].

Definition payload (n : nat) : list byte := repeat "a"%byte n.

(** ** The destructors

    [~SectorPool]: [sync ()], with the default [avoid] of 0, then the
    buffers are freed (the heap is not part of the model). *)
Definition SectorPool_destructor (size : nat) : M unit :=
  SectorPool_sync size 0;;; ret tt.

(** [~PartialFile]: the sector being filled is dropped, the requests in
    flight are waited for, the descriptor is closed; after the body the
    member [sector_pool] is destroyed in its turn.  The descriptor table is
    not part of the model, so [close] leaves no trace here. *)
Definition PartialFile_destructor (size : nat) : M unit :=
  discard_current_sector;;; sync size;;; SectorPool_destructor size.

(** ** The EEPROM image loader

    [eeprom_load_bin_from_usb] and [eeprom_save_bin_to_usb], which the
    same source file carries after the writer.  The descriptor, the
    EEPROM driver and the file are the environment: [open_ok] answers
    [open], [read_results] lists what each [read] delivers ([None] for
    -1; when used up the file is at its end and [read] returns 0),
    [write_results] lists what each [write] returns (when used up every
    write is complete), [eeprom] is the user area of the chip and
    [usb_file] the bytes that reached the file. *)

Definition wrap16 (z : Z) : Z := z mod 2 ^ 16.

Record EepromWorld : Type := mkEepromWorld {
  open_ok : bool;
  read_results : list (option (list byte));
  write_results : list Z;
  eeprom : list byte;
  usb_file : list byte
}.

(** [br = read (fd, buff, bs)]: at most [bs] bytes arrive at the start of
    [buff]. *)
Definition fd_read (bs : Z) (buff : list byte) (e : EepromWorld)
    : Z * list byte * EepromWorld :=
  let e' := mkEepromWorld (open_ok e) (tl (read_results e)) (write_results e)
                          (eeprom e) (usb_file e) in
  match read_results e with
  | None :: _ => (-1, buff, e')
  | Some chunk :: _ =>
      let got := firstn (Z.to_nat bs) chunk in
      (Z.of_nat (length got), got ++ skipn (length got) buff, e')
  | [] => (0, buff, e')
  end.

(** [bw = write (fd, buff, bs)]: the first [bw] bytes of [buff] reach the
    file. *)
Definition fd_write (bs : Z) (buff : list byte) (e : EepromWorld) : Z * EepromWorld :=
  let bw := match write_results e with r :: _ => r | [] => bs end in
  (bw, mkEepromWorld (open_ok e) (read_results e) (tl (write_results e)) (eeprom e)
                     (usb_file e ++ firstn (Z.to_nat bw) (firstn (Z.to_nat bs) buff))).

Definition st25dv64k_user_write_bytes (addr : Z) (buff : list byte) (bs : Z)
    (e : EepromWorld) : EepromWorld :=
  mkEepromWorld (open_ok e) (read_results e) (write_results e)
                (memcpy (eeprom e) (Z.to_nat addr) buff (Z.to_nat bs)) (usb_file e).

Definition st25dv64k_user_read_bytes (addr : Z) (buff : list byte) (bs : Z)
    (e : EepromWorld) : list byte :=
  memcpy buff 0 (skipn (Z.to_nat addr) (eeprom e)) (Z.to_nat bs).

(** The loop of [eeprom_load_bin_from_usb]; [size] and [addr] are
    [uint16_t], [bs] and [br] are [int].  It yields the [size] that is
    left.  Every round that goes on takes at least one byte off [size], so
    [size] rounds are enough. *)
Fixpoint load_loop (fuel : nat) (size addr bs : Z) (buff : list byte) (e : EepromWorld)
    : Z * EepromWorld :=
  match fuel with
  | O => (size, e)
  | S fuel' =>
      if size =? 0 then (size, e)
      else
        let bs := if size <? bs then size else bs in
        match fd_read bs buff e with
        | (br, buff', e1) =>
            if negb (br =? bs) then (size, e1)
            else
              load_loop fuel' (wrap16 (size - bs)) (wrap16 (addr + bs)) bs buff'
                        (st25dv64k_user_write_bytes addr buff' bs e1)
        end
  end.

(** [buff] is the uninitialised array of 128 bytes on the stack. *)
Definition eeprom_load_bin_from_usb (buff : list byte) (e : EepromWorld) : Z * EepromWorld :=
  if open_ok e then
    match load_loop (Z.to_nat 0x800) 0x800 0 128 buff e with
    | (size, e') => ((if size =? 0 then 1 else 0), e')
    end
  else (0, e).

Fixpoint save_loop (fuel : nat) (size addr bs : Z) (buff : list byte) (e : EepromWorld)
    : Z * EepromWorld :=
  match fuel with
  | O => (size, e)
  | S fuel' =>
      if size =? 0 then (size, e)
      else
        let bs := if size <? bs then size else bs in
        let buff' := st25dv64k_user_read_bytes addr buff bs e in
        match fd_write bs buff' e with
        | (bw, e1) =>
            if negb (bw =? bs) then (size, e1)
            else save_loop fuel' (wrap16 (size - bs)) (wrap16 (addr + bs)) bs buff' e1
        end
  end.

(** [open (fn, O_WRONLY | O_TRUNC)] empties the file. *)
Definition eeprom_save_bin_to_usb (buff : list byte) (e : EepromWorld) : Z * EepromWorld :=
  if open_ok e then
    match save_loop (Z.to_nat 0x800) 0x800 0 128 buff
                    (mkEepromWorld (open_ok e) (read_results e) (write_results e)
                                   (eeprom e) []) with
    | (_, e') => (0, e')
    end
  else (0, e).

(** ** Vocabulary of the properties *)

(** A range covers another one. *)
Definition covers (big small : ValidPart) : Prop :=
  start big <= start small /\ end_ small <= end_ big.

(** What the bookkeeping maintains: a head starts at 0, and both ranges
    lie within the file. *)
Definition StateInv (s : State) : Prop :=
  (forall h, valid_head s = Some h -> start h = 0 /\ end_ h <= total_size s)
  /\ (forall t, valid_tail s = Some t -> 0 <= start t /\ end_ t <= total_size s).

(** A range that was present is still present and covers what it did. *)
Definition grows (old new : option ValidPart) : Prop :=
  forall p, old = Some p -> exists p', new = Some p' /\ covers p' p.

(** What every operation does to the object between two points of its
    life: the size is fixed, the error flag is sticky, and the valid
    ranges keep their shape and never shrink. *)
Definition evolves (f f' : PartialFile) : Prop :=
  total_size (state f') = total_size (state f)
  /\ (write_error f = true -> write_error f' = true)
  /\ (StateInv (state f) ->
      StateInv (state f')
      /\ grows (valid_head (state f)) (valid_head (state f'))
      /\ grows (valid_tail (state f)) (valid_tail (state f'))).

(** Weakest precondition of a computation: [aborts] says which aborts are
    tolerated. *)
Definition wp {A : Type} (aborts : Prop) (m : M A)
    (Q : A -> PartialFile -> World -> Prop) (f : PartialFile) (w : World) : Prop :=
  match m f w with
  | Done a f' w' => Q a f' w'
  | Abort _ => aborts
  end.

(** A computation that, when it returns, leaves the object [evolves]-related
    to what it was. *)
Definition keeps {A : Type} (m : M A) : Prop :=
  forall f w, wp True m (fun _ f' _ => evolves f f') f w.

(** What completion callbacks can do to the object: free slots and raise
    the error flag, nothing else. *)
Definition completions_only (f f' : PartialFile) : Prop :=
  pool (sector_pool f') = pool (sector_pool f)
  /\ first_sector_nbr f' = first_sector_nbr f
  /\ current_sector f' = current_sector f
  /\ current_offset f' = current_offset f
  /\ state f' = state f
  /\ last_progress_percent f' = last_progress_percent f
  /\ (write_error f = true -> write_error f' = true).

(** The pool after [sync] has taken slot [cp] for the copy of the current
    sector [cur]: the slot is cleared by [acquire], then receives the
    content and the LBA of [cur]. *)
Definition copied_pool (cur cp : nat) (l : list UsbhMscRequest) : list UsbhMscRequest :=
  let l1 := alter (set_data (repeat x00 (Z.to_nat SECTOR_SIZE))) cp l in
  alter (fun r => set_sector_nbr (sector_nbr (l1 !!! cur))
                    (set_data (memcpy (data r) 0 (data (l1 !!! cur))
                                      (Z.to_nat SECTOR_SIZE)) r))
        cp l1.

(** The number of calls of [sync] in a sequence of operations. *)
Fixpoint sync_calls (ops : list Op) : nat :=
  match ops with
  | [] => 0
  | OpSync :: ops' => S (sync_calls ops')
  | _ :: ops' => sync_calls ops'
  end.

(** Calls of [write] and [sync] in [ops] all returned [false]. *)
Fixpoint refused (ops : list Op) (rs : list bool) : Prop :=
  match ops, rs with
  | [], [] => True
  | op :: ops', r :: rs' =>
      match op with
      | OpWrite _ | OpSync => r = false
      | _ => True
      end /\ refused ops' rs'
  | _, _ => False
  end.

(** The shape of the valid ranges: a head starts at 0, both ranges are
    well formed and lie within the file, and head and tail are either the
    same range or strictly apart. *)
Definition RangesInv (s : State) : Prop :=
  (forall h, valid_head s = Some h -> start h = 0 /\ 0 <= end_ h <= total_size s)
  /\ (forall t, valid_tail s = Some t -> 0 <= start t <= end_ t /\ end_ t <= total_size s)
  /\ (forall h t, valid_head s = Some h -> valid_tail s = Some t ->
        h = t \/ end_ h < start t).

(** The writer between two calls: the pool has its [size] slots, the size
    of the file and the position are words (the last sector does not end
    beyond the largest word), and a sector that is being filled is the
    sector of the position, which then lies inside the file. *)
Definition WriterInv (size : nat) (f : PartialFile) : Prop :=
  length (pool (sector_pool f)) = size
  /\ 0 <= total_size (state f) <= 2 ^ 32 - SECTOR_SIZE
  /\ 0 <= current_offset f < 2 ^ 32
  /\ (forall s, current_sector f = Some s ->
        current_offset f < total_size (state f)
        /\ sector_nbr (request_at f s) = get_sector_nbr f (current_offset f))
  /\ RangesInv (state f).

(** The offsets passed to [seek] are words. *)
Fixpoint seeks_in_range (ops : list Op) : Prop :=
  match ops with
  | [] => True
  | OpSeek offset :: ops' => 0 <= offset < 2 ^ 32 /\ seeks_in_range ops'
  | _ :: ops' => seeks_in_range ops'
  end.

(** A request for a sector of the file: its LBA is the one of an offset
    inside the file. *)
Definition in_file (f : PartialFile) (r : UsbhMscRequest) : Prop :=
  exists offset, 0 <= offset < total_size (state f)
                 /\ sector_nbr r = get_sector_nbr f offset.

(** From one point of the writer's life to a later one: the invariant
    holds, the file is the same (its size and its first sector), and what
    has been handed to the block layer in between are requests for
    sectors of the file. *)
Definition follows (size : nat) (f : PartialFile) (w : World)
    (f' : PartialFile) (w' : World) : Prop :=
  WriterInv size f'
  /\ total_size (state f') = total_size (state f)
  /\ first_sector_nbr f' = first_sector_nbr f
  /\ exists extra, usb_log w' = usb_log w ++ extra /\ Forall (in_file f) extra.

(** The blocks that the reads deliver in full, up to the first read that
    does not. *)
Fixpoint full_reads (bs : nat) (rs : list (option (list byte))) : list (list byte) :=
  match rs with
  | Some chunk :: rs' =>
      if (bs <=? length chunk)%nat then firstn bs chunk :: full_reads bs rs' else []
  | _ => []
  end.

(** A file as [n] reads of [bs] bytes see it. *)
Fixpoint blocks_of (n bs : nat) (l : list byte) : list (list byte) :=
  match n with
  | O => []
  | S n' => firstn bs l :: blocks_of n' bs (skipn bs l)
  end.

(** * Properties *)

(** Closed arithmetic side conditions, decided by computation. *)
Ltac concrete :=
  solve [ reflexivity
        | vm_compute; first [ reflexivity | discriminate | intro; discriminate
                            | split; first [ reflexivity | discriminate
                                           | intro; discriminate ] ] ].

(** ** Words and ranges *)

Lemma wrap32_small (z : Z) : 0 <= z < 2 ^ 32 -> wrap32 z = z.
Proof. intros H. unfold wrap32. apply Z.mod_small. exact H. Qed.

Lemma wrap32_range (z : Z) : 0 <= wrap32 z < 2 ^ 32.
Proof. unfold wrap32. apply Z.mod_pos_bound. lia. Qed.

Lemma wrap32_borrow (z : Z) : - 2 ^ 32 <= z < 0 -> wrap32 z = z + 2 ^ 32.
Proof.
  intros H. unfold wrap32.
  symmetry. apply (Z.mod_unique_pos z (2 ^ 32) (-1) (z + 2 ^ 32)); lia.
Qed.

Lemma covers_refl (p : ValidPart) : covers p p.
Proof. unfold covers. lia. Qed.

Lemma covers_trans (a b c : ValidPart) : covers a b -> covers b c -> covers a c.
Proof. unfold covers. lia. Qed.

Lemma merge_covers (this other : ValidPart) : covers (merge this other) this.
Proof.
  unfold covers, merge.
  destruct (_ && _); simpl; lia.
Qed.

Lemma merge_touching (this other : ValidPart) :
  start other <= end_ this -> start this <= end_ other ->
  merge this other = mkValidPart (Z.min (start this) (start other))
                                 (Z.max (end_ this) (end_ other)).
Proof.
  intros H1 H2. unfold merge.
  apply Z.leb_le in H1. apply Z.leb_le in H2.
  rewrite H1, H2. reflexivity.
Qed.

Lemma merge_start_bound (this other : ValidPart) (lo : Z) :
  lo <= start this -> lo <= start other -> lo <= start (merge this other).
Proof. intros. unfold merge. destruct (_ && _); simpl; lia. Qed.

Lemma merge_end_bound (this other : ValidPart) (hi : Z) :
  end_ this <= hi -> end_ other <= hi -> end_ (merge this other) <= hi.
Proof. intros. unfold merge. destruct (_ && _); simpl; lia. Qed.

Lemma merge_self (p : ValidPart) : start p <= end_ p -> merge p p = p.
Proof.
  intros H. rewrite merge_touching by lia.
  destruct p as [a b]. simpl. f_equal; lia.
Qed.

Lemma skipn_repeat (x : byte) (n m : nat) : skipn n (repeat x m) = repeat x (m - n).
Proof.
  revert m. induction n as [| n IH]; intros m.
  - rewrite Nat.sub_0_r. reflexivity.
  - destruct m as [| m]; [reflexivity |]. simpl. apply IH.
Qed.

Lemma memcpy_into_zeros (bytes : list byte) (n total : nat) :
  length bytes = n -> (n <= total)%nat ->
  memcpy (repeat x00 total) 0 bytes n = bytes ++ repeat x00 (total - n).
Proof.
  intros Hlen Hle. unfold memcpy.
  rewrite firstn_O, Nat.add_0_l. cbn [app].
  rewrite firstn_all2 by lia. f_equal.
  rewrite skipn_repeat. reflexivity.
Qed.

Lemma memcpy_whole (dst src : list byte) (n : nat) :
  length src = n -> length dst = n -> memcpy dst 0 src n = src.
Proof.
  intros Hs Hd. unfold memcpy.
  rewrite firstn_O, Nat.add_0_l. cbn [app].
  rewrite firstn_all2 by lia. rewrite skipn_all2 by lia.
  apply app_nil_r.
Qed.

(** ** The offset to LBA mapping *)

(** C8.  When the LBAs of the extent and the past-end sentinel fit the
    32-bit sector number, [get_sector_nbr offset] is
    [first_sector_nbr + offset / SECTOR_SIZE] for every offset inside the
    file, and the LBA returned for [offset = total_size] is strictly above
    the LBA of every data sector, hence above the last one. *)
Theorem get_sector_nbr_mapping (f : PartialFile) :
  0 <= first_sector_nbr f ->
  0 <= total_size (state f) ->
  first_sector_nbr f + total_size (state f) / SECTOR_SIZE + 1 < 2 ^ 32 ->
  (forall offset, 0 <= offset < total_size (state f) ->
     get_sector_nbr f offset = first_sector_nbr f + offset / SECTOR_SIZE)
  /\ (forall offset, 0 <= offset < total_size (state f) ->
     get_sector_nbr f offset < get_sector_nbr f (total_size (state f))).
Proof.
  intros Hfirst Htotal Hfit.
  assert (Hdiv : forall offset, 0 <= offset <= total_size (state f) ->
            0 <= offset / SECTOR_SIZE <= total_size (state f) / SECTOR_SIZE).
  { intros offset Hoff. split.
    - apply Z.div_pos; unfold SECTOR_SIZE; lia.
    - apply Z.div_le_mono; unfold SECTOR_SIZE; lia. }
  assert (Hin : forall offset, 0 <= offset < total_size (state f) ->
            get_sector_nbr f offset = first_sector_nbr f + offset / SECTOR_SIZE).
  { intros offset Hoff. unfold get_sector_nbr, FF_MAX_SS.
    destruct (Z.leb_spec (total_size (state f)) offset) as [Hge | _]; [lia |].
    specialize (Hdiv offset ltac:(lia)).
    apply wrap32_small. lia. }
  split; [exact Hin |].
  intros offset Hoff. rewrite (Hin offset Hoff).
  unfold get_sector_nbr, FF_MAX_SS. rewrite Z.leb_refl.
  pose proof (Hdiv offset ltac:(lia)) as Ho.
  pose proof (Hdiv (total_size (state f)) ltac:(lia)) as Ht.
  rewrite (wrap32_small (first_sector_nbr f + _)) by lia.
  rewrite wrap32_small by lia.
  lia.
Qed.

Lemma get_sector_nbr_mapping_witness :
  (forall offset, 0 <= offset < 2048 ->
     get_sector_nbr (scenario_file 4) offset = 100 + offset / SECTOR_SIZE)
  /\ (forall offset, 0 <= offset < 2048 ->
     get_sector_nbr (scenario_file 4) offset < get_sector_nbr (scenario_file 4) 2048).
Proof.
  apply (get_sector_nbr_mapping (scenario_file 4)); concrete.
Defined.

(** ** The tail query *)

(** C10.  For a well-formed tail that ends at [total_size], asking
    [has_valid_tail] for more bytes than the file has always answers
    [true], whatever the start of the tail: [total_size - bytes] wraps
    around to a value above [total_size].  So the query reports a valid
    tail longer than the whole file. *)
Theorem has_valid_tail_wraps (f : PartialFile) (t : ValidPart) (bytes : Z) :
  valid_tail (state f) = Some t ->
  end_ t = total_size (state f) ->
  0 <= start t <= end_ t ->
  total_size (state f) < bytes < 2 ^ 32 ->
  has_valid_tail f bytes = true.
Proof.
  intros Htail Hend Hwf Hbytes.
  unfold has_valid_tail. rewrite Htail.
  rewrite wrap32_borrow by lia.
  apply andb_true_intro. split.
  - apply Z.leb_le. lia.
  - apply Z.eqb_eq. exact Hend.
Qed.

Lemma has_valid_tail_wraps_witness :
  has_valid_tail
    (PartialFile_new 4 0 100 (mkState None (Some (mkValidPart 1536 2048)) 2048) 3)
    4096 = true.
Proof.
  apply (has_valid_tail_wraps _ (mkValidPart 1536 2048) 4096); concrete.
Defined.

(** ** Unification of head and tail *)

(** C9.  When head and tail are both present and the head reaches the
    start of the tail, the next [extend_valid_part] leaves both equal to
    one merged range that starts at 0; it ends at [total_size] when the
    head (with the new part) reaches the end of the file, and otherwise at
    the farther of the two ends, the end of the merged tail.  The range
    covers the former head, and the former tail when that lay within the
    file. *)
Theorem extend_valid_part_unifies (f : PartialFile) (h t new_part : ValidPart) :
  valid_head (state f) = Some h ->
  valid_tail (state f) = Some t ->
  start h = 0 ->
  0 <= start t <= end_ t ->
  0 <= start new_part ->
  start t <= end_ h ->
  exists r,
    valid_head (state (extend_valid_part new_part f)) = Some r
    /\ valid_tail (state (extend_valid_part new_part f)) = Some r
    /\ start r = 0
    /\ end_ r = (if end_ (merge h new_part) =? total_size (state f)
                then total_size (state f)
                else Z.max (end_ (merge h new_part)) (end_ (merge t new_part)))
    /\ covers r h
    /\ (end_ t <= total_size (state f) -> covers r t).
Proof.
  intros Hh Ht Hh0 Hwt Hp Htouch.
  pose proof (merge_covers h new_part) as [Hh1s Hh1e].
  pose proof (merge_covers t new_part) as [Ht1s Ht1e].
  pose proof (merge_start_bound h new_part 0 ltac:(lia) Hp) as Hh1n.
  pose proof (merge_start_bound t new_part 0 ltac:(lia) Hp) as Ht1n.
  set (h1 := merge h new_part) in *.
  set (t1 := merge t new_part) in *.
  assert (Hst : state (extend_valid_part new_part f)
                = if end_ h1 =? total_size (state f)
                  then mkState (Some (merge h1 h1)) (Some (merge h1 (merge h1 h1)))
                               (total_size (state f))
                  else mkState (Some (merge h1 t1)) (Some (merge t1 (merge h1 t1)))
                               (total_size (state f))).
  { unfold extend_valid_part. rewrite Hh, Ht. fold h1 t1.
    destruct (end_ h1 =? total_size (state f));
      match goal with |- context [if ?c then _ else _] => destruct c end;
      reflexivity. }
  rewrite Hst. clear Hst.
  destruct (Z.eqb_spec (end_ h1) (total_size (state f))) as [Heq | Hne].
  - rewrite !merge_self by lia.
    exists h1. simpl. unfold covers. repeat split; try reflexivity; lia.
  - assert (Hm : merge h1 t1 = mkValidPart 0 (Z.max (end_ h1) (end_ t1))).
    { rewrite merge_touching by lia. f_equal. lia. }
    rewrite Hm.
    assert (Hm' : merge t1 (mkValidPart 0 (Z.max (end_ h1) (end_ t1)))
                  = mkValidPart 0 (Z.max (end_ h1) (end_ t1))).
    { rewrite merge_touching by (simpl; lia). simpl. f_equal; lia. }
    rewrite Hm'.
    exists (mkValidPart 0 (Z.max (end_ h1) (end_ t1))).
    unfold covers. simpl. repeat split; try reflexivity; lia.
Qed.

Lemma extend_valid_part_unifies_witness :
  exists r,
    valid_head (state (extend_valid_part (mkValidPart 512 1024)
       (PartialFile_new 4 0 100
          (mkState (Some (mkValidPart 0 512)) (Some (mkValidPart 512 1024)) 2048) 3)))
      = Some r
    /\ valid_tail (state (extend_valid_part (mkValidPart 512 1024)
       (PartialFile_new 4 0 100
          (mkState (Some (mkValidPart 0 512)) (Some (mkValidPart 512 1024)) 2048) 3)))
      = Some r
    /\ start r = 0
    /\ end_ r = 1024
    /\ covers r (mkValidPart 0 512)
    /\ (1024 <= 2048 -> covers r (mkValidPart 512 1024)).
Proof.
  apply (extend_valid_part_unifies
           (PartialFile_new 4 0 100
              (mkState (Some (mkValidPart 0 512)) (Some (mkValidPart 512 1024)) 2048) 3)
           (mkValidPart 0 512) (mkValidPart 512 1024) (mkValidPart 512 1024));
    concrete.
Defined.

(** ** Reasoning about computations *)

Lemma wp_bind {A B : Type} (ab : Prop) (m : M A) (k : A -> M B)
    (Q : B -> PartialFile -> World -> Prop) (f : PartialFile) (w : World) :
  wp ab m (fun a f' w' => wp ab (k a) Q f' w') f w -> wp ab (bind m k) Q f w.
Proof. unfold wp, bind. destruct (m f w); auto. Qed.

Lemma wp_mono {A : Type} (ab : Prop) (m : M A)
    (Q Q' : A -> PartialFile -> World -> Prop) (f : PartialFile) (w : World) :
  (forall a f' w', Q a f' w' -> Q' a f' w') -> wp ab m Q f w -> wp ab m Q' f w.
Proof. unfold wp. intros HQ. destruct (m f w); auto. Qed.

Lemma wp_done {A : Type} (ab : Prop) (m : M A)
    (Q : A -> PartialFile -> World -> Prop) (f f' : PartialFile) (w w' : World) (a : A) :
  m f w = Done a f' w' -> wp ab m Q f w -> Q a f' w'.
Proof. unfold wp. intros ->. auto. Qed.

Lemma wp_ret {A : Type} (ab : Prop) (a : A)
    (Q : A -> PartialFile -> World -> Prop) (f : PartialFile) (w : World) :
  Q a f w -> wp ab (ret a) Q f w.
Proof. exact (fun H => H). Qed.

Lemma wp_gets {A : Type} (ab : Prop) (g : PartialFile -> A)
    (Q : A -> PartialFile -> World -> Prop) (f : PartialFile) (w : World) :
  Q (g f) f w -> wp ab (gets g) Q f w.
Proof. exact (fun H => H). Qed.

Lemma wp_modify (ab : Prop) (h : PartialFile -> PartialFile)
    (Q : unit -> PartialFile -> World -> Prop) (f : PartialFile) (w : World) :
  Q tt (h f) w -> wp ab (modify h) Q f w.
Proof. exact (fun H => H). Qed.

Lemma wp_eq {A : Type} (ab : Prop) (m : M A)
    (Q : A -> PartialFile -> World -> Prop) (f f1 : PartialFile) (w w1 : World) (a : A) :
  m f w = Done a f1 w1 -> Q a f1 w1 -> wp ab m Q f w.
Proof. unfold wp. intros ->. auto. Qed.

Lemma wp_returns {A : Type} (m : M A) (v : A) (f : PartialFile) (w : World) :
  wp False m (fun a _ _ => a = v) f w -> exists f' w', m f w = Done v f' w'.
Proof.
  unfold wp. destruct (m f w) as [a f' w' |]; [| tauto].
  intros ->. eauto.
Qed.

Lemma wp_total {A : Type} (m : M A)
    (Q : A -> PartialFile -> World -> Prop) (f : PartialFile) (w : World) :
  wp False m Q f w -> exists a f' w', m f w = Done a f' w' /\ Q a f' w'.
Proof. unfold wp. destruct (m f w) as [a f' w' |]; [eauto | tauto]. Qed.

(** ** The valid ranges under [extend_valid_part] *)

Lemma grows_refl (o : option ValidPart) : grows o o.
Proof. intros p Hp. exists p. split; [exact Hp | apply covers_refl]. Qed.

Lemma grows_trans (a b c : option ValidPart) : grows a b -> grows b c -> grows a c.
Proof.
  intros Hab Hbc p Hp.
  destruct (Hab p Hp) as (q & Hq & Hcq).
  destruct (Hbc q Hq) as (r & Hr & Hcr).
  exists r. split; [exact Hr | eapply covers_trans; eauto].
Qed.

Lemma evolves_refl (f : PartialFile) : evolves f f.
Proof.
  unfold evolves. split; [reflexivity |]. split; [auto |].
  intros H. split; [exact H |]. split; apply grows_refl.
Qed.

Lemma evolves_trans (f g h : PartialFile) : evolves f g -> evolves g h -> evolves f h.
Proof.
  intros (Hs1 & He1 & Hi1) (Hs2 & He2 & Hi2).
  unfold evolves. split; [congruence |]. split; [auto |].
  intros Hinv. destruct (Hi1 Hinv) as (Hg & Hh1 & Ht1).
  destruct (Hi2 Hg) as (Hh & Hh2 & Ht2).
  eauto using grows_trans.
Qed.

Lemma evolves_frame (f f' : PartialFile) :
  state f' = state f -> (write_error f = true -> write_error f' = true) ->
  evolves f f'.
Proof.
  intros Hs He. unfold evolves. rewrite Hs.
  split; [reflexivity |]. split; [exact He |].
  intros H. split; [exact H |]. split; apply grows_refl.
Qed.

Lemma StateInv_empty (n : Z) : StateInv (mkState None None n).
Proof. split; intros p Hp; discriminate. Qed.

(** Replaces every [merge a b], innermost first, by a fresh range, keeping
    that it covers [a] and stays within [0, total]. *)
Ltac merge_facts total :=
  repeat match goal with
         | |- context [merge ?a ?b] =>
             lazymatch a with context [merge _ _] => fail | _ => idtac end;
             lazymatch b with context [merge _ _] => fail | _ => idtac end;
             let m := fresh "m" in
             let Hc := fresh "Hc" in
             pose proof (merge_covers a b) as Hc; unfold covers in Hc;
             try pose proof (merge_start_bound a b 0 ltac:(lia) ltac:(lia));
             try pose proof (merge_end_bound a b total ltac:(lia) ltac:(lia));
             set (m := merge a b) in *; clearbody m
         end.

Ltac range_goal total :=
  repeat match goal with
         | H : None = Some _ |- _ => discriminate H
         | H : Some _ = Some _ |- _ => injection H as <-
         | |- _ /\ _ => split
         | |- exists _, Some ?m = Some _ /\ _ => exists m; split; [reflexivity |]
         | |- forall _, _ => intro
         end;
  unfold covers in *; merge_facts total; lia.

Lemma extend_valid_part_write_error (p : ValidPart) (f : PartialFile) :
  write_error (extend_valid_part p f) = write_error f.
Proof.
  unfold extend_valid_part. cbv zeta.
  match goal with |- write_error (if ?c then _ else _) = _ => destruct c end;
    reflexivity.
Qed.

Lemma extend_valid_part_evolves (p : ValidPart) (f : PartialFile) :
  0 <= start p -> end_ p <= total_size (state f) ->
  evolves f (extend_valid_part p f).
Proof.
  intros Hp0 Hp1.
  unfold evolves. rewrite extend_valid_part_write_error.
  assert (Hst : exists st', state (extend_valid_part p f) = st'
            /\ total_size st' = total_size (state f)
            /\ (StateInv (state f) ->
                StateInv st'
                /\ grows (valid_head (state f)) (valid_head st')
                /\ grows (valid_tail (state f)) (valid_tail st'))).
  { unfold extend_valid_part. cbv zeta.
    match goal with |- context [state (if ?c then _ else _)] => destruct c end;
      simpl state.
    all: eexists; split; [reflexivity |].
    all: destruct (state f) as [hd tl ts]; simpl in Hp1 |- *.
    all: unfold StateInv, grows; simpl.
    all: destruct hd as [h |]; destruct tl as [t |].
    all: repeat match goal with
                | |- context [if ?c then _ else _] =>
                    match c with
                    | (?x =? ?y) => destruct (Z.eqb_spec x y)
                    | (?x <? ?y) => destruct (Z.ltb_spec x y)
                    end
                end; simpl.
    all: (split; [reflexivity |]).
    all: intros [Hh Ht].
    all: try (specialize (Hh _ eq_refl)); try (specialize (Ht _ eq_refl)).
    all: range_goal ts. }
  destruct Hst as (st' & -> & Hts & Hinv).
  split; [exact Hts |]. split; [auto | exact Hinv].
Qed.

(** ** Every operation keeps the ranges *)

Lemma keeps_ret {A : Type} (a : A) : keeps (ret a).
Proof. intros f w. apply evolves_refl. Qed.

Lemma keeps_gets {A : Type} (g : PartialFile -> A) : keeps (gets g).
Proof. intros f w. apply evolves_refl. Qed.

Lemma keeps_abort {A : Type} (t : string) : keeps (fun _ _ => @Abort A t).
Proof. intros f w. exact I. Qed.

Lemma keeps_modify (h : PartialFile -> PartialFile) :
  (forall f, evolves f (h f)) -> keeps (modify h).
Proof. intros Hh f w. apply Hh. Qed.

Lemma keeps_bind {A B : Type} (m : M A) (k : A -> M B) :
  keeps m -> (forall a, keeps (k a)) -> keeps (bind m k).
Proof.
  intros Hm Hk f w. unfold wp, bind.
  specialize (Hm f w). unfold wp in Hm.
  destruct (m f w) as [a f1 w1 |]; [| exact I].
  specialize (Hk a f1 w1). unfold wp in Hk.
  destruct (k a f1 w1) as [b f2 w2 |]; [| exact I].
  eapply evolves_trans; eassumption.
Qed.

Lemma completions_only_refl (f : PartialFile) : completions_only f f.
Proof. unfold completions_only. tauto. Qed.

Lemma completions_only_trans (f g h : PartialFile) :
  completions_only f g -> completions_only g h -> completions_only f h.
Proof.
  unfold completions_only.
  intros (? & ? & ? & ? & ? & ? & ?) (? & ? & ? & ? & ? & ? & ?).
  repeat split; try congruence. auto.
Qed.

Lemma completions_only_evolves (f f' : PartialFile) :
  completions_only f f' -> evolves f f'.
Proof.
  intros (_ & _ & _ & _ & Hs & _ & He). apply evolves_frame; assumption.
Qed.

Lemma usbh_msc_finished_completions_only (ok : bool) (slot : nat) (f : PartialFile) :
  completions_only f (usbh_msc_finished ok slot f).
Proof.
  unfold completions_only, usbh_msc_finished.
  destruct ok; simpl; repeat split; auto.
Qed.

Lemma finish_all_completions_only (cs : list (bool * nat)) (f : PartialFile) :
  completions_only f (finish_all cs f).
Proof.
  unfold finish_all. revert f.
  induction cs as [| c cs IH]; intros f; simpl.
  - apply completions_only_refl.
  - eapply completions_only_trans; [| apply IH].
    apply usbh_msc_finished_completions_only.
Qed.

Lemma wait_until_completions_only (ready : SectorPool -> bool) (evs : list SemEvent)
    (f : PartialFile) :
  completions_only f (snd (fst (wait_until ready evs f))).
Proof.
  revert f. induction evs as [| ev evs IH]; intros f; simpl.
  - destruct (ready (sector_pool f)); apply completions_only_refl.
  - destruct (ready (sector_pool f)); [apply completions_only_refl |].
    destruct ev as [| cs]; [apply completions_only_refl |].
    eapply completions_only_trans; [| apply IH].
    apply finish_all_completions_only.
Qed.

Lemma update_request_evolves (g : UsbhMscRequest -> UsbhMscRequest) (slot : nat)
    (f : PartialFile) : evolves f (update_request g slot f).
Proof. apply evolves_frame; auto. Qed.

Lemma keeps_SectorPool_acquire (size : nat) : keeps (SectorPool_acquire size).
Proof.
  intros f w. unfold wp, SectorPool_acquire.
  pose proof (wait_until_completions_only (is_available_slot size) (sem_events w) f) as Hc.
  destruct (wait_until (is_available_slot size) (sem_events w) f) as [[ok f1] evs].
  simpl in Hc. apply completions_only_evolves in Hc.
  destruct ok; [| exact Hc].
  eapply evolves_trans; [exact Hc |].
  apply evolves_frame; auto.
Qed.

Lemma keeps_SectorPool_sync (size : nat) (avoid : Z) : keeps (SectorPool_sync size avoid).
Proof.
  intros f w. unfold wp, SectorPool_sync.
  destruct (Z.of_nat size <? avoid); [exact I |].
  match goal with |- context [wait_until ?r ?e ?g] =>
    pose proof (wait_until_completions_only r e g) as Hc;
    destruct (wait_until r e g) as [[ok f1] evs]
  end.
  simpl in Hc. apply completions_only_evolves. exact Hc.
Qed.

Lemma keeps_lseek_poke : keeps lseek_poke.
Proof. intros f w. apply evolves_refl. Qed.

Lemma keeps_usbh_msc_submit_request (slot : nat) : keeps (usbh_msc_submit_request slot).
Proof. intros f w. apply evolves_refl. Qed.

Lemma keeps_write_current_sector : keeps write_current_sector.
Proof.
  unfold write_current_sector.
  apply keeps_bind; [apply keeps_gets |]. intros [slot |]; [| apply keeps_abort].
  apply keeps_bind; [apply keeps_lseek_poke |]. intros poked.
  destruct poked; simpl; [| apply keeps_ret].
  apply keeps_bind; [apply keeps_usbh_msc_submit_request |]. intros result.
  destruct result; simpl; [| apply keeps_ret].
  intros f w. unfold wp, bind, gets, modify, ret. simpl.
  apply extend_valid_part_evolves; simpl.
  - apply wrap32_range.
  - apply Z.le_min_r.
Qed.

Lemma keeps_discard_current_sector : keeps discard_current_sector.
Proof.
  unfold discard_current_sector.
  apply keeps_bind; [apply keeps_gets |]. intros [slot |]; [| apply keeps_ret].
  apply keeps_modify. intros f. apply evolves_frame; auto.
Qed.

Lemma keeps_seek (offset : Z) : keeps (seek offset).
Proof.
  unfold seek.
  apply keeps_bind; [apply keeps_gets |]. intros f0.
  assert (Hoff : keeps (modify (with_current_offset offset)))
    by (apply keeps_modify; intros f; apply evolves_frame; auto).
  assert (Hrest : keeps (discard_current_sector;;; ret true))
    by (apply keeps_bind; [apply keeps_discard_current_sector | intros; apply keeps_ret]).
  destruct (current_sector f0) as [slot |].
  - destruct (_ =? _); apply keeps_bind; auto using keeps_ret.
  - apply keeps_bind; auto.
Qed.

Lemma keeps_open_sector (size : nat) : keeps (open_sector size).
Proof.
  unfold open_sector.
  apply keeps_bind; [apply keeps_gets |]. intros f0.
  destruct (current_sector f0) as [slot |]; [apply keeps_ret |].
  destruct (_ <=? _); [apply keeps_ret |].
  apply keeps_bind; [apply keeps_SectorPool_acquire |].
  intros [slot |]; [| apply keeps_ret].
  apply keeps_bind; [apply keeps_modify; intros f; apply evolves_frame; auto |].
  intros _.
  apply keeps_bind; [apply keeps_modify; apply update_request_evolves |].
  intros _. apply keeps_ret.
Qed.

Lemma keeps_write_loop (size : nat) (fuel : nat) (bytes : list byte) :
  keeps (write_loop size fuel bytes).
Proof.
  revert bytes. induction fuel as [| fuel IH]; intros bytes.
  - destruct bytes; simpl; [apply keeps_ret | apply keeps_abort].
  - destruct bytes as [| b bytes]; [apply keeps_ret |].
    cbn [write_loop].
    apply keeps_bind; [apply keeps_open_sector |].
    intros [slot |]; [| apply keeps_ret].
    apply keeps_bind; [apply keeps_gets |]. intros f0.
    apply keeps_bind; [apply keeps_modify; apply update_request_evolves |].
    intros _.
    destruct (_ <? _); [apply keeps_abort |].
    apply keeps_bind.
    { destruct (negb _); [| apply keeps_ret].
      apply keeps_bind; [apply keeps_write_current_sector |]. intros _.
      apply keeps_modify. intros f. apply evolves_frame; auto. }
    intros _.
    apply keeps_bind; [apply keeps_seek |]. intros sought.
    destruct (negb sought); [apply keeps_ret | apply IH].
Qed.

Lemma keeps_write (size : nat) (bytes : list byte) : keeps (write size bytes).
Proof.
  unfold write.
  apply keeps_bind; [apply keeps_gets |]. intros failed.
  destruct failed; [apply keeps_ret | apply keeps_write_loop].
Qed.

Lemma keeps_flush_current_sector (size : nat) : keeps (flush_current_sector size).
Proof.
  unfold flush_current_sector.
  apply keeps_bind; [apply keeps_gets |]. intros [cur |]; [| apply keeps_ret].
  apply keeps_bind; [apply keeps_SectorPool_acquire |].
  intros [copied_sector |]; [| apply keeps_ret].
  apply keeps_bind; [apply keeps_modify; intros f; apply update_request_evolves |].
  intros _.
  apply keeps_bind; [apply keeps_write_current_sector |]. intros status.
  apply keeps_bind; [apply keeps_modify; intros f; apply evolves_frame; auto |].
  intros _. destruct (negb status); apply keeps_ret.
Qed.

Lemma keeps_sync (size : nat) : keeps (sync size).
Proof.
  unfold sync.
  apply keeps_bind; [apply keeps_flush_current_sector |].
  intros [sync_avoid |]; [| apply keeps_ret].
  apply keeps_bind; [apply keeps_SectorPool_sync |]. intros drained.
  destruct (negb drained); [apply keeps_ret |].
  apply keeps_bind; [apply keeps_gets | intros; apply keeps_ret].
Qed.

Lemma keeps_step (size : nat) (op : Op) : keeps (step size op).
Proof.
  destruct op as [offset | bytes | | ok slot]; simpl.
  - apply keeps_seek.
  - apply keeps_write.
  - apply keeps_sync.
  - apply keeps_bind; [| intros; apply keeps_ret].
    apply keeps_modify. intros f.
    apply completions_only_evolves, usbh_msc_finished_completions_only.
Qed.

Lemma keeps_run (size : nat) (ops : list Op) : keeps (run size ops).
Proof.
  induction ops as [| op ops IH]; simpl.
  - apply keeps_ret.
  - apply keeps_bind; [apply keeps_step |]. intros r.
    apply keeps_bind; [apply IH | intros; apply keeps_ret].
Qed.

(** ** Monotone ranges *)

(** C4 (as amended).  Over every sequence of operations that starts from
    a state in which the head, if present, starts at 0 and both ranges lie
    within the file (the empty state of [create] is one): a head that is
    present starts at 0, a tail that is present ends at or before
    [total_size], and a range that was present is still present and covers
    what it covered. *)
Theorem valid_ranges_monotone (size : nat) (ops : list Op)
    (f f' : PartialFile) (w w' : World) (rs : list bool) :
  StateInv (state f) ->
  run size ops f w = Done rs f' w' ->
  StateInv (state f')
  /\ (forall h, valid_head (state f') = Some h -> start h = 0)
  /\ (forall t, valid_tail (state f') = Some t -> end_ t <= total_size (state f'))
  /\ grows (valid_head (state f)) (valid_head (state f'))
  /\ grows (valid_tail (state f)) (valid_tail (state f')).
Proof.
  intros Hinv Hrun.
  pose proof (keeps_run size ops f w) as Hk.
  apply (wp_done _ _ _ _ _ _ _ _ Hrun) in Hk.
  destruct Hk as (_ & _ & Hk). destruct (Hk Hinv) as (Hinv' & Hh & Ht).
  split; [exact Hinv' |].
  destruct Hinv' as [Hhead Htail].
  repeat split; auto.
  - intros h Hh'. apply (Hhead h Hh').
  - intros t Ht'. apply (Htail t Ht').
Qed.

Lemma valid_ranges_monotone_witness :
  exists rs f' w',
    run 4 [OpWrite (payload 512); OpSeek 1536; OpWrite (payload 512)]
        (scenario_file 4) quiet_world = Done rs f' w'
    /\ StateInv (state f')
    /\ (forall h, valid_head (state f') = Some h -> start h = 0)
    /\ (forall t, valid_tail (state f') = Some t -> end_ t <= total_size (state f'))
    /\ grows (valid_head (state (scenario_file 4))) (valid_head (state f'))
    /\ grows (valid_tail (state (scenario_file 4))) (valid_tail (state f')).
Proof.
  eexists. eexists. eexists.
  split; [vm_compute; reflexivity |].
  eapply (valid_ranges_monotone 4
            [OpWrite (payload 512); OpSeek 1536; OpWrite (payload 512)]
            (scenario_file 4) _ quiet_world).
  - apply StateInv_empty.
  - vm_compute. reflexivity.
Defined.

(** C4, the claim as stated fails: on a fresh file of 2048 bytes, writing
    the second sector alone leaves a tail [512, 1024) that does not end at
    [total_size]. *)
Lemma valid_tail_end_counterexample :
  exists rs f' w' t,
    run 4 [OpSeek 512; OpWrite (payload 512)] (scenario_file 4) quiet_world
      = Done rs f' w'
    /\ valid_tail (state f') = Some t
    /\ end_ t <> total_size (state f').
Proof.
  eexists. eexists. eexists. eexists.
  split; [vm_compute; reflexivity |].
  split; [reflexivity |].
  vm_compute. discriminate.
Qed.

(** ** Synchronous failures of a submission *)

(** C1, the code at the failing input: the poke of the descriptor fails
    (or the block layer rejects the request) while [write] flushes the
    sector it has just filled; nothing reaches the valid ranges, and
    [write] still returns [true]. *)
Theorem write_ignores_failed_submission :
  (exists f' w',
     write 4 (payload 512) (scenario_file 4) (mkWorld [] [false] [] [])
       = Done true f' w'
     /\ usb_log w' = []
     /\ valid_head (state f') = None)
  /\ (exists f' w',
     write 4 (payload 512) (scenario_file 4) (mkWorld [] [] [false] [])
       = Done true f' w'
     /\ length (usb_log w') = 1%nat
     /\ valid_head (state f') = None).
Proof.
  split; eexists; eexists; (split; [vm_compute; reflexivity |]);
    split; reflexivity.
Qed.

(** ** Draining the pool *)

(** C2, the code at the failing input: with all four slots free and
    nothing in flight, [sync (0)] does not return [true]; it waits and
    times out.  With all four slots in use it returns [true] at once.
    The loop compares the population count of the mask with [32 - avoid]:
    it waits for [avoid] free slots, not for [size - avoid]. *)
Theorem SectorPool_sync_waits_for_used_slots :
  SectorPool_sync 4 0 (scenario_file 4) quiet_world
    = Done false (scenario_file 4) quiet_world
  /\ SectorPool_sync 4 0
       (with_pool (mkPool (pool (SectorPool_new 4 0)) (2 ^ 32 - 1)) (scenario_file 4))
       quiet_world
     = Done true
         (with_pool (mkPool (pool (SectorPool_new 4 0)) (2 ^ 32 - 1)) (scenario_file 4))
         quiet_world.
Proof. split; vm_compute; reflexivity. Qed.

(** ** The slot mask *)

Lemma countr_one_from_spec (m : Z) (n : nat) :
  forall (j : Z) (k : nat),
    (k < n)%nat ->
    (forall i, (i < k)%nat -> Z.testbit m (j + Z.of_nat i) = true) ->
    Z.testbit m (j + Z.of_nat k) = false ->
    countr_one_from n j m = Z.of_nat k.
Proof.
  induction n as [| n IH]; intros j k Hk Hset Hclear; [lia |].
  cbn [countr_one_from].
  destruct k as [| k].
  - rewrite Z.add_0_r in Hclear. rewrite Hclear. reflexivity.
  - assert (H0 : Z.testbit m j = true).
    { specialize (Hset 0%nat ltac:(lia)). rewrite Z.add_0_r in Hset. exact Hset. }
    rewrite H0.
    rewrite (IH (j + 1) k).
    + lia.
    + lia.
    + intros i Hi. specialize (Hset (S i) ltac:(lia)).
      replace (j + 1 + Z.of_nat i) with (j + Z.of_nat (S i)) by lia. exact Hset.
    + replace (j + 1 + Z.of_nat k) with (j + Z.of_nat (S k)) by lia. exact Hclear.
Qed.

Lemma countr_one_spec (m : Z) (k : nat) :
  (k < 32)%nat ->
  (forall i, (i < k)%nat -> Z.testbit m (Z.of_nat i) = true) ->
  Z.testbit m (Z.of_nat k) = false ->
  countr_one m = Z.of_nat k.
Proof.
  intros Hk Hset Hclear. unfold countr_one.
  apply countr_one_from_spec; [exact Hk | exact Hset | exact Hclear].
Qed.

Lemma is_available_slot_intro (size : nat) (p : SectorPool) (k : nat) :
  (k < size)%nat -> Z.testbit (slot_mask p) (Z.of_nat k) = false ->
  is_available_slot size p = true.
Proof.
  intros Hk Hclear. unfold is_available_slot.
  apply existsb_exists. exists k. split.
  - apply in_seq. lia.
  - rewrite Hclear. reflexivity.
Qed.

Lemma is_available_slot_size (size : nat) (p : SectorPool) :
  is_available_slot size p = true -> (0 < size)%nat.
Proof.
  unfold is_available_slot. intros H.
  apply existsb_exists in H. destruct H as (i & Hi & _).
  apply in_seq in Hi. lia.
Qed.

Lemma wrap32_testbit (z i : Z) : 0 <= i < 32 -> Z.testbit (wrap32 z) i = Z.testbit z i.
Proof. intros Hi. unfold wrap32. apply Z.mod_pow2_bits_low. lia. Qed.

Lemma initial_mask_free (size i : nat) (lun_ : Z) :
  (i < size)%nat -> (i < 32)%nat ->
  Z.testbit (slot_mask (SectorPool_new size lun_)) (Z.of_nat i) = false.
Proof.
  intros Hi H32. cbn [SectorPool_new slot_mask].
  rewrite wrap32_testbit by lia.
  apply Z.shiftl_spec_low. lia.
Qed.

Lemma acquired_mask_testbit (m : Z) (k i : nat) :
  (i < 32)%nat ->
  Z.testbit (wrap32 (Z.lor m (Z.shiftl 1 (Z.of_nat k)))) (Z.of_nat i)
  = Z.testbit m (Z.of_nat i) || (k =? i)%nat.
Proof.
  intros Hi. rewrite wrap32_testbit by lia.
  rewrite Z.lor_spec. f_equal.
  rewrite Z.shiftl_1_l, Z.pow2_bits_eqb by lia.
  destruct (Nat.eqb_spec k i) as [-> | Hne].
  - apply Z.eqb_refl.
  - apply Z.eqb_neq. lia.
Qed.

Lemma wait_until_ready (ready : SectorPool -> bool) (evs : list SemEvent) (f : PartialFile) :
  ready (sector_pool f) = true -> wait_until ready evs f = (true, f, evs).
Proof. intros H. destruct evs; simpl; rewrite H; reflexivity. Qed.

Lemma wait_until_reached (ready : SectorPool -> bool) (evs evs' : list SemEvent)
    (f f' : PartialFile) :
  wait_until ready evs f = (true, f', evs') -> ready (sector_pool f') = true.
Proof.
  revert f. induction evs as [| ev evs IH]; intros f; simpl.
  - destruct (ready (sector_pool f)) eqn:E; intros [= <- <-]; exact E.
  - destruct (ready (sector_pool f)) eqn:E; [intros [= <- <-]; exact E |].
    destruct ev as [| cs]; [discriminate | apply IH].
Qed.

(** When [SectorPool::sync] reports success, the population count of the
    mask is [32 - avoid]: [avoid] slots are free, the others are in use. *)
Lemma SectorPool_sync_reached (size : nat) (avoid : Z) (f f' : PartialFile)
    (w w' : World) :
  SectorPool_sync size avoid f w = Done true f' w' ->
  popcount (slot_mask (sector_pool f')) = as_int (wrap32 (32 - avoid)).
Proof.
  unfold SectorPool_sync.
  destruct (Z.of_nat size <? avoid); [discriminate |].
  match goal with |- context [wait_until ?r ?e ?g] =>
    destruct (wait_until r e g) as [[ok f1] evs] eqn:E
  end.
  intros [= -> -> _].
  apply Z.eqb_eq.
  refine (wait_until_reached
            (fun p => popcount (slot_mask p) =? as_int (wrap32 (32 - avoid)))
            _ _ _ _ E).
Qed.

Lemma with_sem_events_same (w : World) : with_sem_events (sem_events w) w = w.
Proof. destruct w; reflexivity. Qed.

(** [acquire] when the lowest free slot is [k]: it is taken at once, no
    event is consumed. *)
Lemma SectorPool_acquire_free (size : nat) (f : PartialFile) (w : World) (k : nat) :
  (k < size)%nat -> (k < 32)%nat ->
  (forall i, (i < k)%nat -> Z.testbit (slot_mask (sector_pool f)) (Z.of_nat i) = true) ->
  Z.testbit (slot_mask (sector_pool f)) (Z.of_nat k) = false ->
  SectorPool_acquire size f w
  = Done (Some k)
      (update_request (set_data (repeat x00 (Z.to_nat SECTOR_SIZE))) k
         (with_pool (mkPool (pool (sector_pool f))
                            (wrap32 (Z.lor (slot_mask (sector_pool f))
                                           (Z.shiftl 1 (Z.of_nat k))))) f))
      w.
Proof.
  intros Hk H32 Hset Hclear. unfold SectorPool_acquire.
  rewrite wait_until_ready by (eapply is_available_slot_intro; eassumption).
  unfold get_available_slot.
  rewrite (countr_one_spec _ k H32 Hset Hclear), Nat2Z.id.
  rewrite with_sem_events_same. reflexivity.
Qed.

(** ** Stepping through [seek] and [write] *)

Lemma seek_no_sector (offset : Z) (f : PartialFile) (w : World) :
  current_sector f = None ->
  seek offset f w = Done true (with_current_offset offset f) w.
Proof.
  intros H. unfold seek, bind, gets, modify, discard_current_sector, ret. cbn.
  rewrite H. cbn. rewrite H. reflexivity.
Qed.

Lemma write_loop_unfold (size fuel : nat) (bytes : list byte) :
  bytes <> [] ->
  write_loop size (S fuel) bytes
  = (opened <- open_sector size;;
     match opened with
     | None => ret false
     | Some slot =>
         f <- gets id;;
         let sector_offset := current_offset f mod SECTOR_SIZE in
         let sector_remaining := SECTOR_SIZE - sector_offset in
         let write_size := Z.min (Z.of_nat (length bytes)) sector_remaining in
         modify (update_request
                   (fun r => set_data (memcpy (data r) (Z.to_nat sector_offset)
                                              bytes (Z.to_nat write_size)) r) slot);;;
         let next_offset := wrap32 (current_offset f + write_size) in
         let next_sector_nbr := get_sector_nbr f next_offset in
         if total_size (state f) <? next_offset
         then fatal_error "Request to write past the end of file." "transfers"
         else
           (if negb (next_sector_nbr =? sector_nbr (request_at f slot))
            then write_current_sector;;; modify (with_current_sector None)
            else ret tt);;;
           sought <- seek (wrap32 (current_offset f + write_size));;
           if negb sought then ret false
           else write_loop size fuel (skipn (Z.to_nat write_size) bytes)
     end).
Proof. destruct bytes; [congruence | reflexivity]. Qed.

Lemma open_sector_past_end (size : nat) (f : PartialFile) (w : World) :
  current_sector f = None ->
  total_size (state f) <= current_offset f ->
  open_sector size f w = Done None f w.
Proof.
  intros Hcs Hend. unfold open_sector, bind, gets, ret. cbn.
  rewrite Hcs. apply Z.leb_le in Hend. rewrite Hend. reflexivity.
Qed.

Lemma open_sector_acquires (size : nat) (f : PartialFile) (w : World) :
  current_sector f = None ->
  current_offset f < total_size (state f) ->
  open_sector size f w
  = match SectorPool_acquire size f w with
    | Done (Some slot) f1 w1 =>
        Done (Some slot)
             (update_request (set_sector_nbr (get_sector_nbr f (current_offset f))) slot
                (with_current_sector (Some slot) f1)) w1
    | Done None f1 w1 => Done None f1 w1
    | Abort t => Abort t
    end.
Proof.
  intros Hcs Hin. unfold open_sector, bind, gets, ret, modify. cbn.
  rewrite Hcs. apply Z.leb_gt in Hin. rewrite Hin.
  destruct (SectorPool_acquire size f w) as [[slot |] f1 w1 |]; reflexivity.
Qed.

Lemma request_at_update_request (g : UsbhMscRequest -> UsbhMscRequest) (slot : nat)
    (f : PartialFile) :
  (slot < length (pool (sector_pool f)))%nat ->
  request_at (update_request g slot f) slot = g (request_at f slot).
Proof.
  intros Hlt. unfold request_at, update_request. cbn.
  apply list_lookup_total_alter_eq. exact Hlt.
Qed.

Lemma request_at_update_request_ne (g : UsbhMscRequest -> UsbhMscRequest)
    (slot slot' : nat) (f : PartialFile) :
  slot <> slot' ->
  request_at (update_request g slot f) slot' = request_at f slot'.
Proof.
  intros Hne. unfold request_at, update_request. cbn.
  apply list_lookup_total_alter_ne. exact Hne.
Qed.

(** [acquire] always returns: with a null pointer after a timeout, or
    with the lowest free slot, zeroed and marked used.  Before that only
    completions touched the object. *)
Lemma SectorPool_acquire_cases (size : nat) (f : PartialFile) (w : World) :
  exists f1 evs,
    completions_only f f1
    /\ (SectorPool_acquire size f w = Done None f1 (with_sem_events evs w)
        \/ (is_available_slot size (sector_pool f1) = true
            /\ SectorPool_acquire size f w
               = Done (Some (get_available_slot (sector_pool f1)))
                   (update_request (set_data (repeat x00 (Z.to_nat SECTOR_SIZE)))
                      (get_available_slot (sector_pool f1))
                      (with_pool
                         (mkPool (pool (sector_pool f1))
                            (wrap32 (Z.lor (slot_mask (sector_pool f1))
                               (Z.shiftl 1 (Z.of_nat (get_available_slot (sector_pool f1)))))))
                         f1))
                   (with_sem_events evs w))).
Proof.
  unfold SectorPool_acquire.
  pose proof (wait_until_completions_only (is_available_slot size) (sem_events w) f) as Hc.
  destruct (wait_until (is_available_slot size) (sem_events w) f) as [[ok f1] evs] eqn:E.
  exists f1, evs. split; [exact Hc |].
  destruct ok; [right | left; reflexivity].
  split; [| reflexivity].
  eapply wait_until_reached. exact E.
Qed.

(** What [write_current_sector] leaves alone, whatever the environment
    answers; with a current sector it always returns. *)
Lemma write_current_sector_frame (f : PartialFile) (w : World) (slot : nat) :
  current_sector f = Some slot ->
  exists r f' w',
    write_current_sector f w = Done r f' w'
    /\ sector_pool f' = sector_pool f
    /\ write_error f' = write_error f
    /\ first_sector_nbr f' = first_sector_nbr f
    /\ current_sector f' = current_sector f
    /\ current_offset f' = current_offset f
    /\ total_size (state f') = total_size (state f)
    /\ sem_events w' = sem_events w
    /\ ((hd true (lseek_results w) = true
         /\ usb_log w' = usb_log w ++ [request_at f slot])
        \/ (hd true (lseek_results w) = false /\ usb_log w' = usb_log w)).
Proof.
  intros Hcs.
  unfold write_current_sector, bind, gets, lseek_poke, usbh_msc_submit_request,
    modify, ret.
  rewrite Hcs.
  destruct (hd true (lseek_results w)); cbn.
  - destruct (hd true (submit_results w)); cbn.
    + eexists _, _, _. split; [reflexivity |].
      unfold extend_valid_part. cbv zeta.
      match goal with |- context [if ?c then _ else _] => destruct c end;
        cbn; repeat split; auto;
        repeat match goal with
               | |- context [match ?o with Some _ => _ | None => _ end] => destruct o
               end; reflexivity.
    + eexists _, _, _. split; [reflexivity |]. cbn. repeat split; auto.
  - eexists _, _, _. split; [reflexivity |]. cbn. repeat split; auto.
Qed.

(** Evaluation of word arithmetic on literals. *)
Ltac is_pos_lit p :=
  lazymatch p with
  | xH => idtac
  | xO ?q => is_pos_lit q
  | xI ?q => is_pos_lit q
  end.

Ltac is_Z_lit z :=
  lazymatch z with
  | Z0 => idtac
  | Zpos ?p => is_pos_lit p
  | Zneg ?p => is_pos_lit p
  end.

Ltac is_nat_lit n :=
  lazymatch n with
  | O => idtac
  | S ?m => is_nat_lit m
  end.

Ltac calc_at t := let v := eval vm_compute in t in progress change t with v.

Ltac calc :=
  repeat match goal with
         | |- context [Z.of_nat ?n] => is_nat_lit n; calc_at (Z.of_nat n)
         | |- context [Z.to_nat ?z] => is_Z_lit z; calc_at (Z.to_nat z)
         | |- context [wrap32 ?z] => is_Z_lit z; calc_at (wrap32 z)
         | |- context [Z.add ?a ?b] => is_Z_lit a; is_Z_lit b; calc_at (Z.add a b)
         | |- context [Z.sub ?a ?b] => is_Z_lit a; is_Z_lit b; calc_at (Z.sub a b)
         | |- context [Z.mul ?a ?b] => is_Z_lit a; is_Z_lit b; calc_at (Z.mul a b)
         | |- context [Z.div ?a ?b] => is_Z_lit a; is_Z_lit b; calc_at (Z.div a b)
         | |- context [Z.modulo ?a ?b] => is_Z_lit a; is_Z_lit b; calc_at (Z.modulo a b)
         | |- context [Z.min ?a ?b] => is_Z_lit a; is_Z_lit b; calc_at (Z.min a b)
         | |- context [Z.max ?a ?b] => is_Z_lit a; is_Z_lit b; calc_at (Z.max a b)
         | |- context [Z.ltb ?a ?b] => is_Z_lit a; is_Z_lit b; calc_at (Z.ltb a b)
         | |- context [Z.leb ?a ?b] => is_Z_lit a; is_Z_lit b; calc_at (Z.leb a b)
         | |- context [Z.eqb ?a ?b] => is_Z_lit a; is_Z_lit b; calc_at (Z.eqb a b)
         end.

(** The operations are stepped through by their lemmas, not unfolded by
    simplification. *)
Arguments write_loop : simpl never.
Arguments open_sector : simpl never.
Arguments SectorPool_acquire : simpl never.
Arguments SectorPool_sync : simpl never.
Arguments write_current_sector : simpl never.
Arguments flush_current_sector : simpl never.
Arguments seek : simpl never.
Arguments sync : simpl never.
Arguments write : simpl never.
Arguments extend_valid_part : simpl never.
Arguments memcpy : simpl never.
Arguments repeat : simpl never.
Arguments wp : simpl never.
Arguments bind : simpl never.

(** The abort of [write] is real: in a file of 2000 bytes the last sector
    ends beyond the file, and filling it to its end is fatal. *)
Example write_beyond_unaligned_end_aborts :
  run 4 [OpSeek 1536; OpWrite (payload 500)]
      (PartialFile_new 4 0 100 (mkState None None 2000) 3) quiet_world
  = Abort "transfers: Request to write past the end of file.".
Proof. vm_compute. reflexivity. Qed.

(** ** Partial sector and [sync] *)

Lemma write_loop_nil (size fuel : nat) : write_loop size fuel [] = ret true.
Proof. destruct fuel; reflexivity. Qed.

Lemma seek_same_sector (offset : Z) (f : PartialFile) (w : World) (slot : nat) :
  current_sector f = Some slot ->
  sector_nbr (request_at f slot) = get_sector_nbr f offset ->
  seek offset f w = Done true (with_current_offset offset f) w.
Proof.
  intros Hcs Hnbr. unfold seek, bind, gets, modify, ret, id.
  rewrite Hcs, Hnbr, Z.eqb_refl. reflexivity.
Qed.

Lemma write_current_sector_ok (f : PartialFile) (w : World) (slot : nat) :
  current_sector f = Some slot ->
  hd true (lseek_results w) = true ->
  hd true (submit_results w) = true ->
  write_current_sector f w
  = Done true
      (extend_valid_part
         (mkValidPart (get_offset f (sector_nbr (request_at f slot)))
            (Z.min (wrap32 (get_offset f (sector_nbr (request_at f slot)) + SECTOR_SIZE))
                   (total_size (state f)))) f)
      (mkWorld (sem_events w) (tl (lseek_results w)) (tl (submit_results w))
               (usb_log w ++ [request_at f slot])).
Proof.
  intros Hcs Hpoke Hsubmit.
  unfold write_current_sector, bind, gets, lseek_poke, usbh_msc_submit_request,
    modify, ret, id.
  rewrite Hcs, Hpoke. cbn. rewrite Hsubmit. reflexivity.
Qed.

(** [SectorPool::sync] with an admissible [avoid] always returns, and only
    completions touch the object while it waits. *)
Lemma SectorPool_sync_cases (size : nat) (avoid : Z) (f : PartialFile) (w : World) :
  avoid <= Z.of_nat size ->
  exists reached f' evs,
    SectorPool_sync size avoid f w = Done reached f' (with_sem_events evs w)
    /\ completions_only f f'.
Proof.
  intros Havoid. unfold SectorPool_sync.
  apply Z.ltb_ge in Havoid. rewrite Havoid.
  match goal with |- context [wait_until ?r ?e ?g] =>
    pose proof (wait_until_completions_only r e g) as Hc;
    destruct (wait_until r e g) as [[ok f1] evs]
  end.
  exists ok, f1, evs. split; [reflexivity | exact Hc].
Qed.

Lemma extend_valid_part_first_head (p : ValidPart) (f : PartialFile) (total : Z) :
  state f = mkState None None total ->
  start p = 0 -> 0 <= end_ p -> end_ p <> total ->
  state (extend_valid_part p f) = mkState (Some p) None total.
Proof.
  intros Hst Hp0 Hpos Hp1. unfold extend_valid_part. cbv zeta. rewrite Hst. cbn.
  assert (Hlt : (end_ p <? start p) = false) by (apply Z.ltb_ge; lia).
  apply Z.eqb_eq in Hp0. rewrite Hp0. cbn.
  apply Z.eqb_neq in Hp1. rewrite Hp1, Hlt.
  match goal with |- state (if ?c then _ else _) = _ => destruct c end; reflexivity.
Qed.

Lemma extend_valid_part_sector_pool (p : ValidPart) (f : PartialFile) :
  sector_pool (extend_valid_part p f) = sector_pool f.
Proof.
  unfold extend_valid_part. cbv zeta.
  match goal with |- sector_pool (if ?c then _ else _) = _ => destruct c end;
    reflexivity.
Qed.

(** C7.  On a fresh file of 2048 bytes at LBA 100, with at least two pool
    slots and a medium that accepts the poke and the request: after
    writing 100 bytes at offset 0 and calling [sync], exactly one request
    has been handed to the block layer, for LBA 100, holding the 100 bytes
    followed by 412 zeros; the current sector is still held (now the copy,
    in the second slot), refers to LBA 100 and holds the same content; and
    the head is [0, 512). *)
Theorem partial_sector_sync (size : nat) (w : World) (bytes : list byte) :
  (2 <= size)%nat ->
  length bytes = 100%nat ->
  hd true (lseek_results w) = true ->
  hd true (submit_results w) = true ->
  exists r f' w',
    run size [OpWrite bytes; OpSync] (scenario_file size) w = Done [true; r] f' w'
    /\ usb_log w' = usb_log w ++ [mkRequest 0 1 100 (bytes ++ repeat x00 412) 0]
    /\ current_sector f' = Some 1%nat
    /\ sector_nbr (request_at f' 1) = 100
    /\ data (request_at f' 1) = bytes ++ repeat x00 412
    /\ valid_head (state f') = Some (mkValidPart 0 512)
    /\ valid_tail (state f') = None.
Proof.
  intros Hsize Hlen Hpoke Hsubmit.
  enough (Hwp : wp False (run size [OpWrite bytes; OpSync])
                  (fun a f' w' => exists r, a = [true; r]
                     /\ usb_log w' = usb_log w ++ [mkRequest 0 1 100 (bytes ++ repeat x00 412) 0]
                     /\ current_sector f' = Some 1%nat
                     /\ sector_nbr (request_at f' 1) = 100
                     /\ data (request_at f' 1) = bytes ++ repeat x00 412
                     /\ valid_head (state f') = Some (mkValidPart 0 512)
                     /\ valid_tail (state f') = None)
                  (scenario_file size) w).
  { apply wp_total in Hwp. destruct Hwp as (a & f' & w' & Hrun & r & -> & Hrest).
    exists r, f', w'. split; [exact Hrun | exact Hrest]. }
  destruct size as [| [| n]]; [lia | lia |]. clear Hsize.
  cbn [run step].
  (* write: the first slot is taken and filled *)
  apply wp_bind. unfold write. apply wp_bind. apply wp_gets. cbn.
  rewrite Hlen.
  rewrite write_loop_unfold by (intros ->; discriminate).
  apply wp_bind. unfold wp at 1.
  rewrite open_sector_acquires by (unfold scenario_file; cbn; first [reflexivity | lia]).
  rewrite (SectorPool_acquire_free _ _ _ 0) by
    first [ lia | apply (initial_mask_free (S (S n)) 0 0); lia ].
  match goal with |- wp _ _ _ ?st _ => remember st as f2 eqn:Ef2 end.
  assert (Hoff : current_offset f2 = 0) by (subst f2; reflexivity).
  assert (Hst : state f2 = mkState None None 2048) by (subst f2; reflexivity).
  assert (Hfirst : first_sector_nbr f2 = 100) by (subst f2; reflexivity).
  assert (Hcur : current_sector f2 = Some 0%nat) by (subst f2; reflexivity).
  assert (Hreq0 : request_at f2 0
                  = mkRequest 0 1 100 (repeat x00 (Z.to_nat SECTOR_SIZE)) 0)
    by (subst f2; reflexivity).
  assert (Hpool : length (pool (sector_pool f2)) = S (S n)).
  { subst f2. cbn. rewrite ?length_alter, ?length_map, ?length_seq. reflexivity. }
  assert (Hbit0 : Z.testbit (slot_mask (sector_pool f2)) (Z.of_nat 0) = true).
  { subst f2. cbn [slot_mask sector_pool update_request with_pool with_current_sector].
    rewrite acquired_mask_testbit by lia. apply orb_true_r. }
  assert (Hbit1 : Z.testbit (slot_mask (sector_pool f2)) (Z.of_nat 1) = false).
  { subst f2. cbn [slot_mask sector_pool update_request with_pool with_current_sector].
    rewrite acquired_mask_testbit by lia.
    apply orb_false_intro; [| reflexivity].
    apply (initial_mask_free (S (S n)) 1 0); lia. }
  clear Ef2.
  apply wp_bind. apply wp_gets. cbv beta zeta. unfold id.
  rewrite Hoff, Hst, Hlen, Hreq0. unfold get_sector_nbr. rewrite Hfirst, Hst.
  cbn [total_size sector_nbr]. unfold FF_MAX_SS, SECTOR_SIZE. calc. cbn.
  apply wp_bind. apply wp_modify. apply wp_bind. apply wp_ret.
  apply wp_bind. eapply wp_eq.
  { eapply seek_same_sector; [exact Hcur |].
    rewrite request_at_update_request by lia. rewrite Hreq0.
    unfold get_sector_nbr. cbn. rewrite Hfirst, Hst. cbn.
    unfold FF_MAX_SS, SECTOR_SIZE. calc. reflexivity. }
  cbn.
  rewrite drop_ge by lia. rewrite write_loop_nil. apply wp_ret.
  match goal with |- wp _ _ _ ?st _ => remember st as f3 eqn:Ef3 end.
  assert (Hst3 : state f3 = mkState None None 2048) by (subst f3; exact Hst).
  assert (Hfirst3 : first_sector_nbr f3 = 100) by (subst f3; exact Hfirst).
  assert (Hcur3 : current_sector f3 = Some 0%nat) by (subst f3; exact Hcur).
  assert (Hreq3 : request_at f3 0 = mkRequest 0 1 100 (bytes ++ repeat x00 412) 0).
  { subst f3.
    change (request_at (with_current_offset 100 ?g) 0) with (request_at g 0).
    rewrite request_at_update_request by lia. rewrite Hreq0.
    unfold set_data. cbn [lun sector_count sector_nbr data callback_param2].
    rewrite (memcpy_into_zeros bytes 100 (Z.to_nat SECTOR_SIZE) Hlen)
      by (unfold SECTOR_SIZE; calc; lia).
    reflexivity. }
  assert (Hpool3 : length (pool (sector_pool f3)) = S (S n)).
  { subst f3. cbn. rewrite length_alter. exact Hpool. }
  assert (Hbit03 : Z.testbit (slot_mask (sector_pool f3)) (Z.of_nat 0) = true)
    by (subst f3; exact Hbit0).
  assert (Hbit13 : Z.testbit (slot_mask (sector_pool f3)) (Z.of_nat 1) = false)
    by (subst f3; exact Hbit1).
  clear Ef3 Hoff Hst Hfirst Hcur Hreq0 Hpool Hbit0 Hbit1 f2.
  (* sync: the second slot receives the copy, the first one is submitted *)
  do 2 apply wp_bind. unfold sync. apply wp_bind.
  unfold flush_current_sector. apply wp_bind. apply wp_gets. rewrite Hcur3.
  apply wp_bind. unfold wp at 1.
  rewrite (SectorPool_acquire_free _ _ _ 1); [| lia | lia | | exact Hbit13].
  2: { intros i Hi. replace i with 0%nat by lia. exact Hbit03. }
  apply wp_bind. apply wp_modify.
  match goal with |- wp _ _ _ ?st _ => remember st as f5 eqn:Ef5 end.
  assert (Hst5 : state f5 = mkState None None 2048) by (subst f5; exact Hst3).
  assert (Hfirst5 : first_sector_nbr f5 = 100) by (subst f5; exact Hfirst3).
  assert (Hcur5 : current_sector f5 = Some 0%nat) by (subst f5; exact Hcur3).
  assert (Hreq50 : request_at f5 0 = mkRequest 0 1 100 (bytes ++ repeat x00 412) 0).
  { subst f5. rewrite !request_at_update_request_ne by lia. exact Hreq3. }
  assert (Hreq51 : sector_nbr (request_at f5 1) = 100
                   /\ data (request_at f5 1) = bytes ++ repeat x00 412).
  { subst f5.
    rewrite request_at_update_request by (cbn; rewrite length_alter; lia).
    rewrite !request_at_update_request_ne by lia.
    change (request_at (with_pool (mkPool (pool (sector_pool f3)) ?m) f3) 0)
      with (request_at f3 0).
    rewrite Hreq3.
    rewrite request_at_update_request by (cbn; lia).
    unfold set_sector_nbr, set_data.
    cbn [lun sector_count sector_nbr data callback_param2].
    split; [reflexivity |].
    apply memcpy_whole.
    - rewrite length_app, Hlen, repeat_length. reflexivity.
    - apply repeat_length. }
  destruct Hreq51 as [Hnbr51 Hdata51].
  clear Ef5.
  (* the poke and the submission succeed: the head becomes [0, 512) *)
  apply wp_bind. eapply wp_eq.
  { apply (write_current_sector_ok f5 w 0 Hcur5 Hpoke Hsubmit). }
  rewrite Hreq50, Hst5. cbn [sector_nbr total_size].
  unfold get_offset. rewrite Hfirst5. unfold SECTOR_SIZE. calc.
  apply wp_bind. apply wp_modify. cbn [negb]. apply wp_ret.
  (* draining the pool only lets completions in *)
  apply wp_bind.
  match goal with |- wp _ _ _ ?st ?wd =>
    destruct (SectorPool_sync_cases (S (S n)) 1 st wd ltac:(lia))
      as (reached & f' & evs & Hdrain & Hc)
  end.
  eapply wp_eq; [exact Hdrain |].
  destruct Hc as (Hcpool & _ & Hccur & _ & Hcst & _).
  assert (Hfinal :
    usb_log (with_sem_events evs
               (mkWorld (sem_events w) (tl (lseek_results w)) (tl (submit_results w))
                        (usb_log w ++ [mkRequest 0 1 100 (bytes ++ repeat x00 412) 0])))
    = usb_log w ++ [mkRequest 0 1 100 (bytes ++ repeat x00 412) 0]
    /\ current_sector f' = Some 1%nat
    /\ sector_nbr (request_at f' 1) = 100
    /\ data (request_at f' 1) = bytes ++ repeat x00 412
    /\ valid_head (state f') = Some (mkValidPart 0 512)
    /\ valid_tail (state f') = None).
  { split; [reflexivity |]. split; [rewrite Hccur; reflexivity |].
    unfold request_at. rewrite Hcpool. cbn [sector_pool with_current_sector].
    rewrite extend_valid_part_sector_pool. fold (request_at f5 1).
    rewrite Hcst. cbn [state with_current_sector].
    rewrite (extend_valid_part_first_head _ f5 2048 Hst5) by (cbn; lia).
    auto. }
  destruct reached; cbn [negb].
  - apply wp_bind. apply wp_gets. apply wp_ret.
    apply wp_bind. apply wp_ret. apply wp_ret. apply wp_ret.
    eexists. split; [reflexivity | exact Hfinal].
  - apply wp_ret.
    apply wp_bind. apply wp_ret. apply wp_ret. apply wp_ret.
    eexists. split; [reflexivity | exact Hfinal].
Qed.

Lemma partial_sector_sync_witness :
  exists r f' w',
    run 4 [OpWrite (payload 100); OpSync] (scenario_file 4) quiet_world
      = Done [true; r] f' w'
    /\ usb_log w' = usb_log quiet_world
                    ++ [mkRequest 0 1 100 (payload 100 ++ repeat x00 412) 0]
    /\ current_sector f' = Some 1%nat
    /\ sector_nbr (request_at f' 1) = 100
    /\ data (request_at f' 1) = payload 100 ++ repeat x00 412
    /\ valid_head (state f') = Some (mkValidPart 0 512)
    /\ valid_tail (state f') = None.
Proof.
  apply (partial_sector_sync 4 quiet_world (payload 100)); [lia | | |]; reflexivity.
Defined.

(** ** What [sync] does *)

Lemma countr_one_from_bounds (m : Z) (n : nat) :
  forall (j : Z) (i : nat),
    Z.testbit m (j + Z.of_nat i) = false ->
    0 <= countr_one_from n j m <= Z.of_nat i.
Proof.
  induction n as [| n IH]; intros j i Hclear; cbn [countr_one_from]; [lia |].
  destruct (Z.testbit m j) eqn:Hj; [| lia].
  destruct i as [| i].
  - rewrite Z.add_0_r in Hclear. congruence.
  - specialize (IH (j + 1) i).
    replace (j + 1 + Z.of_nat i) with (j + Z.of_nat (S i)) in IH by lia.
    specialize (IH Hclear). lia.
Qed.

Lemma get_available_slot_lt (size : nat) (p : SectorPool) :
  is_available_slot size p = true -> (get_available_slot p < size)%nat.
Proof.
  unfold is_available_slot, get_available_slot, countr_one. intros H.
  apply existsb_exists in H. destruct H as (i & Hi & Hclear).
  apply in_seq in Hi. apply negb_true_iff in Hclear.
  pose proof (countr_one_from_bounds (slot_mask p) 32 0 i Hclear). lia.
Qed.

Lemma SectorPool_acquire_none (size : nat) (f f1 : PartialFile) (w w1 : World) :
  SectorPool_acquire size f w = Done None f1 w1 ->
  is_available_slot size (sector_pool f) = false.
Proof.
  unfold SectorPool_acquire.
  destruct (is_available_slot size (sector_pool f)) eqn:E; [| reflexivity].
  rewrite wait_until_ready by exact E. discriminate.
Qed.

(** [sync] always returns.  Without a current sector it submits nothing.
    With one, it either finds no spare slot and leaves everything as it
    is, or it copies the sector into the spare slot, keeps the copy as the
    current sector and, the poke permitting, hands the original to the
    block layer. *)
Lemma sync_spec (size : nat) (f : PartialFile) (w : World) :
  exists r f' w',
    sync size f w = Done r f' w'
    /\ (write_error f = true -> r = false /\ write_error f' = true)
    /\ match current_sector f with
       | None =>
           usb_log w' = usb_log w /\ current_sector f' = None
           /\ pool (sector_pool f') = pool (sector_pool f)
       | Some cur =>
           (is_available_slot size (sector_pool f) = false
            /\ current_sector f' = Some cur
            /\ pool (sector_pool f') = pool (sector_pool f)
            /\ usb_log w' = usb_log w)
           \/ (exists cp,
                (cp < size)%nat
                /\ current_sector f' = Some cp
                /\ pool (sector_pool f') = copied_pool cur cp (pool (sector_pool f))
                /\ ((hd true (lseek_results w) = true
                     /\ usb_log w' = usb_log w ++ [pool (sector_pool f') !!! cur])
                    \/ (hd true (lseek_results w) = false /\ usb_log w' = usb_log w)))
       end.
Proof.
  apply wp_total. unfold sync. apply wp_bind.
  unfold flush_current_sector. apply wp_bind. apply wp_gets.
  destruct (current_sector f) as [cur |] eqn:Hcs.
  - (* a sector is being filled *)
    apply wp_bind.
    destruct (SectorPool_acquire_cases size f w)
      as (f1 & evs & Hc1 & [Hacq | [Hav Hacq]]).
    + (* no spare slot *)
      eapply wp_eq; [exact Hacq |]. apply wp_ret. apply wp_ret.
      destruct Hc1 as (Hp1 & _ & Hcs1 & _ & _ & _ & He1).
      split; [auto |]. left.
      split; [eapply SectorPool_acquire_none; exact Hacq |].
      split; [congruence |]. split; [exact Hp1 | reflexivity].
    + eapply wp_eq; [exact Hacq |].
      pose proof (get_available_slot_lt _ _ Hav) as Hcp.
      set (cp := get_available_slot (sector_pool f1)) in *.
      apply wp_bind. apply wp_modify.
      destruct Hc1 as (Hp1 & _ & Hcs1 & _ & _ & _ & He1).
      match goal with |- wp _ _ _ ?st ?wd =>
        destruct (write_current_sector_frame st wd cur)
          as (status & f4 & w4 & Hflush & Hp4 & He4 & _ & _ & _ & _ & _ & Hlog4);
          [cbn; congruence |]
      end.
      apply wp_bind. eapply wp_eq; [exact Hflush |].
      apply wp_bind. apply wp_modify.
      assert (Hpool4 : pool (sector_pool f4) = copied_pool cur cp (pool (sector_pool f))).
      { rewrite Hp4. cbn. unfold copied_pool, request_at. cbn. rewrite Hp1. reflexivity. }
      assert (Hlog : (hd true (lseek_results w) = true
                      /\ usb_log w4 = usb_log w ++ [pool (sector_pool f4) !!! cur])
                     \/ (hd true (lseek_results w) = false /\ usb_log w4 = usb_log w)).
      { rewrite Hp4. exact Hlog4. }
      cbn in He4.
      destruct status; cbn [negb]; apply wp_ret.
      * (* drained with one slot kept *)
        apply wp_bind.
        match goal with |- wp _ _ _ ?st ?wd =>
          destruct (SectorPool_sync_cases size 1 st wd ltac:(lia))
            as (reached & f' & evs' & Hdrain & Hc)
        end.
        eapply wp_eq; [exact Hdrain |].
        destruct Hc as (Hcp' & _ & Hccs & _ & _ & _ & Hce). cbn in Hcp', Hccs, Hce.
        assert (Hshape :
          (exists cp0, (cp0 < size)%nat /\ current_sector f' = Some cp0
             /\ pool (sector_pool f') = copied_pool cur cp0 (pool (sector_pool f))
             /\ ((hd true (lseek_results w) = true
                  /\ usb_log (with_sem_events evs' w4)
                     = usb_log w ++ [pool (sector_pool f') !!! cur])
                 \/ (hd true (lseek_results w) = false
                     /\ usb_log (with_sem_events evs' w4) = usb_log w)))).
        { exists cp. rewrite Hcp'. auto. }
        destruct reached; cbn [negb].
        -- apply wp_bind. apply wp_gets. apply wp_ret.
           split; [| right; exact Hshape].
           intros Hwe. assert (write_error f' = true) by (apply Hce; rewrite He4; auto).
           split; [| assumption]. rewrite H. reflexivity.
        -- apply wp_ret. split; [| right; exact Hshape].
           intros Hwe. split; [reflexivity |]. apply Hce. rewrite He4. auto.
      * apply wp_ret. split.
        -- intros Hwe. split; [reflexivity |]. cbn. rewrite He4. auto.
        -- right. exists cp. cbn. auto.
  - (* no sector is being filled *)
    apply wp_ret. apply wp_bind.
    destruct (SectorPool_sync_cases size 0 f w ltac:(lia))
      as (reached & f' & evs' & Hdrain & Hc).
    eapply wp_eq; [exact Hdrain |].
    destruct Hc as (Hcp' & _ & Hccs & _ & _ & _ & Hce).
    destruct reached; cbn [negb].
    + apply wp_bind. apply wp_gets. apply wp_ret.
      split; [| split; [reflexivity | split; [congruence | exact Hcp']]].
      intros Hwe. rewrite (Hce Hwe). auto.
    + apply wp_ret.
      split; [| split; [reflexivity | split; [congruence | exact Hcp']]].
      intros Hwe. auto.
Qed.

(** ** Sticky failure *)

Lemma write_refused (size : nat) (bytes : list byte) (f : PartialFile) (w : World) :
  write_error f = true -> write size bytes f w = Done false f w.
Proof. intros H. unfold write, bind, gets, ret. rewrite H. reflexivity. Qed.

Lemma seek_total (offset : Z) (f : PartialFile) (w : World) :
  exists f', seek offset f w = Done true f' w /\ write_error f' = write_error f.
Proof.
  unfold seek, discard_current_sector, bind, gets, modify, ret, id.
  destruct (current_sector f) as [slot |] eqn:Hcs.
  - destruct (_ =? _).
    + eexists. split; reflexivity.
    + cbn. rewrite Hcs. eexists. split; reflexivity.
  - cbn. rewrite Hcs. eexists. split; reflexivity.
Qed.

Lemma run_cons (size : nat) (op : Op) (ops : list Op) (f f1 f2 : PartialFile)
    (w w1 w2 : World) (r : bool) (rs : list bool) :
  step size op f w = Done r f1 w1 ->
  run size ops f1 w1 = Done rs f2 w2 ->
  run size (op :: ops) f w = Done (r :: rs) f2 w2.
Proof.
  intros Hstep Hrun. cbn [run]. unfold bind, ret. rewrite Hstep, Hrun. reflexivity.
Qed.

(** C3 (as amended).  Once [write_error] is set it stays set, and from
    then on every operation returns: each [write] returns [false] at once,
    leaving the object and the block layer untouched, and each [sync]
    returns [false].  Only [sync] still reaches the block layer, with at
    most one request per call (the sector that is being filled). *)
Theorem write_error_sticky (size : nat) (ops : list Op) (f : PartialFile) (w : World) :
  write_error f = true ->
  (forall bytes, write size bytes f w = Done false f w)
  /\ exists rs f' w',
       run size ops f w = Done rs f' w'
       /\ refused ops rs
       /\ write_error f' = true
       /\ exists extra,
            usb_log w' = usb_log w ++ extra
            /\ (length extra <= sync_calls ops)%nat.
Proof.
  intros Hwe. split; [intros bytes; apply write_refused; exact Hwe |].
  revert f w Hwe. induction ops as [| op ops IH]; intros f w Hwe.
  - exists [], f, w. cbn. repeat split; auto.
    exists []. rewrite app_nil_r. split; [reflexivity | cbn; lia].
  - destruct op as [offset | bytes | | ok slot].
    + destruct (seek_total offset f w) as (f1 & Hseek & He1).
      destruct (IH f1 w ltac:(congruence)) as (rs & f' & w' & Hrun & Href & He' & Hlog).
      exists (true :: rs), f', w'.
      split; [eapply run_cons; [exact Hseek | exact Hrun] |].
      split; [cbn; auto |]. split; [exact He' | exact Hlog].
    + destruct (IH f w Hwe) as (rs & f' & w' & Hrun & Href & He' & Hlog).
      exists (false :: rs), f', w'.
      split; [eapply run_cons; [apply write_refused; exact Hwe | exact Hrun] |].
      split; [cbn; auto |]. split; [exact He' | exact Hlog].
    + destruct (sync_spec size f w) as (r & f1 & w1 & Hsync & Herr & Hshape).
      destruct (Herr Hwe) as [-> He1].
      destruct (IH f1 w1 He1) as (rs & f' & w' & Hrun & Href & He' & extra & Hlog & Hlen).
      exists (false :: rs), f', w'.
      split; [eapply run_cons; [exact Hsync | exact Hrun] |].
      split; [cbn; auto |]. split; [exact He' |].
      assert (Hone : exists e1, usb_log w1 = usb_log w ++ e1 /\ (length e1 <= 1)%nat).
      { destruct (current_sector f) as [cur |].
        - destruct Hshape as [(_ & _ & _ & Hl) | (cp & _ & _ & _ & [[_ Hl] | [_ Hl]])].
          + exists []. rewrite app_nil_r. split; [exact Hl | cbn; lia].
          + eexists. split; [exact Hl | cbn; lia].
          + exists []. rewrite app_nil_r. split; [exact Hl | cbn; lia].
        - destruct Hshape as (Hl & _). exists []. rewrite app_nil_r.
          split; [exact Hl | cbn; lia]. }
      destruct Hone as (e1 & Hl1 & Hlen1).
      exists (e1 ++ extra). rewrite Hlog, Hl1, <- app_assoc.
      split; [reflexivity |]. rewrite length_app. cbn [sync_calls]. lia.
    + set (f1 := usbh_msc_finished ok slot f).
      assert (He1 : write_error f1 = true).
      { destruct (usbh_msc_finished_completions_only ok slot f)
          as (_ & _ & _ & _ & _ & _ & He). exact (He Hwe). }
      destruct (IH f1 w He1) as (rs & f' & w' & Hrun & Href & He' & Hlog).
      exists (true :: rs), f', w'.
      split; [eapply run_cons; [reflexivity | exact Hrun] |].
      split; [cbn; auto |]. split; [exact He' | exact Hlog].
Qed.

Lemma write_error_sticky_witness :
  (forall bytes,
     write 4 bytes (with_write_error true (scenario_file 4)) quiet_world
     = Done false (with_write_error true (scenario_file 4)) quiet_world)
  /\ exists rs f' w',
       run 4 [OpWrite (payload 512); OpSync]
           (with_write_error true (scenario_file 4)) quiet_world = Done rs f' w'
       /\ refused [OpWrite (payload 512); OpSync] rs
       /\ write_error f' = true
       /\ exists extra,
            usb_log w' = usb_log quiet_world ++ extra
            /\ (length extra <= sync_calls [OpWrite (payload 512); OpSync])%nat.
Proof.
  apply (write_error_sticky 4 [OpWrite (payload 512); OpSync]
           (with_write_error true (scenario_file 4)) quiet_world).
  reflexivity.
Defined.

(** C3, the claim as stated fails: the first sector is submitted, 100 bytes
    of the second one are buffered, then the completion of the first
    reports a failure; the next [sync] still hands the buffered sector to
    the block layer. *)
Lemma sticky_failure_counterexample :
  exists rs f w r f' w',
    run 4 [OpWrite (payload 512); OpWrite (payload 100); OpFinished false 0]
        (scenario_file 4) quiet_world = Done rs f w
    /\ write_error f = true
    /\ sync 4 f w = Done r f' w'
    /\ map sector_nbr (usb_log w) = [100]
    /\ map sector_nbr (usb_log w') = [100; 101].
Proof.
  eexists. eexists. eexists. eexists. eexists. eexists.
  split; [vm_compute; reflexivity |].
  split; [reflexivity |].
  split; [vm_compute; reflexivity |].
  split; reflexivity.
Qed.

(** ** Repeated [sync] *)

Lemma alter_lookup_total_cases (g : UsbhMscRequest -> UsbhMscRequest)
    (l : list UsbhMscRequest) (i j : nat) :
  alter g i l !!! j = l !!! j
  \/ (i = j /\ alter g i l !!! j = g (l !!! j)).
Proof.
  revert i j. induction l as [| x l IH]; intros i j.
  - left. reflexivity.
  - destruct i as [| i]; destruct j as [| j]; cbn.
    + right. split; reflexivity.
    + left. reflexivity.
    + left. reflexivity.
    + destruct (IH i j) as [H | [-> H]]; [left; exact H | right].
      split; [reflexivity | exact H].
Qed.

Lemma lookup_total_alter_sector_nbr (g : UsbhMscRequest -> UsbhMscRequest)
    (l : list UsbhMscRequest) (i j : nat) :
  (forall r, sector_nbr (g r) = sector_nbr r) ->
  sector_nbr (alter g i l !!! j) = sector_nbr (l !!! j).
Proof.
  intros Hg.
  destruct (alter_lookup_total_cases g l i j) as [-> | [_ ->]]; [reflexivity | apply Hg].
Qed.

Lemma copied_pool_length (cur cp : nat) (l : list UsbhMscRequest) :
  length (copied_pool cur cp l) = length l.
Proof. unfold copied_pool. cbv zeta. rewrite !length_alter. reflexivity. Qed.

Lemma copied_pool_current (cur cp : nat) (l : list UsbhMscRequest) :
  sector_nbr (copied_pool cur cp l !!! cur) = sector_nbr (l !!! cur).
Proof.
  unfold copied_pool. cbv zeta.
  set (l1 := alter (set_data (repeat x00 (Z.to_nat SECTOR_SIZE))) cp l).
  assert (H1 : sector_nbr (l1 !!! cur) = sector_nbr (l !!! cur))
    by (apply lookup_total_alter_sector_nbr; reflexivity).
  match goal with |- sector_nbr (alter ?g cp l1 !!! cur) = _ =>
    destruct (alter_lookup_total_cases g l1 cp cur) as [-> | [_ ->]]
  end; exact H1.
Qed.

Lemma copied_pool_copy (cur cp : nat) (l : list UsbhMscRequest) :
  (cp < length l)%nat ->
  sector_nbr (copied_pool cur cp l !!! cp) = sector_nbr (l !!! cur).
Proof.
  intros Hlt. unfold copied_pool. cbv zeta.
  rewrite list_lookup_total_alter_eq by (rewrite length_alter; exact Hlt).
  cbn. apply lookup_total_alter_sector_nbr. reflexivity.
Qed.

(** C5 (as amended).  [sync] always returns.  When no sector is being
    filled it submits nothing and there is still none afterwards, so a
    second call submits nothing either.  When a sector is being filled,
    a sector for the same LBA is still being filled afterwards, and the
    call hands one more request for that LBA to the block layer whenever
    a slot is free and the poke succeeds: a second [sync] submits the
    sector again. *)
Theorem sync_resubmits_current_sector (size : nat) (f : PartialFile) (w : World) :
  length (pool (sector_pool f)) = size ->
  exists r f' w',
    sync size f w = Done r f' w'
    /\ length (pool (sector_pool f')) = size
    /\ match current_sector f with
       | None => usb_log w' = usb_log w /\ current_sector f' = None
       | Some cur =>
           (exists cur',
              current_sector f' = Some cur'
              /\ sector_nbr (request_at f' cur') = sector_nbr (request_at f cur))
           /\ (is_available_slot size (sector_pool f) = true ->
               hd true (lseek_results w) = true ->
               exists req,
                 usb_log w' = usb_log w ++ [req]
                 /\ sector_nbr req = sector_nbr (request_at f cur))
       end.
Proof.
  intros Hlen.
  destruct (sync_spec size f w) as (r & f' & w' & Hsync & _ & Hshape).
  exists r, f', w'. split; [exact Hsync |].
  destruct (current_sector f) as [cur |].
  - destruct Hshape as [(Hav & Hcs & Hpool & Hlog) | (cp & Hcp & Hcs & Hpool & Hlog)].
    + split; [rewrite Hpool; exact Hlen |]. split.
      * exists cur. split; [exact Hcs |]. unfold request_at. rewrite Hpool. reflexivity.
      * intros Hav'. congruence.
    + split; [rewrite Hpool, copied_pool_length; exact Hlen |]. split.
      * exists cp. split; [exact Hcs |]. unfold request_at. rewrite Hpool.
        apply copied_pool_copy. lia.
      * intros _ Hpoke. destruct Hlog as [[_ Hlog] | [Hno _]]; [| congruence].
        eexists. split; [exact Hlog |]. rewrite Hpool. apply copied_pool_current.
  - destruct Hshape as (Hlog & Hcs & Hpool).
    split; [rewrite Hpool; exact Hlen |]. split; assumption.
Qed.

Lemma sync_resubmits_current_sector_witness :
  exists f1 w1,
    run 4 [OpWrite (payload 100); OpSync] (scenario_file 4) quiet_world
      = Done [true; false] f1 w1
    /\ exists r f' w' cur' req,
         sync 4 f1 w1 = Done r f' w'
         /\ current_sector f' = Some cur'
         /\ sector_nbr (request_at f' cur') = 100
         /\ usb_log w' = usb_log w1 ++ [req]
         /\ sector_nbr req = 100.
Proof.
  eexists. eexists. split; [vm_compute; reflexivity |].
  match goal with |- exists r f' w' cur' req, sync 4 ?f ?w = _ /\ _ =>
    destruct (sync_resubmits_current_sector 4 f w eq_refl)
      as (r & f' & w' & Hsync & _ & (cur' & Hcur & Hnbr) & Hsubmit)
  end.
  destruct (Hsubmit eq_refl eq_refl) as (req & Hlog & Hreq).
  exists r, f', w', cur', req.
  split; [exact Hsync |]. split; [exact Hcur |]. split; [exact Hnbr |].
  split; [exact Hlog | exact Hreq].
Defined.

(** C5, the claim as stated fails: after 100 bytes have been written, a
    second [sync] hands LBA 100 to the block layer once more (and, here,
    returns another result than the first). *)
Lemma sync_twice_counterexample :
  exists f' w',
    run 4 [OpWrite (payload 100); OpSync; OpSync] (scenario_file 4) quiet_world
      = Done [true; false; true] f' w'
    /\ map sector_nbr (usb_log w') = [100; 100].
Proof.
  eexists. eexists.
  split; [vm_compute; reflexivity | reflexivity].
Qed.

(** ** The loop of [write] terminates *)

Lemma bind_ext {A B : Type} (m : M A) (k1 k2 : A -> M B) (f : PartialFile) (w : World) :
  (forall a f' w', k1 a f' w' = k2 a f' w') -> bind m k1 f w = bind m k2 f w.
Proof. intros H. unfold bind. destruct (m f w); [apply H | reflexivity]. Qed.

(** Any fuel that covers the bytes left gives the same run: the fuel is
    never what stops the loop. *)
Lemma write_loop_fuel (size : nat) (fuel1 : nat) :
  forall (fuel2 : nat) (bytes : list byte) (f : PartialFile) (w : World),
    (length bytes <= fuel1)%nat -> (length bytes <= fuel2)%nat ->
    write_loop size fuel1 bytes f w = write_loop size fuel2 bytes f w.
Proof.
  induction fuel1 as [| fuel1 IH]; intros fuel2 bytes f w H1 H2.
  - destruct bytes; [| cbn in H1; lia]. rewrite !write_loop_nil. reflexivity.
  - destruct bytes as [| b bytes]; [rewrite !write_loop_nil; reflexivity |].
    destruct fuel2 as [| fuel2]; [cbn in H2; lia |].
    rewrite !write_loop_unfold by discriminate.
    apply bind_ext. intros [slot |] f1 w1; [| reflexivity].
    apply bind_ext. intros f0 f2 w2. cbv zeta.
    apply bind_ext. intros _ f3 w3.
    destruct (_ <? _); [reflexivity |].
    apply bind_ext. intros _ f4 w4.
    apply bind_ext. intros sought f5 w5.
    destruct (negb sought); [reflexivity |].
    assert (Hpos : (1 <= Z.to_nat (Z.min (Z.of_nat (length (b :: bytes)))
                              (SECTOR_SIZE - current_offset f0 mod SECTOR_SIZE)))%nat).
    { pose proof (Z.mod_pos_bound (current_offset f0) SECTOR_SIZE ltac:(reflexivity)).
      cbn [length]. unfold SECTOR_SIZE in *. lia. }
    apply IH; rewrite length_skipn; lia.
Qed.

(** * Further properties of the writer *)

(** ** Offsets and LBAs *)

Lemma wrap32_sub_add (a b : Z) : wrap32 (wrap32 (a + b) - a) = wrap32 b.
Proof.
  unfold wrap32. rewrite Zminus_mod_idemp_l. f_equal. lia.
Qed.

Lemma wrap32_succ (a : Z) : wrap32 (wrap32 a + 1) = wrap32 (a + 1).
Proof. unfold wrap32. apply Zplus_mod_idemp_l. Qed.

(** Two sector indices that give the same LBA are the same index. *)
Lemma wrap32_add_cancel (a x y : Z) :
  0 <= x < 2 ^ 32 -> 0 <= y < 2 ^ 32 ->
  wrap32 (a + x) = wrap32 (a + y) -> x = y.
Proof.
  intros Hx Hy H.
  assert (Hxy : wrap32 (wrap32 (a + x) - a) = wrap32 (wrap32 (a + y) - a))
    by (rewrite H; reflexivity).
  rewrite !wrap32_sub_add in Hxy.
  rewrite !wrap32_small in Hxy by assumption. exact Hxy.
Qed.

Lemma sector_index_bounds (offset : Z) :
  0 <= offset < 2 ^ 32 ->
  0 <= offset / SECTOR_SIZE < 2 ^ 23
  /\ offset / SECTOR_SIZE * SECTOR_SIZE <= offset
  /\ offset < (offset / SECTOR_SIZE + 1) * SECTOR_SIZE.
Proof.
  intros Ho. unfold SECTOR_SIZE.
  pose proof (Z.div_mod offset 512 ltac:(lia)).
  pose proof (Z.mod_pos_bound offset 512 ltac:(lia)).
  split; [| lia].
  split; [apply Z.div_pos; lia |].
  apply Z.div_lt_upper_bound; lia.
Qed.

Lemma get_offset_of_lba (f : PartialFile) (offset : Z) :
  0 <= offset < total_size (state f) ->
  offset < 2 ^ 32 ->
  get_offset f (get_sector_nbr f offset) = offset / SECTOR_SIZE * SECTOR_SIZE.
Proof.
  intros Hin H32.
  destruct (sector_index_bounds offset ltac:(lia)) as (Hq & Hlo & Hhi).
  unfold get_offset, get_sector_nbr, FF_MAX_SS.
  destruct (Z.leb_spec (total_size (state f)) offset) as [Hge | _]; [lia |].
  rewrite wrap32_sub_add.
  rewrite (wrap32_small (offset / SECTOR_SIZE)) by lia.
  apply wrap32_small. unfold SECTOR_SIZE in *. lia.
Qed.

(** X1.  The byte offset recovered from the LBA of an offset inside the
    file is the start of the sector that holds the offset, wherever the
    file starts on the medium (also when the sector number wraps). *)
Theorem get_offset_get_sector_nbr (f : PartialFile) (offset : Z) :
  0 <= offset < total_size (state f) ->
  offset < 2 ^ 32 ->
  get_offset f (get_sector_nbr f offset) = offset / SECTOR_SIZE * SECTOR_SIZE
  /\ get_offset f (get_sector_nbr f offset) <= offset
     < get_offset f (get_sector_nbr f offset) + SECTOR_SIZE.
Proof.
  intros Hin H32.
  destruct (sector_index_bounds offset ltac:(lia)) as (Hq & Hlo & Hhi).
  rewrite (get_offset_of_lba f offset Hin H32).
  unfold SECTOR_SIZE in *. split; [reflexivity | lia].
Qed.

Lemma get_offset_get_sector_nbr_witness :
  get_offset (scenario_file 4) (get_sector_nbr (scenario_file 4) 1000)
    = 1000 / SECTOR_SIZE * SECTOR_SIZE
  /\ get_offset (scenario_file 4) (get_sector_nbr (scenario_file 4) 1000) <= 1000
     < get_offset (scenario_file 4) (get_sector_nbr (scenario_file 4) 1000) + SECTOR_SIZE.
Proof. apply (get_offset_get_sector_nbr (scenario_file 4) 1000); concrete. Defined.

Lemma get_sector_nbr_eq_iff (f : PartialFile) (o1 o2 : Z) :
  0 <= o1 < total_size (state f) ->
  0 <= o2 < 2 ^ 32 ->
  total_size (state f) <= 2 ^ 32 ->
  (get_sector_nbr f o1 = get_sector_nbr f o2
   <-> o2 < total_size (state f) /\ o1 / SECTOR_SIZE = o2 / SECTOR_SIZE).
Proof.
  intros H1 H2 Htot.
  destruct (sector_index_bounds o1 ltac:(lia)) as (Hq1 & Hlo1 & Hhi1).
  destruct (sector_index_bounds o2 ltac:(lia)) as (Hq2 & Hlo2 & Hhi2).
  unfold get_sector_nbr, FF_MAX_SS.
  destruct (Z.leb_spec (total_size (state f)) o1) as [Hge | _]; [lia |].
  destruct (Z.leb_spec (total_size (state f)) o2) as [Hge2 | Hlt2].
  - split; [| lia].
    intros H. rewrite wrap32_succ, <- Z.add_assoc in H.
    apply wrap32_add_cancel in H; [| lia | lia].
    exfalso.
    assert (o2 / SECTOR_SIZE < o1 / SECTOR_SIZE) by lia.
    assert (o1 / SECTOR_SIZE <= o2 / SECTOR_SIZE)
      by (apply Z.div_le_mono; unfold SECTOR_SIZE; lia).
    lia.
  - split.
    + intros H. apply wrap32_add_cancel in H; [| lia | lia]. split; [lia | exact H].
    + intros [_ ->]. reflexivity.
Qed.


(** X2.  Offsets inside the file share an LBA exactly when they lie in the
    same sector, and the LBA of an offset at or beyond the end of the file
    is the LBA of no offset inside it. *)
Theorem get_sector_nbr_separates (f : PartialFile) (o1 o2 : Z) :
  0 <= o1 < total_size (state f) ->
  0 <= o2 < 2 ^ 32 ->
  total_size (state f) <= 2 ^ 32 ->
  (get_sector_nbr f o1 = get_sector_nbr f o2
   <-> o2 < total_size (state f) /\ o1 / SECTOR_SIZE = o2 / SECTOR_SIZE).
Proof. apply get_sector_nbr_eq_iff. Qed.

Lemma get_sector_nbr_separates_witness :
  get_sector_nbr (scenario_file 4) 10 = get_sector_nbr (scenario_file 4) 500
  <-> 500 < total_size (state (scenario_file 4)) /\ 10 / SECTOR_SIZE = 500 / SECTOR_SIZE.
Proof. apply (get_sector_nbr_separates (scenario_file 4) 10 500); concrete. Defined.

(** ** Seeking *)

Lemma seek_other_sector (offset : Z) (f : PartialFile) (w : World) (s : nat) :
  current_sector f = Some s ->
  sector_nbr (request_at f s) <> get_sector_nbr f offset ->
  seek offset f w
  = Done true
      (with_current_sector None
         (with_pool (SectorPool_release (callback_param2 (request_at f s)) (sector_pool f))
                    (with_current_offset offset f))) w.
Proof.
  intros Hcs Hne. unfold seek, discard_current_sector, bind, gets, modify, ret, id.
  rewrite Hcs. apply Z.eqb_neq in Hne. rewrite Hne. cbn. rewrite Hcs. reflexivity.
Qed.

(** X3.  A seek that stays inside the sector being filled only moves the
    position: the buffer, its slot, the valid ranges and the block layer
    are left as they are. *)
Theorem seek_within_sector (offset : Z) (f : PartialFile) (w : World) (s : nat) :
  current_sector f = Some s ->
  sector_nbr (request_at f s) = get_sector_nbr f (current_offset f) ->
  0 <= current_offset f < total_size (state f) ->
  0 <= offset < total_size (state f) ->
  total_size (state f) <= 2 ^ 32 ->
  offset / SECTOR_SIZE = current_offset f / SECTOR_SIZE ->
  seek offset f w = Done true (with_current_offset offset f) w.
Proof.
  intros Hcs Hnbr Hoff Ho Htot Hsame.
  apply (seek_same_sector offset f w s Hcs).
  rewrite Hnbr.
  apply get_sector_nbr_eq_iff; [lia | lia | lia |].
  split; [lia | congruence].
Qed.

Lemma seek_within_sector_witness :
  seek 300
       (update_request (set_sector_nbr 100) 0
          (with_current_sector (Some 0%nat) (scenario_file 4))) quiet_world
  = Done true
      (with_current_offset 300
         (update_request (set_sector_nbr 100) 0
            (with_current_sector (Some 0%nat) (scenario_file 4)))) quiet_world.
Proof.
  apply (seek_within_sector 300
           (update_request (set_sector_nbr 100) 0
              (with_current_sector (Some 0%nat) (scenario_file 4))) quiet_world 0);
    concrete.
Defined.



(** ** Writing *)

Lemma open_sector_held (size : nat) (f : PartialFile) (w : World) (s : nat) :
  current_sector f = Some s -> open_sector size f w = Done (Some s) f w.
Proof.
  intros Hcs. unfold open_sector, bind, gets, ret, id. rewrite Hcs. reflexivity.
Qed.

Lemma request_at_update_sector_nbr (g : UsbhMscRequest -> UsbhMscRequest) (s s' : nat)
    (f : PartialFile) :
  (forall r, sector_nbr (g r) = sector_nbr r) ->
  sector_nbr (request_at (update_request g s f) s') = sector_nbr (request_at f s').
Proof.
  intros Hg. unfold request_at, update_request. cbn.
  apply lookup_total_alter_sector_nbr. exact Hg.
Qed.

Lemma same_sector_after (off len : Z) :
  0 <= off -> 0 <= len -> off mod SECTOR_SIZE + len < SECTOR_SIZE ->
  (off + len) / SECTOR_SIZE = off / SECTOR_SIZE.
Proof.
  unfold SECTOR_SIZE. intros Hoff Hlen Hfit.
  pose proof (Z.div_mod off 512 ltac:(lia)).
  pose proof (Z.mod_pos_bound off 512 ltac:(lia)).
  symmetry. apply (Z.div_unique (off + len) 512 (off / 512) (off mod 512 + len)); lia.
Qed.

(** One round of the loop of [write] when the bytes neither fill the
    sector nor reach the end of the file. *)
Lemma write_stays_in_sector (size : nat) (bytes : list byte) (f : PartialFile)
    (w : World) (s : nat) :
  write_error f = false ->
  current_sector f = Some s ->
  sector_nbr (request_at f s) = get_sector_nbr f (current_offset f) ->
  0 <= current_offset f ->
  current_offset f + Z.of_nat (length bytes) < total_size (state f) ->
  total_size (state f) <= 2 ^ 32 ->
  current_offset f mod SECTOR_SIZE + Z.of_nat (length bytes) < SECTOR_SIZE ->
  write size bytes f w
  = Done true
      (match bytes with
       | [] => f
       | _ :: _ =>
           with_current_offset (current_offset f + Z.of_nat (length bytes))
             (update_request
                (fun r => set_data (memcpy (data r)
                                      (Z.to_nat (current_offset f mod SECTOR_SIZE))
                                      bytes (length bytes)) r) s f)
       end) w.
Proof.
  intros Hwe Hcs Hnbr Hoff Hend Htot Hfit.
  unfold write, bind at 1, gets. rewrite Hwe.
  destruct bytes as [| b bytes']; [reflexivity |].
  set (bytes := b :: bytes') in *.
  assert (Hlen : (0 < length bytes)%nat) by (cbn; lia).
  change (length bytes) with (S (length bytes')) at 1.
  rewrite write_loop_unfold by discriminate.
  pose proof (Z.mod_pos_bound (current_offset f) SECTOR_SIZE ltac:(reflexivity)) as Hmod.
  assert (Hws : Z.min (Z.of_nat (length bytes))
                      (SECTOR_SIZE - current_offset f mod SECTOR_SIZE)
                = Z.of_nat (length bytes)) by lia.
  assert (Hnext : wrap32 (current_offset f + Z.of_nat (length bytes))
                  = current_offset f + Z.of_nat (length bytes))
    by (apply wrap32_small; lia).
  assert (Hlba : get_sector_nbr f (current_offset f + Z.of_nat (length bytes))
                 = get_sector_nbr f (current_offset f)).
  { symmetry. apply get_sector_nbr_eq_iff; [lia | lia | lia |].
    split; [lia |]. symmetry. apply same_sector_after; lia. }
  unfold bind at 1. rewrite (open_sector_held size f w s Hcs).
  unfold bind at 1, gets, id. cbv zeta.
  rewrite Hws, Hnext, Hlba, Hnbr, Z.eqb_refl. cbn [negb].
  unfold bind at 1, modify.
  assert (Hge : (total_size (state f) <? current_offset f + Z.of_nat (length bytes)) = false)
    by (apply Z.ltb_ge; lia).
  rewrite Hge.
  unfold bind at 1, ret.
  unfold bind at 1.
  erewrite seek_same_sector.
  2: { cbn. exact Hcs. }
  2: { rewrite request_at_update_sector_nbr by reflexivity. rewrite Hnbr, <- Hlba.
       unfold get_sector_nbr. reflexivity. }
  cbn [negb]. rewrite Nat2Z.id.
  rewrite skipn_all. rewrite write_loop_nil. reflexivity.
Qed.

(** X5.  A write that neither fills the sector being filled nor reaches the
    end of the file is only buffered: it returns [true], nothing is handed
    to the block layer, the valid ranges are unchanged, the bytes land in
    the buffer at the position inside the sector and the position
    advances by their number. *)
Theorem write_is_buffered (size : nat) (bytes : list byte) (f : PartialFile)
    (w : World) (s : nat) :
  write_error f = false ->
  current_sector f = Some s ->
  (s < length (pool (sector_pool f)))%nat ->
  sector_nbr (request_at f s) = get_sector_nbr f (current_offset f) ->
  0 <= current_offset f ->
  current_offset f + Z.of_nat (length bytes) < total_size (state f) ->
  total_size (state f) <= 2 ^ 32 ->
  current_offset f mod SECTOR_SIZE + Z.of_nat (length bytes) < SECTOR_SIZE ->
  bytes <> [] ->
  exists f',
    write size bytes f w = Done true f' w
    /\ current_sector f' = Some s
    /\ current_offset f' = current_offset f + Z.of_nat (length bytes)
    /\ state f' = state f
    /\ sector_nbr (request_at f' s) = sector_nbr (request_at f s)
    /\ data (request_at f' s)
       = memcpy (data (request_at f s)) (Z.to_nat (current_offset f mod SECTOR_SIZE))
                bytes (length bytes).
Proof.
  intros Hwe Hcs Hs Hnbr Hoff Hend Htot Hfit Hne.
  eexists. split.
  { apply (write_stays_in_sector size bytes f w s); assumption. }
  destruct bytes as [| b bytes']; [congruence |].
  repeat (split; [first [exact Hcs | reflexivity] |]).
  split.
  - change (request_at (with_current_offset ?o ?g) s) with (request_at g s).
    apply request_at_update_sector_nbr. reflexivity.
  - change (request_at (with_current_offset ?o ?g) s) with (request_at g s).
    rewrite request_at_update_request by exact Hs. reflexivity.
Qed.

Lemma write_is_buffered_witness :
  exists f',
    write 4 (payload 100)
          (update_request (set_sector_nbr 100) 0
             (with_current_sector (Some 0%nat) (scenario_file 4))) quiet_world
      = Done true f' quiet_world
    /\ current_sector f' = Some 0%nat
    /\ current_offset f' = 0 + Z.of_nat (length (payload 100))
    /\ state f' = state (scenario_file 4)
    /\ sector_nbr (request_at f' 0) = 100
    /\ data (request_at f' 0)
       = memcpy (repeat x00 (Z.to_nat SECTOR_SIZE)) (Z.to_nat (0 mod SECTOR_SIZE))
                (payload 100) (length (payload 100)).
Proof.
  apply (write_is_buffered 4 (payload 100)
           (update_request (set_sector_nbr 100) 0
              (with_current_sector (Some 0%nat) (scenario_file 4))) quiet_world 0);
    first [ concrete | vm_compute; lia | discriminate ].
Defined.

Lemma extend_valid_part_state_congr (p : ValidPart) (f g : PartialFile) :
  state f = state g ->
  state (extend_valid_part p f) = state (extend_valid_part p g).
Proof.
  intros H. unfold extend_valid_part. cbv zeta. rewrite H.
  repeat match goal with
         | |- context [state (if ?c then _ else _)] => destruct c
         end; reflexivity.
Qed.

Lemma next_sector_other_lba (f : PartialFile) (off : Z) :
  0 <= off -> off mod SECTOR_SIZE = 0 ->
  off + SECTOR_SIZE <= total_size (state f) -> total_size (state f) < 2 ^ 32 ->
  get_sector_nbr f (off + SECTOR_SIZE) <> get_sector_nbr f off.
Proof.
  intros Hoff Hal Hend Htot Heq.
  symmetry in Heq.
  apply get_sector_nbr_eq_iff in Heq; [| unfold SECTOR_SIZE in *; lia ..].
  destruct Heq as [_ Heq].
  unfold SECTOR_SIZE in *.
  replace (off + 512) with (off + 1 * 512) in Heq by lia.
  rewrite Z.div_add in Heq by lia. lia.
Qed.

Lemma wp_returns_with {A : Type} (m : M A) (v : A) (Q : PartialFile -> World -> Prop)
    (f : PartialFile) (w : World) :
  wp False m (fun a f' w' => a = v /\ Q f' w') f w ->
  exists f' w', m f w = Done v f' w' /\ Q f' w'.
Proof.
  intros H. apply wp_total in H. destruct H as (a & f' & w' & Hm & -> & HQ). eauto.
Qed.

(** X6.  Writing one whole sector at a sector boundary, with a free slot
    and a medium that accepts the poke and the request: the lowest free
    slot is taken, exactly one request goes to the block layer, carrying
    the LBA of the offset and the 512 bytes; the slot stays marked in use
    (the completion will release it), no sector is held afterwards, the
    position is at the next boundary and the valid ranges have been
    extended by that sector. *)
Theorem write_full_sector (size : nat) (bytes : list byte) (f : PartialFile)
    (w : World) (k : nat) :
  write_error f = false ->
  current_sector f = None ->
  0 <= current_offset f ->
  current_offset f mod SECTOR_SIZE = 0 ->
  current_offset f + SECTOR_SIZE <= total_size (state f) ->
  total_size (state f) < 2 ^ 32 ->
  (k < size)%nat -> (k < 32)%nat -> (k < length (pool (sector_pool f)))%nat ->
  (forall i, (i < k)%nat -> Z.testbit (slot_mask (sector_pool f)) (Z.of_nat i) = true) ->
  Z.testbit (slot_mask (sector_pool f)) (Z.of_nat k) = false ->
  hd true (lseek_results w) = true ->
  hd true (submit_results w) = true ->
  length bytes = Z.to_nat SECTOR_SIZE ->
  exists f' w',
    write size bytes f w = Done true f' w'
    /\ usb_log w'
       = usb_log w
         ++ [set_sector_nbr (get_sector_nbr f (current_offset f))
               (set_data bytes (request_at f k))]
    /\ current_sector f' = None
    /\ current_offset f' = current_offset f + SECTOR_SIZE
    /\ state f'
       = state (extend_valid_part
                  (mkValidPart (current_offset f) (current_offset f + SECTOR_SIZE)) f)
    /\ Z.testbit (slot_mask (sector_pool f')) (Z.of_nat k) = true.
Proof.
  intros Hwe Hcs Hoff Hal Hend Htot Hk H32 Hpool Hset Hclear Hpoke Hsubmit Hlen.
  apply wp_returns_with.
  unfold write. apply wp_bind. apply wp_gets. rewrite Hwe.
  rewrite Hlen. change (Z.to_nat SECTOR_SIZE) with (S 511) at 1.
  rewrite write_loop_unfold by (intros ->; discriminate).
  apply wp_bind. unfold wp at 1.
  rewrite open_sector_acquires by (try assumption; unfold SECTOR_SIZE in *; lia).
  rewrite (SectorPool_acquire_free size f w k Hk H32 Hset Hclear).
  match goal with |- wp _ _ _ ?st _ => remember st as f2 eqn:Ef2 end.
  assert (Hoff2 : current_offset f2 = current_offset f) by (subst f2; reflexivity).
  assert (Hst2 : state f2 = state f) by (subst f2; reflexivity).
  assert (Hfirst2 : first_sector_nbr f2 = first_sector_nbr f) by (subst f2; reflexivity).
  assert (Hcs2 : current_sector f2 = Some k) by (subst f2; reflexivity).
  assert (Hpool2 : (k < length (pool (sector_pool f2)))%nat).
  { subst f2. cbn. rewrite !length_alter. exact Hpool. }
  assert (Hreq2 : request_at f2 k
                  = set_sector_nbr (get_sector_nbr f (current_offset f))
                      (set_data (repeat x00 (Z.to_nat SECTOR_SIZE)) (request_at f k))).
  { subst f2. rewrite request_at_update_request by (cbn; rewrite length_alter; exact Hpool).
    change (request_at (with_current_sector ?c ?g) k) with (request_at g k).
    rewrite request_at_update_request by exact Hpool. reflexivity. }
  assert (Hbit2 : Z.testbit (slot_mask (sector_pool f2)) (Z.of_nat k) = true).
  { subst f2. cbn [slot_mask sector_pool update_request with_pool with_current_sector].
    rewrite acquired_mask_testbit by exact H32.
    rewrite Nat.eqb_refl. apply orb_true_r. }
  assert (Hlba2 : forall o, get_sector_nbr f2 o = get_sector_nbr f o).
  { intros o. unfold get_sector_nbr. rewrite Hfirst2, Hst2. reflexivity. }
  clear Ef2.
  apply wp_bind. apply wp_gets. cbv beta zeta. unfold id.
  rewrite Hoff2, Hst2, Hlen, Hreq2, Hlba2, Hal.
  cbn [sector_nbr set_sector_nbr].
  replace (Z.min (Z.of_nat (Z.to_nat SECTOR_SIZE)) (SECTOR_SIZE - 0)) with SECTOR_SIZE
    by (unfold SECTOR_SIZE; lia).
  rewrite (wrap32_small (current_offset f + SECTOR_SIZE)) by (unfold SECTOR_SIZE in *; lia).
  assert (Hge : (total_size (state f) <? current_offset f + SECTOR_SIZE) = false)
    by (apply Z.ltb_ge; lia).
  rewrite Hge.
  pose proof (next_sector_other_lba f (current_offset f) Hoff Hal Hend Htot) as Hne.
  apply Z.eqb_neq in Hne. rewrite Hne. cbn [negb].
  apply wp_bind. apply wp_modify.
  match goal with |- wp _ _ _ ?st _ => remember st as f3 eqn:Ef3 end.
  assert (Hoff3 : current_offset f3 = current_offset f) by (subst f3; exact Hoff2).
  assert (Hst3 : state f3 = state f) by (subst f3; exact Hst2).
  assert (Hfirst3 : first_sector_nbr f3 = first_sector_nbr f) by (subst f3; exact Hfirst2).
  assert (Hcs3 : current_sector f3 = Some k) by (subst f3; exact Hcs2).
  assert (Hbit3 : Z.testbit (slot_mask (sector_pool f3)) (Z.of_nat k) = true)
    by (subst f3; exact Hbit2).
  assert (Hreq3 : request_at f3 k
                  = set_sector_nbr (get_sector_nbr f (current_offset f))
                      (set_data bytes (request_at f k))).
  { subst f3. rewrite request_at_update_request by exact Hpool2.
    rewrite Hreq2. unfold set_data, set_sector_nbr.
    cbn [lun sector_count sector_nbr data callback_param2].
    change (Z.to_nat 0) with 0%nat.
    rewrite memcpy_whole; [reflexivity | exact Hlen | apply repeat_length]. }
  clear Ef3.
  apply wp_bind. apply wp_bind. eapply wp_eq.
  { apply (write_current_sector_ok f3 w k Hcs3 Hpoke Hsubmit). }
  rewrite Hreq3, Hst3. cbn [sector_nbr set_sector_nbr].
  assert (Hstart : get_offset f3 (get_sector_nbr f (current_offset f)) = current_offset f).
  { replace (get_offset f3) with (get_offset f)
      by (unfold get_offset; rewrite Hfirst3; reflexivity).
    rewrite get_offset_of_lba by (unfold SECTOR_SIZE in *; lia).
    pose proof (Z.div_mod (current_offset f) SECTOR_SIZE ltac:(discriminate)).
    lia. }
  rewrite Hstart.
  rewrite (wrap32_small (current_offset f + SECTOR_SIZE)) by (unfold SECTOR_SIZE in *; lia).
  rewrite Z.min_l by exact Hend.
  apply wp_modify.
  apply wp_bind. eapply wp_eq; [apply seek_no_sector; reflexivity |].
  cbn [negb].
  rewrite skipn_all2 by lia. rewrite write_loop_nil. apply wp_ret.
  split; [reflexivity |]. split; [reflexivity |]. split; [reflexivity |].
  split; [reflexivity |]. split.
  - cbn [state with_current_offset with_current_sector].
    apply extend_valid_part_state_congr. exact Hst3.
  - cbn [sector_pool with_current_offset with_current_sector].
    rewrite extend_valid_part_sector_pool. exact Hbit3.
Qed.

Lemma write_full_sector_witness :
  exists f' w',
    write 4 (payload 512) (scenario_file 4) quiet_world = Done true f' w'
    /\ usb_log w'
       = usb_log quiet_world
         ++ [set_sector_nbr (get_sector_nbr (scenario_file 4)
                               (current_offset (scenario_file 4)))
               (set_data (payload 512) (request_at (scenario_file 4) 0))]
    /\ current_sector f' = None
    /\ current_offset f' = current_offset (scenario_file 4) + SECTOR_SIZE
    /\ state f'
       = state (extend_valid_part
                  (mkValidPart (current_offset (scenario_file 4))
                               (current_offset (scenario_file 4) + SECTOR_SIZE))
                  (scenario_file 4))
    /\ Z.testbit (slot_mask (sector_pool f')) (Z.of_nat 0) = true.
Proof.
  apply (write_full_sector 4 (payload 512) (scenario_file 4) quiet_world 0);
    first [ concrete | lia | vm_compute; lia | intros i Hi; lia ].
Defined.

(** X7.  At or beyond the end of the file, with no sector being filled, a
    write of no bytes returns [true] and a write of any bytes returns
    [false]; either way the object and the block layer are untouched. *)
Theorem write_at_end (size : nat) (bytes : list byte) (f : PartialFile) (w : World) :
  write_error f = false ->
  current_sector f = None ->
  total_size (state f) <= current_offset f ->
  write size bytes f w = Done (match bytes with [] => true | _ :: _ => false end) f w.
Proof.
  intros Hwe Hcs Hend. unfold write, bind at 1, gets. rewrite Hwe.
  destruct bytes as [| b bytes]; [reflexivity |].
  change (length (b :: bytes)) with (S (length bytes)).
  rewrite write_loop_unfold by discriminate.
  unfold bind at 1. rewrite (open_sector_past_end size f w Hcs Hend). reflexivity.
Qed.

Lemma write_at_end_witness :
  write 4 (payload 10) (with_current_offset 2048 (scenario_file 4)) quiet_world
  = Done false (with_current_offset 2048 (scenario_file 4)) quiet_world.
Proof.
  apply (write_at_end 4 (payload 10) (with_current_offset 2048 (scenario_file 4))
           quiet_world); concrete.
Defined.



(** ** The shape of the valid ranges *)

Ltac split_ranges :=
  repeat match goal with
         | |- context [Z.leb ?a ?b] => destruct (Z.leb_spec a b); cbn [andb]
         | |- context [Z.ltb ?a ?b] => destruct (Z.ltb_spec a b)
         | |- context [Z.eqb ?a ?b] => destruct (Z.eqb_spec a b)
         end.

Ltac ranges_goal :=
  repeat match goal with
         | H : None = Some _ |- _ => discriminate H
         | H : Some _ = Some _ |- _ => injection H as <-
         | |- _ /\ _ => split
         | |- forall _, _ => intro
         end;
  cbn [start end_] in *;
  first [ lia | left; f_equal; lia | right; lia ].

Lemma extend_valid_part_ranges (p : ValidPart) (f : PartialFile) :
  RangesInv (state f) ->
  0 <= start p <= end_ p -> end_ p <= total_size (state f) ->
  RangesInv (state (extend_valid_part p f)).
Proof.
  intros Hinv Hp0 Hp1.
  unfold extend_valid_part. cbv zeta.
  match goal with |- context [state (if ?c then _ else _)] => destruct c end;
    cbn [state with_state with_last_progress_percent].
  all: destruct (state f) as [hd tl ts]; cbn [valid_head valid_tail total_size] in *.
  all: destruct Hinv as (Hh & Ht & Hsep); cbn [valid_head valid_tail total_size] in *.
  all: destruct p as [ps pe]; cbn [start end_] in *.
  all: destruct hd as [[hs he] |]; destruct tl as [[tls tle] |].
  all: try (specialize (Hh _ eq_refl)); try (specialize (Ht _ eq_refl));
       try (specialize (Hsep _ _ eq_refl eq_refl));
       cbn [start end_] in *.
  all: try (destruct Hsep as [Hsep | Hsep]; [injection Hsep as -> -> |]).
  all: unfold merge; cbn [start end_]; split_ranges; cbn [start end_].
  all: unfold RangesInv; cbn [valid_head valid_tail total_size].
  all: split_ranges; cbn [start end_].
  all: try solve [ranges_goal].
Qed.

(** ** The writer's invariant *)

Lemma extend_valid_part_keeps (p : ValidPart) (f : PartialFile) :
  sector_pool (extend_valid_part p f) = sector_pool f
  /\ current_sector (extend_valid_part p f) = current_sector f
  /\ current_offset (extend_valid_part p f) = current_offset f
  /\ first_sector_nbr (extend_valid_part p f) = first_sector_nbr f
  /\ total_size (state (extend_valid_part p f)) = total_size (state f).
Proof.
  unfold extend_valid_part. cbv zeta.
  match goal with |- context [sector_pool (if ?c then _ else _)] => destruct c end.
  all: cbn [sector_pool current_sector current_offset first_sector_nbr state
            with_state with_last_progress_percent].
  all: repeat split.
  all: repeat match goal with
              | |- context [match ?o with Some _ => _ | None => _ end] => destruct o
              | |- context [if ?c then _ else _] => destruct c
              end; reflexivity.
Qed.

Lemma get_sector_nbr_congr (f g : PartialFile) (o : Z) :
  first_sector_nbr g = first_sector_nbr f ->
  total_size (state g) = total_size (state f) ->
  get_sector_nbr g o = get_sector_nbr f o.
Proof. intros H1 H2. unfold get_sector_nbr. rewrite H1, H2. reflexivity. Qed.

(** Changes that leave the valid ranges and the start of the file alone
    keep the invariant when the new position and the new current sector
    fit together. *)
Lemma WriterInv_intro (size : nat) (f f' : PartialFile) :
  WriterInv size f ->
  length (pool (sector_pool f')) = length (pool (sector_pool f)) ->
  state f' = state f ->
  first_sector_nbr f' = first_sector_nbr f ->
  0 <= current_offset f' < 2 ^ 32 ->
  (forall s, current_sector f' = Some s ->
     current_offset f' < total_size (state f)
     /\ sector_nbr (request_at f' s) = get_sector_nbr f (current_offset f')) ->
  WriterInv size f'.
Proof.
  intros (Hlen & Htot & _ & _ & Hr) Hlen' Hst Hfirst Hoff Hcur.
  unfold WriterInv. rewrite Hst, Hlen'.
  split; [exact Hlen |]. split; [exact Htot |]. split; [exact Hoff |].
  split; [| exact Hr].
  intros s Hs. destruct (Hcur s Hs) as [Hin Hnbr]. split; [exact Hin |].
  rewrite Hnbr. symmetry. apply get_sector_nbr_congr; [exact Hfirst |].
  rewrite Hst. reflexivity.
Qed.

Lemma WriterInv_completions (size : nat) (f f1 : PartialFile) :
  completions_only f f1 -> WriterInv size f -> WriterInv size f1.
Proof.
  intros (Hp & Hfirst & Hcs & Hoff & Hst & _ & _) Hinv.
  apply (WriterInv_intro size f f1 Hinv).
  - rewrite Hp. reflexivity.
  - exact Hst.
  - exact Hfirst.
  - rewrite Hoff. apply Hinv.
  - intros s Hs. rewrite Hcs in Hs. unfold request_at. rewrite Hp, Hoff.
    apply Hinv. exact Hs.
Qed.

(** The part that [write_current_sector] reports for the sector being
    filled is that sector, cut at the end of the file. *)
Lemma current_part_bounds (size : nat) (f : PartialFile) (s : nat) :
  WriterInv size f -> current_sector f = Some s ->
  0 <= get_offset f (sector_nbr (request_at f s))
  /\ get_offset f (sector_nbr (request_at f s))
     <= Z.min (wrap32 (get_offset f (sector_nbr (request_at f s)) + SECTOR_SIZE))
              (total_size (state f))
  /\ Z.min (wrap32 (get_offset f (sector_nbr (request_at f s)) + SECTOR_SIZE))
           (total_size (state f))
     <= total_size (state f).
Proof.
  intros (_ & Htot & Hoff & Hcur & _) Hcs.
  destruct (Hcur s Hcs) as [Hin Hnbr].
  rewrite Hnbr, get_offset_of_lba by lia.
  destruct (sector_index_bounds (current_offset f) ltac:(lia)) as (Hq & Hlo & Hhi).
  unfold SECTOR_SIZE in *.
  rewrite wrap32_small by lia. lia.
Qed.

Lemma WriterInv_extend (size : nat) (f : PartialFile) (s : nat) :
  WriterInv size f -> current_sector f = Some s ->
  WriterInv size
    (extend_valid_part
       (mkValidPart (get_offset f (sector_nbr (request_at f s)))
          (Z.min (wrap32 (get_offset f (sector_nbr (request_at f s)) + SECTOR_SIZE))
                 (total_size (state f)))) f).
Proof.
  intros Hinv Hcs.
  pose proof (current_part_bounds size f s Hinv Hcs) as (Hb0 & Hb1 & Hb2).
  set (p := mkValidPart _ _).
  destruct (extend_valid_part_keeps p f) as (Hsp & Hcur & Hoff & Hfirst & Htot).
  destruct Hinv as (Hlen & Ht & Ho & Hc & Hr).
  unfold WriterInv. rewrite Hsp, Hcur, Hoff, Htot.
  split; [exact Hlen |]. split; [exact Ht |]. split; [exact Ho |]. split.
  - intros s' Hs'. unfold request_at. rewrite Hsp.
    rewrite (get_sector_nbr_congr f) by assumption.
    apply (Hc s' Hs').
  - apply extend_valid_part_ranges; [exact Hr | |]; subst p; cbn [start end_]; lia.
Qed.

Lemma write_current_sector_inv (size : nat) (f : PartialFile) (w : World) (s : nat) :
  WriterInv size f -> current_sector f = Some s ->
  exists r f' w',
    write_current_sector f w = Done r f' w'
    /\ WriterInv size f'
    /\ sector_pool f' = sector_pool f
    /\ current_sector f' = Some s
    /\ current_offset f' = current_offset f
    /\ first_sector_nbr f' = first_sector_nbr f
    /\ total_size (state f') = total_size (state f)
    /\ (usb_log w' = usb_log w \/ usb_log w' = usb_log w ++ [request_at f s]).
Proof.
  intros Hinv Hcs.
  unfold write_current_sector, bind, gets, lseek_poke, usbh_msc_submit_request,
    modify, ret, id.
  rewrite Hcs.
  destruct (hd true (lseek_results w));
    cbn [negb submit_results lseek_results sem_events usb_log].
  - destruct (hd true (submit_results w)); cbn [negb].
    + eexists _, _, _. split; [reflexivity |].
      split; [apply (WriterInv_extend size f s Hinv Hcs) |].
      match goal with |- context [extend_valid_part ?p f] =>
        destruct (extend_valid_part_keeps p f) as (Hsp & Hcur & Hoff & Hfirst & Htot)
      end.
      rewrite Hsp, Hcur, Hoff, Hfirst, Htot.
      repeat (split; [first [exact Hcs | reflexivity] |]). right. reflexivity.
    + eexists _, _, _. split; [reflexivity |].
      repeat (split; [first [exact Hinv | exact Hcs | reflexivity] |]).
      right. reflexivity.
  - eexists _, _, _. split; [reflexivity |].
    repeat (split; [first [exact Hinv | exact Hcs | reflexivity] |]).
    left. reflexivity.
Qed.

(** ** Safety of the writer *)

Lemma in_file_congr (f g : PartialFile) (r : UsbhMscRequest) :
  first_sector_nbr g = first_sector_nbr f ->
  total_size (state g) = total_size (state f) ->
  in_file g r -> in_file f r.
Proof.
  intros Hfirst Htot (o & Ho & Hnbr). exists o. split; [lia |].
  rewrite Hnbr. apply get_sector_nbr_congr; assumption.
Qed.

Lemma follows_intro (size : nat) (f f' : PartialFile) (w w' : World) :
  WriterInv size f' ->
  total_size (state f') = total_size (state f) ->
  first_sector_nbr f' = first_sector_nbr f ->
  usb_log w' = usb_log w ->
  follows size f w f' w'.
Proof.
  intros Hinv Htot Hfirst Hlog.
  split; [exact Hinv |]. split; [exact Htot |]. split; [exact Hfirst |].
  exists []. rewrite app_nil_r. split; [exact Hlog | constructor].
Qed.

Lemma follows_trans (size : nat) (f f1 f2 : PartialFile) (w w1 w2 : World) :
  follows size f w f1 w1 -> follows size f1 w1 f2 w2 -> follows size f w f2 w2.
Proof.
  intros (_ & Htot1 & Hfirst1 & x1 & Hlog1 & Hx1) (Hinv2 & Htot2 & Hfirst2 & x2 & Hlog2 & Hx2).
  split; [exact Hinv2 |]. split; [congruence |]. split; [congruence |].
  exists (x1 ++ x2). split; [rewrite Hlog2, Hlog1, app_assoc; reflexivity |].
  apply Forall_app. split; [exact Hx1 |].
  eapply Forall_impl; [exact Hx2 |].
  intros r. apply in_file_congr; assumption.
Qed.

(** The sector being filled is a sector of the file. *)
Lemma current_sector_in_file (size : nat) (f : PartialFile) (s : nat) :
  WriterInv size f -> current_sector f = Some s -> in_file f (request_at f s).
Proof.
  intros (_ & _ & Hoff & Hcur & _) Hcs. destruct (Hcur s Hcs) as [Hin Hnbr].
  exists (current_offset f). split; [lia | exact Hnbr].
Qed.

Lemma write_current_sector_follows (size : nat) (f : PartialFile) (w : World) (s : nat) :
  WriterInv size f -> current_sector f = Some s ->
  exists r f' w',
    write_current_sector f w = Done r f' w'
    /\ follows size f w f' w'
    /\ sector_pool f' = sector_pool f
    /\ current_sector f' = Some s
    /\ current_offset f' = current_offset f.
Proof.
  intros Hinv Hcs.
  destruct (write_current_sector_inv size f w s Hinv Hcs)
    as (r & f' & w' & Hw & Hinv' & Hp & Hcs' & Hoff & Hfirst & Htot & Hlog).
  exists r, f', w'. split; [exact Hw |]. split; [| auto].
  split; [exact Hinv' |]. split; [exact Htot |]. split; [exact Hfirst |].
  destruct Hlog as [Hlog | Hlog].
  - exists []. rewrite app_nil_r. split; [exact Hlog | constructor].
  - exists [request_at f s]. split; [exact Hlog |].
    constructor; [| constructor]. apply (current_sector_in_file size f s Hinv Hcs).
Qed.

Lemma seek_inv (size : nat) (offset : Z) (f : PartialFile) (w : World) :
  WriterInv size f -> 0 <= offset < 2 ^ 32 ->
  exists f',
    seek offset f w = Done true f' w
    /\ follows size f w f' w
    /\ current_offset f' = offset.
Proof.
  intros Hinv Ho.
  pose proof Hinv as (Hlen & Htot & Hoff & Hcur & Hr).
  destruct (current_sector f) as [s |] eqn:Hcs.
  - destruct (Hcur s eq_refl) as [Hin Hnbr].
    destruct (Z.eq_dec (sector_nbr (request_at f s)) (get_sector_nbr f offset)) as [He | Hne].
    + eexists. split; [apply (seek_same_sector offset f w s Hcs He) |].
      split; [| reflexivity].
      apply follows_intro; try reflexivity.
      assert (Hiff : offset < total_size (state f)).
      { rewrite Hnbr in He.
        apply get_sector_nbr_eq_iff in He; unfold SECTOR_SIZE in *; lia. }
      apply (WriterInv_intro size f _ Hinv); try reflexivity; [exact Ho |].
      intros s' Hs'. cbn in Hs'. rewrite Hcs in Hs'. injection Hs' as <-.
      split; [exact Hiff | exact He].
    + eexists. split; [apply (seek_other_sector offset f w s Hcs Hne) |].
      split; [| reflexivity].
      apply follows_intro; try reflexivity.
      apply (WriterInv_intro size f _ Hinv); try reflexivity; [exact Ho |].
      intros s' Hs'. discriminate Hs'.
  - eexists. split; [apply (seek_no_sector offset f w Hcs) |].
    split; [| reflexivity].
    apply follows_intro; try reflexivity.
    apply (WriterInv_intro size f _ Hinv); try reflexivity; [exact Ho |].
    intros s' Hs'. cbn in Hs'. congruence.
Qed.

(** The invariant after [acquire] has taken slot [cp] of [f]. *)
Lemma WriterInv_acquired (size : nat) (f : PartialFile) (cp : nat) (m : Z) :
  WriterInv size f ->
  WriterInv size
    (update_request (set_data (repeat x00 (Z.to_nat SECTOR_SIZE))) cp
       (with_pool (mkPool (pool (sector_pool f)) m) f)).
Proof.
  intros Hinv.
  apply (WriterInv_intro size f _ Hinv); try reflexivity.
  - cbn. apply length_alter.
  - apply Hinv.
  - intros s Hs. cbn in Hs.
    rewrite request_at_update_sector_nbr by reflexivity.
    apply Hinv. exact Hs.
Qed.

Lemma follows_completions (size : nat) (f f1 : PartialFile) (w w1 : World) :
  WriterInv size f -> completions_only f f1 -> usb_log w1 = usb_log w ->
  follows size f w f1 w1.
Proof.
  intros Hinv Hc Hlog.
  pose proof (WriterInv_completions size f f1 Hc Hinv) as Hinv1.
  destruct Hc as (_ & Hfirst & _ & _ & Hst & _).
  apply follows_intro; [exact Hinv1 | rewrite Hst; reflexivity | exact Hfirst | exact Hlog].
Qed.

Lemma open_sector_inv (size : nat) (ab : Prop) (f : PartialFile) (w : World) :
  WriterInv size f ->
  wp ab (open_sector size)
     (fun r f' w' =>
        follows size f w f' w'
        /\ current_offset f' = current_offset f
        /\ match r with Some s => current_sector f' = Some s | None => True end)
     f w.
Proof.
  intros Hinv.
  pose proof Hinv as (Hlen & Htot & Hoff & Hcur & Hr).
  destruct (current_sector f) as [s |] eqn:Hcs.
  - eapply wp_eq; [apply (open_sector_held size f w s Hcs) |].
    split; [apply follows_intro; auto | auto].
  - destruct (Z_le_gt_dec (total_size (state f)) (current_offset f)) as [Hend | Hin].
    + eapply wp_eq; [apply (open_sector_past_end size f w Hcs Hend) |].
      split; [apply follows_intro; auto | auto].
    + unfold wp. rewrite open_sector_acquires by (try assumption; lia).
      destruct (SectorPool_acquire_cases size f w)
        as (f1 & evs & Hc1 & [Hacq | [Hav Hacq]]); rewrite Hacq.
      * split; [apply (follows_completions size f f1 _ _ Hinv Hc1); reflexivity |].
        split; [| exact I]. apply Hc1.
      * pose proof (get_available_slot_lt _ _ Hav) as Hcp.
        set (cp := get_available_slot (sector_pool f1)) in *.
        pose proof (WriterInv_completions size f f1 Hc1 Hinv) as Hinv1.
        destruct Hc1 as (Hp1 & Hfirst1 & Hcs1 & Hoff1 & Hst1 & _).
        split; [| split; [cbn; exact Hoff1 | reflexivity]].
        apply follows_intro;
          [| cbn; rewrite Hst1; reflexivity | cbn; exact Hfirst1 | reflexivity].
        match goal with |- WriterInv size (update_request ?g cp (with_current_sector ?c ?h)) =>
          pose proof (WriterInv_acquired size f1 cp
                        (wrap32 (Z.lor (slot_mask (sector_pool f1))
                                       (Z.shiftl 1 (Z.of_nat cp)))) Hinv1) as Hinv2
        end.
        eapply (WriterInv_intro size _ _ Hinv2); try reflexivity.
        -- cbn. rewrite !length_alter. reflexivity.
        -- cbn. apply Hinv1.
        -- intros s Hs. cbn in Hs. injection Hs as <-.
           cbn [current_offset update_request with_pool with_current_sector state].
           rewrite Hoff1, Hst1. split; [lia |].
           rewrite request_at_update_request.
           2: { cbn. rewrite length_alter. destruct Hinv1 as (Hl1 & _). lia. }
           cbn [sector_nbr set_sector_nbr].
           apply get_sector_nbr_congr; cbn; [symmetry; exact Hfirst1 |].
           rewrite Hst1. reflexivity.
Qed.

(** In a file of whole sectors, the bytes that go into the sector of a
    position inside the file end inside the file. *)
Lemma write_size_fits (off total len : Z) :
  0 <= off < total -> total mod SECTOR_SIZE = 0 ->
  off + Z.min len (SECTOR_SIZE - off mod SECTOR_SIZE) <= total.
Proof.
  unfold SECTOR_SIZE. intros Hoff Hal.
  pose proof (Z.div_mod off 512 ltac:(lia)) as Ho.
  pose proof (Z.mod_pos_bound off 512 ltac:(lia)) as Hm.
  pose proof (Z.div_mod total 512 ltac:(lia)) as Ht.
  rewrite Hal in Ht.
  assert (off / 512 < total / 512) by lia.
  lia.
Qed.

Lemma WriterInv_buffer (size : nat) (f : PartialFile) (s : nat) (d : list byte -> list byte) :
  WriterInv size f ->
  WriterInv size (update_request (fun r => set_data (d (data r)) r) s f).
Proof.
  intros Hinv.
  apply (WriterInv_intro size f _ Hinv); try reflexivity.
  - cbn. apply length_alter.
  - apply Hinv.
  - intros s' Hs'. cbn in Hs'.
    rewrite request_at_update_sector_nbr by reflexivity.
    apply Hinv. exact Hs'.
Qed.

Lemma WriterInv_no_sector (size : nat) (f : PartialFile) :
  WriterInv size f -> WriterInv size (with_current_sector None f).
Proof.
  intros Hinv.
  apply (WriterInv_intro size f _ Hinv); try reflexivity.
  - apply Hinv.
  - intros s Hs. discriminate Hs.
Qed.

(** The loop of [write] keeps the invariant and stays inside the file;
    the only abort is the write beyond the end of a file whose size is not
    a whole number of sectors.  When it returns [true] the position has
    advanced by the number of bytes. *)
Lemma write_loop_inv (size : nat) (ab : Prop) (fuel : nat) :
  forall (bytes : list byte) (f : PartialFile) (w : World),
    WriterInv size f ->
    ab \/ total_size (state f) mod SECTOR_SIZE = 0 ->
    (length bytes <= fuel)%nat ->
    wp ab (write_loop size fuel bytes)
       (fun r f' w' =>
          follows size f w f' w'
          /\ (r = true ->
              current_offset f' = current_offset f + Z.of_nat (length bytes)))
       f w.
Proof.
  induction fuel as [| fuel IH]; intros bytes f w Hinv Hal Hlen.
  { destruct bytes; [| cbn in Hlen; lia]. apply wp_ret.
    split; [apply follows_intro; auto | cbn; lia]. }
  destruct bytes as [| b bytes'].
  { apply wp_ret. split; [apply follows_intro; auto | cbn; lia]. }
  set (bytes := b :: bytes') in *.
  assert (Hpos : 0 < Z.of_nat (length bytes)) by (cbn; lia).
  rewrite write_loop_unfold by discriminate.
  apply wp_bind.
  eapply wp_mono; [| apply (open_sector_inv size ab f w Hinv)].
  intros [s |] f1 w1 (Hfol1 & Hoff1 & Hcs1);
    [| apply wp_ret; split; [exact Hfol1 | discriminate]].
  pose proof Hfol1 as (Hinv1 & Htot1 & _).
  apply wp_bind, wp_gets. unfold id. cbv zeta.
  pose proof Hinv1 as (_ & Htot & Hoff & Hcur & _).
  destruct (Hcur s Hcs1) as [Hin Hnbr].
  pose proof (Z.mod_pos_bound (current_offset f1) SECTOR_SIZE ltac:(reflexivity)) as Hmod.
  set (ws := Z.min (Z.of_nat (length bytes))
                   (SECTOR_SIZE - current_offset f1 mod SECTOR_SIZE)) in *.
  assert (Hws : 1 <= ws <= SECTOR_SIZE) by (subst ws; lia).
  assert (Hwl : ws <= Z.of_nat (length bytes)) by (subst ws; lia).
  assert (Hnext : wrap32 (current_offset f1 + ws) = current_offset f1 + ws).
  { apply wrap32_small. unfold SECTOR_SIZE in *. lia. }
  rewrite Hnext.
  apply wp_bind, wp_modify.
  pose proof (WriterInv_buffer size f1 s
                (fun d => memcpy d (Z.to_nat (current_offset f1 mod SECTOR_SIZE))
                            bytes (Z.to_nat ws)) Hinv1) as Hinv2.
  cbv beta in Hinv2.
  match type of Hinv2 with WriterInv _ ?g => set (f2 := g) in * end.
  assert (Hcs2 : current_sector f2 = Some s) by exact Hcs1.
  assert (Hfol2 : follows size f1 w1 f2 w1) by (apply follows_intro; auto).
  destruct (total_size (state f1) <? current_offset f1 + ws) eqn:Hover.
  { unfold wp, fatal_error. destruct Hal as [Hab | Hal]; [exact Hab |].
    exfalso. apply Z.ltb_lt in Hover. rewrite <- Htot1 in Hal.
    pose proof (write_size_fits (current_offset f1) (total_size (state f1))
                  (Z.of_nat (length bytes)) ltac:(lia) Hal).
    subst ws. lia. }
  apply wp_bind.
  assert (Hflush :
    wp ab (if negb (get_sector_nbr f1 (current_offset f1 + ws)
                    =? sector_nbr (request_at f1 s))
           then write_current_sector;;; modify (with_current_sector None)
           else ret tt)
       (fun _ f' w' => follows size f2 w1 f' w') f2 w1).
  { destruct (negb _).
    - apply wp_bind.
      destruct (write_current_sector_follows size f2 w1 s Hinv2 Hcs2)
        as (r & f3 & w3 & Hw & (Hinv3 & Htot3 & Hfirst3 & Hlog3) & _).
      eapply wp_eq; [exact Hw |].
      apply wp_modify.
      split; [apply WriterInv_no_sector; exact Hinv3 |].
      split; [exact Htot3 |]. split; [exact Hfirst3 | exact Hlog3].
    - apply wp_ret. apply follows_intro; auto. }
  eapply wp_mono; [| exact Hflush].
  intros [] f4 w4 Hfol4. cbv beta in Hfol4.
  pose proof Hfol4 as (Hinv4 & _).
  apply wp_bind.
  destruct (seek_inv size (current_offset f1 + ws) f4 w4 Hinv4
              ltac:(unfold SECTOR_SIZE in *; lia)) as (f5 & Hseek & Hfol5 & Hoff5).
  eapply wp_eq; [exact Hseek |].
  cbn [negb].
  pose proof Hfol5 as (Hinv5 & _).
  assert (Hfol : follows size f w f5 w4).
  { eapply follows_trans; [exact Hfol1 |].
    eapply follows_trans; [exact Hfol2 |].
    eapply follows_trans; [exact Hfol4 | exact Hfol5]. }
  eapply wp_mono; [| apply (IH _ f5 w4 Hinv5)].
  - intros r f6 w6 (Hfol6 & Hpos6).
    split; [eapply follows_trans; [exact Hfol | exact Hfol6] |].
    intros Hr. rewrite (Hpos6 Hr), Hoff5, Hoff1, length_drop.
    subst bytes. cbn [length] in *. lia.
  - destruct Hal as [Hab | Hal]; [left; exact Hab | right].
    destruct Hfol as (_ & Ht & _). congruence.
  - rewrite length_drop. subst bytes. cbn [length] in *. lia.
Qed.

(** The copy that [sync] takes of the sector being filled carries its
    LBA. *)
Lemma WriterInv_copy (size : nat) (f : PartialFile) (cur cp : nat) :
  WriterInv size f -> current_sector f = Some cur -> (cp < size)%nat ->
  let f' := update_request
              (fun r => set_sector_nbr (sector_nbr (request_at f cur))
                          (set_data (memcpy (data r) 0 (data (request_at f cur))
                                            (Z.to_nat SECTOR_SIZE)) r)) cp f in
  WriterInv size f'
  /\ sector_nbr (request_at f' cp) = get_sector_nbr f (current_offset f).
Proof.
  intros Hinv Hcs Hcp f'.
  pose proof Hinv as (Hlen & _ & Hoff & Hcur & _).
  destruct (Hcur cur Hcs) as [Hin Hnbr].
  assert (Hcopy : sector_nbr (request_at f' cp) = get_sector_nbr f (current_offset f)).
  { subst f'. rewrite request_at_update_request by lia. cbn. exact Hnbr. }
  split; [| exact Hcopy].
  apply (WriterInv_intro size f f' Hinv); try reflexivity.
  - subst f'. cbn. apply length_alter.
  - exact Hoff.
  - intros s Hs. change (current_sector f = Some s) in Hs.
    assert (s = cur) by congruence. subst s.
    split; [exact Hin |].
    destruct (Nat.eq_dec cp cur) as [-> | Hne]; [exact Hcopy |].
    subst f'. rewrite request_at_update_request_ne by exact Hne. exact Hnbr.
Qed.

Lemma sync_inv (size : nat) (f : PartialFile) (w : World) :
  WriterInv size f ->
  wp False (sync size) (fun _ f' w' => follows size f w f' w') f w.
Proof.
  intros Hinv.
  unfold sync. apply wp_bind.
  unfold flush_current_sector. apply wp_bind. apply wp_gets.
  destruct (current_sector f) as [cur |] eqn:Hcs.
  - apply wp_bind.
    destruct (SectorPool_acquire_cases size f w)
      as (f1 & evs & Hc1 & [Hacq | [Hav Hacq]]).
    + eapply wp_eq; [exact Hacq |]. apply wp_ret. apply wp_ret.
      apply (follows_completions size f f1 _ _ Hinv Hc1). reflexivity.
    + eapply wp_eq; [exact Hacq |].
      pose proof (get_available_slot_lt _ _ Hav) as Hcp.
      set (cp := get_available_slot (sector_pool f1)) in *.
      pose proof (WriterInv_completions size f f1 Hc1 Hinv) as Hinv1.
      pose proof (WriterInv_acquired size f1 cp
                    (wrap32 (Z.lor (slot_mask (sector_pool f1))
                                   (Z.shiftl 1 (Z.of_nat cp)))) Hinv1) as Hinv2.
      destruct Hc1 as (_ & Hfirst1 & Hcs1 & _ & Hst1 & _).
      match type of Hinv2 with WriterInv _ ?g => set (f2 := g) in * end.
      assert (Hcs2 : current_sector f2 = Some cur) by (cbn; congruence).
      apply wp_bind. apply wp_modify.
      destruct (WriterInv_copy size f2 cur cp Hinv2 Hcs2 Hcp) as [Hinv3 Hnbr3].
      cbv zeta in Hinv3, Hnbr3.
      match type of Hinv3 with WriterInv _ ?g => set (f3 := g) in * end.
      assert (Hcs3 : current_sector f3 = Some cur) by exact Hcs2.
      assert (Hfol3 : follows size f w f3 (with_sem_events evs w)).
      { apply follows_intro; [exact Hinv3 | | | reflexivity].
        - cbn. rewrite Hst1. reflexivity.
        - cbn. exact Hfirst1. }
      destruct (write_current_sector_follows size f3 (with_sem_events evs w) cur Hinv3 Hcs3)
        as (status & f4 & w4 & Hflush & Hfol4 & Hp4 & Hcs4 & Hoff4).
      apply wp_bind. eapply wp_eq; [exact Hflush |].
      apply wp_bind. apply wp_modify.
      pose proof Hfol4 as (Hinv4 & Htot4 & Hfirst4 & Hlog4).
      assert (Hinv5 : WriterInv size (with_current_sector (Some cp) f4)).
      { apply (WriterInv_intro size f4 _ Hinv4); try reflexivity; [apply Hinv4 |].
        intros s Hs. cbn in Hs. injection Hs as <-.
        cbn [current_offset with_current_sector].
        destruct Hinv4 as (_ & _ & _ & Hcur4 & _).
        destruct (Hcur4 cur Hcs4) as [Hin4 _].
        split; [exact Hin4 |].
        change (request_at (with_current_sector (Some cp) f4) cp) with (request_at f4 cp).
        unfold request_at. rewrite Hp4. fold (request_at f3 cp).
        rewrite Hnbr3, Hoff4.
        change (current_offset f3) with (current_offset f2).
        symmetry. apply get_sector_nbr_congr; [exact Hfirst4 |].
        rewrite Htot4. reflexivity. }
      assert (Hfol5 : follows size f w (with_current_sector (Some cp) f4) w4).
      { eapply follows_trans; [exact Hfol3 |].
        split; [exact Hinv5 |]. split; [exact Htot4 |]. split; [exact Hfirst4 | exact Hlog4]. }
      destruct status; cbn [negb]; apply wp_ret; [| exact Hfol5].
      apply wp_bind.
      match goal with |- wp _ _ _ ?st ?wd =>
        destruct (SectorPool_sync_cases size 1 st wd ltac:(lia))
          as (reached & f' & evs' & Hdrain & Hc)
      end.
      eapply wp_eq; [exact Hdrain |].
      assert (Hfol6 : follows size f w f' (with_sem_events evs' w4)).
      { eapply follows_trans; [exact Hfol5 |].
        apply (follows_completions size _ f' _ _ Hinv5 Hc). reflexivity. }
      destruct reached; cbn [negb].
      * apply wp_bind. apply wp_gets. apply wp_ret. exact Hfol6.
      * apply wp_ret. exact Hfol6.
  - apply wp_ret. apply wp_bind.
    destruct (SectorPool_sync_cases size 0 f w ltac:(lia))
      as (reached & f' & evs' & Hdrain & Hc).
    eapply wp_eq; [exact Hdrain |].
    assert (Hfol : follows size f w f' (with_sem_events evs' w))
      by (apply (follows_completions size f f' _ _ Hinv Hc); reflexivity).
    destruct reached; cbn [negb].
    + apply wp_bind. apply wp_gets. apply wp_ret. exact Hfol.
    + apply wp_ret. exact Hfol.
Qed.

Lemma wp_weaken {A : Type} (ab : Prop) (m : M A)
    (Q : A -> PartialFile -> World -> Prop) (f : PartialFile) (w : World) :
  wp False m Q f w -> wp ab m Q f w.
Proof. unfold wp. destruct (m f w); tauto. Qed.

Lemma step_inv (size : nat) (ab : Prop) (op : Op) (f : PartialFile) (w : World) :
  WriterInv size f ->
  ab \/ total_size (state f) mod SECTOR_SIZE = 0 ->
  seeks_in_range [op] ->
  wp ab (step size op) (fun _ f' w' => follows size f w f' w') f w.
Proof.
  intros Hinv Hal Hop.
  destruct op as [offset | bytes | | ok slot]; cbn [step].
  - destruct Hop as [Ho _].
    destruct (seek_inv size offset f w Hinv Ho) as (f' & Hseek & Hfol & _).
    eapply wp_eq; [exact Hseek | exact Hfol].
  - unfold write. apply wp_bind, wp_gets.
    destruct (write_error f); [apply wp_ret; apply follows_intro; auto |].
    eapply wp_mono; [| apply write_loop_inv; [exact Hinv | exact Hal | lia]].
    intros r f' w' [Hfol _]. exact Hfol.
  - apply wp_weaken, sync_inv. exact Hinv.
  - apply wp_bind, wp_modify, wp_ret.
    apply (follows_completions size f _ _ _ Hinv
             (usbh_msc_finished_completions_only ok slot f)).
    reflexivity.
Qed.

Lemma run_inv (size : nat) (ab : Prop) (ops : list Op) :
  forall (f : PartialFile) (w : World),
    WriterInv size f ->
    ab \/ total_size (state f) mod SECTOR_SIZE = 0 ->
    seeks_in_range ops ->
    wp ab (run size ops)
       (fun rs f' w' => follows size f w f' w' /\ length rs = length ops) f w.
Proof.
  induction ops as [| op ops IH]; intros f w Hinv Hal Hops; cbn [run].
  - apply wp_ret. split; [apply follows_intro; auto | reflexivity].
  - assert (Hop : seeks_in_range [op] /\ seeks_in_range ops).
    { destruct op; cbn in Hops |- *; tauto. }
    destruct Hop as [Hop Hrest].
    apply wp_bind.
    eapply wp_mono; [| apply (step_inv size ab op f w Hinv Hal Hop)].
    intros r f1 w1 Hfol1. cbv beta in Hfol1. pose proof Hfol1 as (Hinv1 & Htot1 & _).
    apply wp_bind.
    eapply wp_mono; [| apply (IH f1 w1 Hinv1)]; [| | exact Hrest].
    + intros rs f2 w2 (Hfol2 & Hlen). apply wp_ret.
      split; [exact (follows_trans size f f1 f2 w w1 w2 Hfol1 Hfol2) |].
      cbn [length]. rewrite Hlen. reflexivity.
    + destruct Hal as [Hab | Hal]; [left; exact Hab | right]. congruence.
Qed.

Lemma PartialFile_new_inv (size : nat) (lun_ first_sector total fd : Z) :
  0 <= total <= 2 ^ 32 - SECTOR_SIZE ->
  WriterInv size (PartialFile_new size lun_ first_sector (mkState None None total) fd).
Proof.
  intros Htot. unfold WriterInv, PartialFile_new, SectorPool_new. cbn.
  split; [rewrite length_map, length_seq; reflexivity |].
  split; [exact Htot |]. split; [lia |].
  split; [intros s Hs; discriminate Hs |].
  unfold RangesInv. cbn. repeat split; intros; discriminate.
Qed.

(** ** Writes at the end of the file *)

(** C6 (as amended).  On a fresh file of 2048 bytes, a single write of 513
    bytes starting at offset 1536 returns [false], a soft error, whatever
    the pool size and the environment: after the last sector has been
    filled (when a slot could be had) the byte that is left finds the
    writer at the end of the file.  The process is not aborted.  And the
    fatal abort needs a file whose size is not a multiple of the sector
    size: when it is a multiple, no sequence of [seek] (to offsets that
    are words), [write], [sync] and completions aborts, from a newly
    constructed writer or from any other state in which the writer's
    invariant holds (the position and the sector being filled fit
    together), whatever the pool size and the environment. *)
Theorem write_past_end_is_soft (size : nat) :
  (forall (w : World) (bytes : list byte),
      length bytes = 513%nat ->
      exists f' w',
        run size [OpSeek 1536; OpWrite bytes] (scenario_file size) w
        = Done [true; false] f' w')
  /\ (forall (lun_ first_sector total fd : Z),
        0 <= total < 2 ^ 32 ->
        total mod SECTOR_SIZE = 0 ->
        WriterInv size (PartialFile_new size lun_ first_sector (mkState None None total) fd))
  /\ (forall (ops : list Op) (f : PartialFile) (w : World),
        WriterInv size f ->
        seeks_in_range ops ->
        total_size (state f) mod SECTOR_SIZE = 0 ->
        exists rs f' w',
          run size ops f w = Done rs f' w'
          /\ length rs = length ops
          /\ WriterInv size f').
Proof.
  split; [| split].
  - intros w bytes Hlen. apply wp_returns.
    cbn [run step].
    apply wp_bind. eapply wp_eq; [apply seek_no_sector; reflexivity |].
    do 2 apply wp_bind.
    unfold write. apply wp_bind. apply wp_gets. cbn.
    rewrite Hlen.
    rewrite write_loop_unfold by (intros ->; discriminate).
    apply wp_bind. unfold wp at 1.
    rewrite open_sector_acquires by (unfold scenario_file; cbn; first [reflexivity | lia]).
    destruct size as [| n].
    + (* no slot at all: the acquisition times out *)
      destruct (SectorPool_acquire_cases 0 (with_current_offset 1536 (scenario_file 0)) w)
        as (f1 & evs & _ & [-> | [Hav _]]).
      * apply wp_ret. apply wp_bind. apply wp_ret. apply wp_ret. reflexivity.
      * apply is_available_slot_size in Hav. lia.
    + rewrite (SectorPool_acquire_free _ _ _ 0) by
        first [ lia | apply (initial_mask_free (S n) 0 0); lia ].
      match goal with |- wp _ _ _ ?st _ => remember st as f2 eqn:Ef2 end.
      assert (Hoff : current_offset f2 = 1536) by (subst f2; reflexivity).
      assert (Htot : total_size (state f2) = 2048) by (subst f2; reflexivity).
      assert (Hfirst : first_sector_nbr f2 = 100) by (subst f2; reflexivity).
      assert (Hcur : current_sector f2 = Some 0%nat) by (subst f2; reflexivity).
      assert (Hnbr : sector_nbr (request_at f2 0) = 103) by (subst f2; reflexivity).
      clear Ef2.
      apply wp_bind. apply wp_gets. cbv beta zeta. unfold id.
      rewrite Hoff, Htot, Hlen, Hnbr.
      unfold get_sector_nbr. rewrite Hfirst, Htot.
      unfold FF_MAX_SS, SECTOR_SIZE. calc. cbn.
      apply wp_bind. apply wp_modify.
      apply wp_bind. apply wp_bind.
      match goal with |- wp _ _ _ ?st _ =>
        destruct (write_current_sector_frame st w 0 Hcur)
          as (r & f4 & w4 & Hflush & _ & _ & _ & _ & Hoff4 & Htot4 & _)
      end.
      eapply wp_eq; [exact Hflush |]. apply wp_modify.
      apply wp_bind. eapply wp_eq; [apply seek_no_sector; reflexivity |]. cbn.
      (* the byte that is left finds the writer at the end of the file *)
      rewrite write_loop_unfold.
      2: { intros H. apply (f_equal length) in H. rewrite length_drop, Hlen in H.
           discriminate H. }
      apply wp_bind. eapply wp_eq.
      { apply open_sector_past_end; [reflexivity |]. cbn in Htot4 |- *.
        rewrite Htot4, Htot. reflexivity. }
      apply wp_ret. apply wp_bind. apply wp_ret. apply wp_ret. reflexivity.
  - intros lun_ first_sector total fd Htot Hal.
    apply PartialFile_new_inv.
    unfold SECTOR_SIZE in *.
    pose proof (Z.div_mod total 512 ltac:(lia)) as Hdiv. rewrite Hal in Hdiv. lia.
  - intros ops f w Hinv Hops Hal.
    destruct (wp_total _ _ _ _ (run_inv size False ops f w Hinv (or_intror Hal) Hops))
      as (rs & f' & w' & Hrun & (Hinv' & _) & Hlen).
    exists rs, f', w'. auto.
Qed.

Lemma write_past_end_is_soft_witness :
  (exists f' w',
     run 4 [OpSeek 1536; OpWrite (payload 513)] (scenario_file 4) quiet_world
     = Done [true; false] f' w')
  /\ (exists rs f' w',
        run 2 [OpWrite (payload 700); OpSync; OpFinished false 0; OpSeek 4000;
               OpWrite (payload 3); OpSeek 2047; OpWrite (payload 2); OpSync]
            (PartialFile_new 2 0 100 (mkState None None 2048) 3)
            (mkWorld [pdFAIL] [false] [] []) = Done rs f' w'
        /\ length rs = 8%nat
        /\ WriterInv 2 f').
Proof.
  split.
  - apply (proj1 (write_past_end_is_soft 4) quiet_world (payload 513)). reflexivity.
  - apply (proj2 (proj2 (write_past_end_is_soft 2))
             [OpWrite (payload 700); OpSync; OpFinished false 0; OpSeek 4000;
              OpWrite (payload 3); OpSeek 2047; OpWrite (payload 2); OpSync]
             (PartialFile_new 2 0 100 (mkState None None 2048) 3)
             (mkWorld [pdFAIL] [false] [] [])).
    + apply (proj1 (proj2 (write_past_end_is_soft 2)) 0 100 2048 3); concrete.
    + cbn. lia.
    + reflexivity.
Defined.

(** C6, the claim as stated fails: the write of 513 bytes at offset 1536
    of a file of 2048 bytes does not abort the process. *)
Lemma write_past_end_counterexample :
  ~ exists tag,
      run 4 [OpSeek 1536; OpWrite (payload 513)] (scenario_file 4) quiet_world
      = Abort tag.
Proof. intros [tag H]. vm_compute in H. discriminate H. Qed.

(** ** Along every sequence of operations *)



(** X10.  The writer never reaches beyond its file: over every sequence of
    operations that returns, the requests handed to the block layer are
    added at the end of what was handed before, and each of them is for
    the sector of an offset inside the file. *)
Theorem requests_stay_in_file (size : nat) (ops : list Op)
    (f f' : PartialFile) (w w' : World) (rs : list bool) :
  WriterInv size f ->
  seeks_in_range ops ->
  run size ops f w = Done rs f' w' ->
  exists extra,
    usb_log w' = usb_log w ++ extra
    /\ Forall (fun r => exists offset,
                 0 <= offset < total_size (state f)
                 /\ sector_nbr r = get_sector_nbr f offset) extra.
Proof.
  intros Hinv Hops Hrun.
  pose proof (run_inv size True ops f w Hinv (or_introl I) Hops) as Hwp.
  apply (wp_done _ _ _ _ _ _ _ _ Hrun) in Hwp.
  destruct Hwp as ((_ & _ & _ & Hlog) & _). exact Hlog.
Qed.

Lemma requests_stay_in_file_witness :
  exists rs f' w' extra,
    run 4 [OpSeek 1536; OpWrite (payload 500); OpSeek 0; OpWrite (payload 600); OpSync]
        (with_state (mkState None None 2036) (scenario_file 4)) quiet_world
      = Done rs f' w'
    /\ usb_log w' = usb_log quiet_world ++ extra
    /\ Forall (fun r => exists offset,
                 0 <= offset < 2036
                 /\ sector_nbr r
                    = get_sector_nbr (with_state (mkState None None 2036) (scenario_file 4))
                                     offset) extra.
Proof.
  assert (Hinv : WriterInv 4 (with_state (mkState None None 2036) (scenario_file 4))).
  { apply (PartialFile_new_inv 4 0 100 2036 3). concrete. }
  assert (Hops : seeks_in_range [OpSeek 1536; OpWrite (payload 500); OpSeek 0;
                                 OpWrite (payload 600); OpSync]).
  { cbn. lia. }
  destruct (run 4 [OpSeek 1536; OpWrite (payload 500); OpSeek 0; OpWrite (payload 600);
                   OpSync]
              (with_state (mkState None None 2036) (scenario_file 4)) quiet_world)
    as [rs f' w' |] eqn:Hrun; [| vm_compute in Hrun; discriminate Hrun].
  destruct (requests_stay_in_file 4 _ _ f' quiet_world w' rs Hinv Hops Hrun)
    as (extra & Hlog & Hall).
  exists rs, f', w', extra. split; [reflexivity |]. split; [exact Hlog | exact Hall].
Defined.



(** ** The queries on the valid ranges *)

(** X12.  What [has_valid_head] and [has_valid_tail] have once answered
    with [true] stays [true]: over every sequence of operations that
    returns, a prefix or a suffix of the file that was reported valid is
    still reported valid. *)
Theorem valid_queries_stable (size : nat) (ops : list Op) (f f' : PartialFile)
    (w w' : World) (rs : list bool) (bytes : Z) :
  StateInv (state f) ->
  run size ops f w = Done rs f' w' ->
  (has_valid_head f bytes = true -> has_valid_head f' bytes = true)
  /\ (has_valid_tail f bytes = true -> has_valid_tail f' bytes = true).
Proof.
  intros Hinv Hrun.
  pose proof (keeps_run size ops f w) as Hk.
  apply (wp_done _ _ _ _ _ _ _ _ Hrun) in Hk.
  destruct Hk as (Htot & _ & Hk). destruct (Hk Hinv) as ((Hhead & Htail) & Hh & Ht).
  unfold has_valid_head, has_valid_tail. rewrite Htot. split.
  - destruct (valid_head (state f)) as [h |]; [| discriminate].
    destruct (Hh h eq_refl) as (h' & Hh' & Hs & He).
    destruct (Hhead h' Hh') as [H0 _]. rewrite Hh'.
    intros H. apply andb_true_iff in H. destruct H as [_ Hb].
    apply Z.leb_le in Hb. apply andb_true_iff. split.
    + apply Z.eqb_eq. exact H0.
    + apply Z.leb_le. lia.
  - destruct (valid_tail (state f)) as [t |]; [| discriminate].
    destruct (Ht t eq_refl) as (t' & Ht' & Hs & He).
    destruct (Htail t' Ht') as [_ Hend]. rewrite Ht'.
    intros H. apply andb_true_iff in H. destruct H as [Hb Hc].
    apply Z.leb_le in Hb. apply Z.eqb_eq in Hc. apply andb_true_iff. split.
    + apply Z.leb_le. lia.
    + apply Z.eqb_eq. lia.
Qed.

Lemma valid_queries_stable_witness :
  exists rs f' w',
    run 4 [OpSeek 512; OpWrite (payload 512); OpSync] 
        (with_state (mkState (Some (mkValidPart 0 512)) (Some (mkValidPart 1536 2048)) 2048)
                    (scenario_file 4)) quiet_world
      = Done rs f' w'
    /\ has_valid_head f' 300 = true
    /\ has_valid_tail f' 512 = true.
Proof.
  assert (Hinv : StateInv (mkState (Some (mkValidPart 0 512))
                                   (Some (mkValidPart 1536 2048)) 2048)).
  { split; intros p [= <-]; cbn; lia. }
  destruct (run 4 [OpSeek 512; OpWrite (payload 512); OpSync]
              (with_state (mkState (Some (mkValidPart 0 512))
                                   (Some (mkValidPart 1536 2048)) 2048)
                          (scenario_file 4)) quiet_world)
    as [rs f' w' |] eqn:Hrun; [| vm_compute in Hrun; discriminate Hrun].
  exists rs, f', w'. split; [reflexivity |].
  split.
  - apply (proj1 (valid_queries_stable 4 [OpSeek 512; OpWrite (payload 512); OpSync]
                    (with_state (mkState (Some (mkValidPart 0 512))
                                         (Some (mkValidPart 1536 2048)) 2048)
                                (scenario_file 4))
                    f' quiet_world w' rs 300 Hinv Hrun)).
    reflexivity.
  - apply (proj2 (valid_queries_stable 4 [OpSeek 512; OpWrite (payload 512); OpSync]
                    (with_state (mkState (Some (mkValidPart 0 512))
                                         (Some (mkValidPart 1536 2048)) 2048)
                                (scenario_file 4))
                    f' quiet_world w' rs 512 Hinv Hrun)).
    reflexivity.
Defined.

(** ** The destructor *)

(** X13.  Destroying the writer drops the sector that is being filled
    without writing it: the destructor always returns, hands nothing to
    the block layer, leaves no current sector, and the valid ranges and
    the buffers of the pool are what they were; the bit of the dropped
    sector's slot is cleared before the pool is waited for, and from then
    on only completions touch the object. *)
Theorem destructor_drops_current_sector (size : nat) (f : PartialFile) (w : World) :
  exists f' w',
    PartialFile_destructor size f w = Done tt f' w'
    /\ usb_log w' = usb_log w
    /\ current_sector f' = None
    /\ state f' = state f
    /\ pool (sector_pool f') = pool (sector_pool f)
    /\ completions_only
         (match current_sector f with
          | Some s =>
              with_current_sector None
                (with_pool (SectorPool_release (callback_param2 (request_at f s))
                                               (sector_pool f)) f)
          | None => f
          end) f'.
Proof.
  set (f0 := match current_sector f with Some s => _ | None => f end).
  assert (Hdiscard : discard_current_sector f w = Done tt f0 w).
  { unfold discard_current_sector, bind, gets, modify, ret. subst f0.
    destruct (current_sector f); reflexivity. }
  assert (Hcs0 : current_sector f0 = None).
  { subst f0. destruct (current_sector f) eqn:E; [reflexivity | exact E]. }
  assert (Hst0 : state f0 = state f) by (subst f0; destruct (current_sector f); reflexivity).
  assert (Hp0 : pool (sector_pool f0) = pool (sector_pool f))
    by (subst f0; destruct (current_sector f); reflexivity).
  destruct (SectorPool_sync_cases size 0 f0 w ltac:(lia))
    as (reached & f1 & evs1 & Hdrain & Hc1).
  assert (Hsync : exists r, sync size f0 w = Done r f1 (with_sem_events evs1 w)).
  { unfold sync, flush_current_sector, bind, gets, ret. rewrite Hcs0, Hdrain.
    destruct reached; cbn [negb]; eexists; reflexivity. }
  destruct Hsync as [r Hsync].
  destruct (SectorPool_sync_cases size 0 f1 (with_sem_events evs1 w) ltac:(lia))
    as (reached' & f' & evs' & Hdrain' & Hc').
  pose proof (completions_only_trans _ _ _ Hc1 Hc') as Hc.
  exists f', (with_sem_events evs' (with_sem_events evs1 w)).
  split.
  { unfold PartialFile_destructor, SectorPool_destructor, bind, ret.
    rewrite Hdiscard, Hsync, Hdrain'. reflexivity. }
  pose proof Hc as (Hp & _ & Hcs & _ & Hst & _).
  split; [reflexivity |]. split; [congruence |]. split; [congruence |].
  split; [congruence | exact Hc].
Qed.

(** ** The pool of sector buffers *)

Lemma countr_one_from_clear (m : Z) (n : nat) :
  forall j : Z,
    countr_one_from n j m < Z.of_nat n ->
    Z.testbit m (j + countr_one_from n j m) = false.
Proof.
  induction n as [| n IH]; intros j Hlt; cbn [countr_one_from] in *; [lia |].
  destruct (Z.testbit m j) eqn:Hj.
  - replace (j + (1 + countr_one_from n (j + 1) m))
      with (j + 1 + countr_one_from n (j + 1) m) by lia.
    apply IH. lia.
  - rewrite Z.add_0_r. exact Hj.
Qed.

Lemma countr_one_from_set (m : Z) (n : nat) :
  forall (j : Z) (i : nat),
    Z.of_nat i < countr_one_from n j m -> Z.testbit m (j + Z.of_nat i) = true.
Proof.
  induction n as [| n IH]; intros j i Hlt; cbn [countr_one_from] in *; [lia |].
  destruct (Z.testbit m j) eqn:Hj; [| lia].
  destruct i as [| i]; [rewrite Z.add_0_r; exact Hj |].
  replace (j + Z.of_nat (S i)) with (j + 1 + Z.of_nat i) by lia.
  apply IH. lia.
Qed.

(** The slot that [get_available_slot] names is the lowest free one. *)
Lemma get_available_slot_lowest (size : nat) (p : SectorPool) :
  (size <= 32)%nat ->
  is_available_slot size p = true ->
  Z.testbit (slot_mask p) (Z.of_nat (get_available_slot p)) = false
  /\ (forall i, (i < get_available_slot p)%nat ->
        Z.testbit (slot_mask p) (Z.of_nat i) = true).
Proof.
  intros H32 Hav.
  pose proof (get_available_slot_lt size p Hav) as Hlt.
  unfold is_available_slot in Hav. apply existsb_exists in Hav.
  destruct Hav as (k & Hk & Hclear). apply in_seq in Hk. apply negb_true_iff in Hclear.
  pose proof (countr_one_from_bounds (slot_mask p) 32 0 k Hclear) as Hb.
  unfold get_available_slot, countr_one in *.
  rewrite Z2Nat.id by lia. split.
  - apply (countr_one_from_clear (slot_mask p) 32 0). lia.
  - intros i Hi. apply (countr_one_from_set (slot_mask p) 32 0 i). lia.
Qed.

Lemma wait_until_timeout (ready : SectorPool -> bool) (evs : list SemEvent) :
  forall (f f' : PartialFile) (evs' : list SemEvent),
    wait_until ready evs f = (false, f', evs') ->
    ready (sector_pool f') = false
    /\ exists css,
         evs = map pdPASS css ++ pdFAIL :: evs'
         \/ (evs = map pdPASS css /\ evs' = []).
Proof.
  induction evs as [| ev evs IH]; intros f f' evs'; cbn [wait_until].
  - destruct (ready (sector_pool f)) eqn:E; [discriminate |].
    intros [= <- <-]. split; [exact E |]. exists []. right. auto.
  - destruct (ready (sector_pool f)) eqn:E; [discriminate |].
    destruct ev as [| cs].
    + intros [= <- <-]. split; [exact E |]. exists []. left. reflexivity.
    + intros H. destruct (IH _ _ _ H) as (Hr & css & Hcss). split; [exact Hr |].
      exists (cs :: css). destruct Hcss as [-> | [-> ->]]; [left | right]; auto.
Qed.

(** Clearing the bit that was set on top of a word gives the word back. *)
Lemma release_after_acquire (m : Z) (s : nat) :
  0 <= m < 2 ^ 32 -> (s < 32)%nat -> Z.testbit m (Z.of_nat s) = false ->
  Z.land (wrap32 (Z.lor m (Z.shiftl 1 (Z.of_nat s)))) (Z.lnot (Z.shiftl 1 (Z.of_nat s))) = m.
Proof.
  intros Hm Hs Hclear.
  apply Z.bits_inj'. intros n Hn.
  rewrite Z.land_spec, Z.lnot_spec by lia.
  rewrite Z.shiftl_1_l, Z.pow2_bits_eqb by lia.
  destruct (Z.ltb_spec n 32) as [Hlow | Hhigh].
  - rewrite wrap32_testbit by lia.
    rewrite Z.lor_spec, Z.pow2_bits_eqb by lia.
    destruct (Z.eqb_spec (Z.of_nat s) n) as [<- | Hne].
    + rewrite Hclear. reflexivity.
    + cbn [negb]. rewrite orb_false_r, andb_true_r. reflexivity.
  - unfold wrap32. rewrite Z.mod_pow2_bits_high by lia.
    cbn [andb]. symmetry.
    replace m with (m mod 2 ^ 32) by (apply Z.mod_small; lia).
    apply Z.mod_pow2_bits_high. lia.
Qed.



(** X15.  A request that completes gives its slot back: on a pool with a
    free slot, [acquire] returns at once, and after the completion
    callback of the slot it returned the mask is what it was before;
    [write_error] is raised exactly when the completion reports a
    failure. *)
Theorem acquire_then_completion (size : nat) (f : PartialFile) (w : World) (ok : bool) :
  (size <= 32)%nat ->
  0 <= slot_mask (sector_pool f) < 2 ^ 32 ->
  is_available_slot size (sector_pool f) = true ->
  exists s f',
    SectorPool_acquire size f w = Done (Some s) f' w
    /\ slot_mask (sector_pool (usbh_msc_finished ok s f')) = slot_mask (sector_pool f)
    /\ write_error (usbh_msc_finished ok s f') = write_error f || negb ok.
Proof.
  intros H32 Hm Hav.
  pose proof (get_available_slot_lt size _ Hav) as Hlt.
  destruct (get_available_slot_lowest size _ H32 Hav) as [Hclear Hset].
  exists (get_available_slot (sector_pool f)). eexists. split.
  { apply SectorPool_acquire_free; [exact Hlt | lia | exact Hset | exact Hclear]. }
  split.
  - unfold usbh_msc_finished, SectorPool_release.
    destruct ok; cbn [sector_pool with_pool with_write_error update_request slot_mask].
    all: apply release_after_acquire; [exact Hm | lia | exact Hclear].
  - unfold usbh_msc_finished. destruct ok; cbn; [rewrite orb_false_r | rewrite orb_true_r];
      reflexivity.
Qed.

Lemma acquire_then_completion_witness :
  exists s f',
    SectorPool_acquire 4 (scenario_file 4) quiet_world = Done (Some s) f' quiet_world
    /\ slot_mask (sector_pool (usbh_msc_finished false s f'))
       = slot_mask (sector_pool (scenario_file 4))
    /\ write_error (usbh_msc_finished false s f') = true.
Proof.
  apply (acquire_then_completion 4 (scenario_file 4) quiet_world false).
  - lia.
  - concrete.
  - reflexivity.
Defined.

(** X16.  [acquire] returns the null pointer only on a timeout: the
    events it consumed are completions followed by the failed take of the
    semaphore (or it ran out of events), no slot is free at that point,
    nothing reached the block layer, and only the completions touched the
    object. *)
Theorem acquire_gives_up_on_timeout (size : nat) (f f' : PartialFile) (w w' : World) :
  SectorPool_acquire size f w = Done None f' w' ->
  is_available_slot size (sector_pool f') = false
  /\ completions_only f f'
  /\ usb_log w' = usb_log w
  /\ exists css,
       sem_events w = map pdPASS css ++ pdFAIL :: sem_events w'
       \/ (sem_events w = map pdPASS css /\ sem_events w' = []).
Proof.
  unfold SectorPool_acquire.
  pose proof (wait_until_completions_only (is_available_slot size) (sem_events w) f) as Hc.
  destruct (wait_until (is_available_slot size) (sem_events w) f) as [[ok f1] evs] eqn:E.
  destruct ok; [discriminate |].
  intros [= <- <-].
  destruct (wait_until_timeout _ _ _ _ _ E) as (Hr & css & Hcss).
  split; [exact Hr |]. split; [exact Hc |]. split; [reflexivity |].
  exists css. exact Hcss.
Qed.

Lemma acquire_gives_up_on_timeout_witness :
  exists f' w',
    SectorPool_acquire 2
      (with_pool (mkPool (pool (sector_pool (scenario_file 2))) (2 ^ 32 - 1))
                 (scenario_file 2))
      (mkWorld [pdPASS []; pdFAIL; pdFAIL] [] [] [])
      = Done None f' w'
    /\ is_available_slot 2 (sector_pool f') = false
    /\ sem_events w' = [pdFAIL].
Proof.
  eexists. eexists. split; [vm_compute; reflexivity |].
  split; [| reflexivity].
  eapply (acquire_gives_up_on_timeout 2
            (with_pool (mkPool (pool (sector_pool (scenario_file 2))) (2 ^ 32 - 1))
                       (scenario_file 2)) _
            (mkWorld [pdPASS []; pdFAIL; pdFAIL] [] [] [])).
  vm_compute. reflexivity.
Defined.

(** ** The EEPROM image on the USB drive *)

Lemma memcpy_block (dst src : list byte) (at_ n : nat) :
  (at_ + n <= length dst)%nat -> length (firstn n src) = n ->
  length (memcpy dst at_ src n) = length dst
  /\ firstn (at_ + n) (memcpy dst at_ src n) = firstn at_ dst ++ firstn n src
  /\ forall m, skipn (at_ + n + m) (memcpy dst at_ src n) = skipn (at_ + n + m) dst.
Proof.
  intros Hfit Hsrc. unfold memcpy.
  assert (Hat : length (firstn at_ dst) = at_) by (rewrite length_take; lia).
  split; [| split].
  - rewrite !length_app, Hat, Hsrc, length_drop. lia.
  - rewrite app_assoc. rewrite take_app_le by (rewrite length_app; lia).
    apply take_ge. rewrite length_app. lia.
  - intros m. rewrite app_assoc.
    rewrite drop_app_ge by (rewrite length_app; lia).
    rewrite length_app, Hat, Hsrc, drop_drop. f_equal. lia.
Qed.

Lemma full_reads_length (bs : nat) (rs : list (option (list byte))) :
  Forall (fun b => length b = bs) (full_reads bs rs).
Proof.
  induction rs as [| [chunk |] rs IH]; cbn [full_reads]; [constructor | | constructor].
  destruct (Nat.leb_spec bs (length chunk)); [| constructor].
  constructor; [| exact IH]. rewrite length_take. lia.
Qed.

(** The loop of the loader with [k] blocks of 128 bytes to go. *)
Lemma load_loop_blocks (k : nat) :
  forall (fuel a : nat) (buff : list byte) (e : EepromWorld),
    (k <= fuel)%nat -> (a + 128 * k <= 2048)%nat -> (a + 128 * k <= length (eeprom e))%nat ->
    let blocks := firstn k (full_reads 128 (read_results e)) in
    let r := load_loop fuel (Z.of_nat (128 * k)) (Z.of_nat a) 128 buff e in
    fst r = Z.of_nat (128 * (k - length blocks))
    /\ eeprom (snd r)
       = firstn a (eeprom e) ++ concat blocks ++ skipn (a + 128 * length blocks) (eeprom e)
    /\ usb_file (snd r) = usb_file e.
Proof.
  induction k as [| k IH]; intros fuel a buff e Hfuel Ha Hee; cbv zeta.
  - change (firstn 0 _) with (@nil (list byte)). cbn [concat length app].
    assert (Hr : load_loop fuel (Z.of_nat (128 * 0)) (Z.of_nat a) 128 buff e = (0, e))
      by (destruct fuel; reflexivity).
    rewrite Hr. cbn [fst snd]. split; [reflexivity |]. split; [| reflexivity].
    rewrite Nat.mul_0_r, Nat.add_0_r. symmetry. apply take_drop.
  - destruct fuel as [| fuel]; [lia |].
    cbn [load_loop].
    assert (Hnz : (Z.of_nat (128 * S k) =? 0) = false) by (apply Z.eqb_neq; lia).
    assert (Hbs : (Z.of_nat (128 * S k) <? 128) = false) by (apply Z.ltb_ge; lia).
    rewrite Hnz, Hbs. unfold fd_read.
    assert (Hstop : forall (blocks : list (list byte)) (ee : list byte),
              blocks = [] -> ee = eeprom e ->
              Z.of_nat (128 * S k) = Z.of_nat (128 * (S k - length blocks))
              /\ ee = firstn a (eeprom e) ++ concat blocks
                        ++ skipn (a + 128 * length blocks) (eeprom e)).
    { intros blocks ee -> ->. cbn [length concat app]. split; [f_equal; lia |].
      rewrite Nat.mul_0_r, Nat.add_0_r. symmetry. apply take_drop. }
    destruct (read_results e) as [| [chunk |] rs] eqn:Hrs.
    + cbn [negb fst snd full_reads firstn eeprom usb_file].
      change (0 =? 128) with false. cbn [negb fst snd eeprom usb_file].
      destruct (Hstop [] (eeprom e) eq_refl eq_refl). auto.
    + change (Z.to_nat 128) with 128%nat. cbn [full_reads].
      destruct (Nat.leb_spec 128 (length chunk)) as [Hfull | Hshort].
      * assert (Hgot : length (firstn 128 chunk) = 128%nat) by (rewrite length_take; lia).
        rewrite Hgot. change (Z.of_nat 128 =? 128) with true. cbn [negb].
        set (buff' := firstn 128 chunk ++ skipn 128 buff).
        assert (Hb' : firstn 128 buff' = firstn 128 chunk).
        { subst buff'. rewrite take_app_le by lia. apply take_ge. lia. }
        set (e2 := st25dv64k_user_write_bytes _ _ _ _).
        assert (Hee2 : eeprom e2 = memcpy (eeprom e) a buff' 128).
        { subst e2. unfold st25dv64k_user_write_bytes. cbn [eeprom].
          rewrite Nat2Z.id. reflexivity. }
        destruct (memcpy_block (eeprom e) buff' a 128 ltac:(lia)
                    ltac:(rewrite Hb'; exact Hgot)) as (Hlen2 & Hpre2 & Hpost2).
        rewrite <- Hee2 in Hlen2, Hpre2, Hpost2.
        assert (Hsize : wrap16 (Z.of_nat (128 * S k) - 128) = Z.of_nat (128 * k)).
        { unfold wrap16. rewrite Z.mod_small; lia. }
        assert (Haddr : wrap16 (Z.of_nat a + 128) = Z.of_nat (a + 128)).
        { unfold wrap16. rewrite Z.mod_small; lia. }
        rewrite Hsize, Haddr.
        specialize (IH fuel (a + 128)%nat buff' e2 ltac:(lia) ltac:(lia) ltac:(lia)).
        cbv zeta in IH. destruct IH as (IH1 & IH2 & IH3).
        assert (Hrs2 : read_results e2 = rs) by reflexivity.
        rewrite Hrs2 in IH1, IH2.
        cbn [firstn length concat].
        split; [rewrite IH1; f_equal; lia |].
        split; [| rewrite IH3; reflexivity].
        rewrite IH2, Hpre2, Hb', <- !app_assoc. f_equal. f_equal. f_equal.
        rewrite Hpost2. f_equal. lia.
      * assert (Hgot : length (firstn 128 chunk) = length chunk)
          by (rewrite length_take; lia).
        rewrite Hgot.
        assert (Hne : (Z.of_nat (length chunk) =? 128) = false) by (apply Z.eqb_neq; lia).
        rewrite Hne. cbn [negb fst snd firstn eeprom usb_file].
        destruct (Hstop [] (eeprom e) eq_refl eq_refl). auto.
    + cbn [negb fst snd full_reads firstn eeprom usb_file].
      change (-1 =? 128) with false. cbn [negb fst snd eeprom usb_file].
      destruct (Hstop [] (eeprom e) eq_refl eq_refl). auto.
Qed.

(** X17.  [eeprom_load_bin_from_usb] writes the EEPROM block by block as
    the reads succeed and has no way back: with [n] the number of leading
    reads that deliver 128 bytes (16 at most), it returns 1 exactly when
    [n] is 16, and the EEPROM then holds the [n] blocks followed by what
    it held beyond them.  A file that is too short, or a read that fails,
    leaves the EEPROM overwritten up to that point. *)
Theorem eeprom_load_blocks (buff : list byte) (e : EepromWorld) :
  open_ok e = true ->
  (2048 <= length (eeprom e))%nat ->
  let blocks := firstn 16 (full_reads 128 (read_results e)) in
  fst (eeprom_load_bin_from_usb buff e) = (if (length blocks =? 16)%nat then 1 else 0)
  /\ eeprom (snd (eeprom_load_bin_from_usb buff e))
     = concat blocks ++ skipn (128 * length blocks) (eeprom e)
  /\ usb_file (snd (eeprom_load_bin_from_usb buff e)) = usb_file e.
Proof.
  intros Hopen Hlen blocks.
  unfold eeprom_load_bin_from_usb. rewrite Hopen.
  destruct (load_loop_blocks 16 (Z.to_nat 2048) 0 buff e ltac:(lia) ltac:(lia) ltac:(lia))
    as (H1 & H2 & H3).
  fold blocks in H1, H2.
  change (Z.of_nat (128 * 16)) with 2048 in H1, H2, H3.
  change (Z.of_nat 0) with 0 in H1, H2, H3.
  destruct (load_loop (Z.to_nat 2048) 2048 0 128 buff e) as [size e'].
  cbn [fst snd] in *. subst size.
  assert (Hb : (length blocks <= 16)%nat) by (subst blocks; rewrite length_take; lia).
  split; [| split; [exact H2 | exact H3]].
  destruct (Nat.eqb_spec (length blocks) 16) as [-> | Hne].
  - reflexivity.
  - assert (Hnz : (Z.of_nat (128 * (16 - length blocks)) =? 0) = false)
      by (apply Z.eqb_neq; lia).
    rewrite Hnz. reflexivity.
Qed.

Lemma eeprom_load_blocks_witness :
  fst (eeprom_load_bin_from_usb (repeat x00 128)
         (mkEepromWorld true [Some (repeat x01 128); Some (repeat x02 100)] []
                        (repeat xff 2048) [])) = 0
  /\ eeprom (snd (eeprom_load_bin_from_usb (repeat x00 128)
         (mkEepromWorld true [Some (repeat x01 128); Some (repeat x02 100)] []
                        (repeat xff 2048) [])))
     = repeat x01 128 ++ repeat xff 1920.
Proof.
  destruct (eeprom_load_blocks (repeat x00 128)
              (mkEepromWorld true [Some (repeat x01 128); Some (repeat x02 100)] []
                             (repeat xff 2048) [])
              ltac:(reflexivity) ltac:(vm_compute; lia)) as (H1 & H2 & _).
  split; [exact H1 | exact H2].
Defined.

(** The loop of the saver with [k] blocks of 128 bytes to go, when the
    writes that are left are complete.  The EEPROM is only read. *)
Lemma save_loop_blocks (k : nat) :
  forall (fuel a : nat) (buff : list byte) (e : EepromWorld),
    (k <= fuel)%nat -> (a + 128 * k <= 2048)%nat -> (a + 128 * k <= length (eeprom e))%nat ->
    Forall (fun r => r = 128) (firstn k (write_results e)) ->
    let r := save_loop fuel (Z.of_nat (128 * k)) (Z.of_nat a) 128 buff e in
    fst r = 0
    /\ usb_file (snd r) = usb_file e ++ firstn (128 * k) (skipn a (eeprom e))
    /\ eeprom (snd r) = eeprom e.
Proof.
  induction k as [| k IH]; intros fuel a buff e Hfuel Ha Hee Hw; cbv zeta.
  - assert (Hr : save_loop fuel (Z.of_nat (128 * 0)) (Z.of_nat a) 128 buff e = (0, e))
      by (destruct fuel; reflexivity).
    rewrite Hr. cbn [fst snd]. split; [reflexivity |]. split; [| reflexivity].
    change (128 * 0)%nat with 0%nat. cbn [firstn]. symmetry. apply app_nil_r.
  - destruct fuel as [| fuel]; [lia |].
    cbn [save_loop].
    assert (Hnz : (Z.of_nat (128 * S k) =? 0) = false) by (apply Z.eqb_neq; lia).
    assert (Hbs : (Z.of_nat (128 * S k) <? 128) = false) by (apply Z.ltb_ge; lia).
    rewrite Hnz, Hbs. unfold fd_write.
    assert (Hbw : match write_results e with r :: _ => r | [] => 128 end = 128).
    { destruct (write_results e) as [| r rs]; [reflexivity |].
      cbn [firstn] in Hw. inversion Hw. assumption. }
    rewrite Hbw. change (128 =? 128) with true. cbn [negb].
    change (Z.to_nat 128) with 128%nat.
    set (buff' := st25dv64k_user_read_bytes (Z.of_nat a) buff 128 e).
    assert (Hblock : firstn 128 (firstn 128 buff') = firstn 128 (skipn a (eeprom e))).
    { subst buff'. unfold st25dv64k_user_read_bytes, memcpy.
      rewrite Nat2Z.id. change (Z.to_nat 128) with 128%nat.
      change (firstn 0 buff) with (@nil byte). cbn [app].
      rewrite take_take, Nat.min_id.
      rewrite take_app_le by (rewrite length_take, length_drop; lia).
      rewrite take_take, Nat.min_id. reflexivity. }
    rewrite Hblock.
    set (e1 := mkEepromWorld _ _ _ _ _).
    assert (Hsize : wrap16 (Z.of_nat (128 * S k) - 128) = Z.of_nat (128 * k)).
    { unfold wrap16. rewrite Z.mod_small; lia. }
    assert (Haddr : wrap16 (Z.of_nat a + 128) = Z.of_nat (a + 128)).
    { unfold wrap16. rewrite Z.mod_small; lia. }
    rewrite Hsize, Haddr.
    assert (Hw1 : Forall (fun r => r = 128) (firstn k (write_results e1))).
    { subst e1. cbn [write_results].
      destruct (write_results e) as [| r rs]; [cbn; destruct k; constructor |].
      cbn [firstn tl] in *. inversion Hw. assumption. }
    specialize (IH fuel (a + 128)%nat buff' e1 ltac:(lia) ltac:(lia)
                  ltac:(subst e1; cbn [eeprom]; lia) Hw1).
    cbv zeta in IH. destruct IH as (IH1 & IH2 & IH3).
    split; [exact IH1 |]. split; [| rewrite IH3; reflexivity].
    rewrite IH2. subst e1. cbn [usb_file eeprom]. rewrite <- app_assoc. f_equal.
    rewrite <- (take_drop 128 (firstn (128 * S k) (skipn a (eeprom e)))).
    rewrite take_take, skipn_firstn_comm, drop_drop.
    replace (128 `min` (128 * S k))%nat with 128%nat by lia.
    replace (128 * S k - 128)%nat with (128 * k)%nat by lia.
    reflexivity.
Qed.

Lemma save_loop_reads_only (fuel : nat) :
  forall (size addr bs : Z) (buff : list byte) (e : EepromWorld),
    eeprom (snd (save_loop fuel size addr bs buff e)) = eeprom e
    /\ read_results (snd (save_loop fuel size addr bs buff e)) = read_results e.
Proof.
  induction fuel as [| fuel IH]; intros size addr bs buff e; cbn [save_loop];
    [split; reflexivity |].
  destruct (size =? 0); [split; reflexivity |].
  unfold fd_write.
  match goal with |- context [if negb ?c then _ else _] => destruct c end; cbn [negb].
  - match goal with |- context [save_loop fuel ?s ?a ?b ?bf ?e1] =>
      destruct (IH s a b bf e1) as [H1 H2]
    end.
    rewrite H1, H2. split; reflexivity.
  - split; reflexivity.
Qed.

Lemma eeprom_save_file (buff : list byte) (e : EepromWorld) :
  open_ok e = true ->
  (2048 <= length (eeprom e))%nat ->
  Forall (fun r => r = 128) (firstn 16 (write_results e)) ->
  usb_file (snd (eeprom_save_bin_to_usb buff e)) = firstn 2048 (eeprom e).
Proof.
  intros Hopen Hlen Hw.
  unfold eeprom_save_bin_to_usb. rewrite Hopen.
  set (e0 := mkEepromWorld _ _ _ _ _).
  destruct (save_loop_blocks 16 (Z.to_nat 2048) 0 buff e0 ltac:(lia) ltac:(lia)
              ltac:(subst e0; cbn [eeprom]; lia) Hw) as (_ & H2 & _).
  change (Z.of_nat (128 * 16)) with 2048 in H2. change (Z.of_nat 0) with 0 in H2.
  destruct (save_loop (Z.to_nat 2048) 2048 0 128 buff e0) as [size e'].
  cbn [snd] in *. rewrite H2. reflexivity.
Qed.

(** X18.  [eeprom_save_bin_to_usb] when the file opens and every write is
    complete: the file, emptied by [open], receives the first 2048 bytes
    of the EEPROM, in 16 blocks of 128 bytes. *)
Theorem eeprom_save_image (buff : list byte) (e : EepromWorld) :
  open_ok e = true ->
  (2048 <= length (eeprom e))%nat ->
  Forall (fun r => r = 128) (firstn 16 (write_results e)) ->
  usb_file (snd (eeprom_save_bin_to_usb buff e)) = firstn 2048 (eeprom e).
Proof. exact (eeprom_save_file buff e). Qed.

Lemma eeprom_save_image_witness :
  usb_file (snd (eeprom_save_bin_to_usb (repeat x00 128)
                   (mkEepromWorld true [] [128] (repeat x01 2048 ++ repeat x02 100)
                                  (repeat xff 7))))
  = repeat x01 2048.
Proof.
  rewrite (eeprom_save_image (repeat x00 128)
             (mkEepromWorld true [] [128] (repeat x01 2048 ++ repeat x02 100)
                            (repeat xff 7))).
  - vm_compute. reflexivity.
  - reflexivity.
  - vm_compute. lia.
  - repeat constructor.
Defined.

(** X19.  [eeprom_save_bin_to_usb] cannot report a failure and never
    changes the EEPROM: whether the file opens or not, and whatever the
    writes return, the result is 0 and the EEPROM is what it was. *)
Theorem eeprom_save_reports_nothing (buff : list byte) (e : EepromWorld) :
  fst (eeprom_save_bin_to_usb buff e) = 0
  /\ eeprom (snd (eeprom_save_bin_to_usb buff e)) = eeprom e.
Proof.
  unfold eeprom_save_bin_to_usb.
  destruct (open_ok e); [| split; reflexivity].
  match goal with |- context [save_loop ?n ?s ?a ?b ?bf ?e1] =>
    destruct (save_loop_reads_only n s a b bf e1) as [H1 _];
      destruct (save_loop n s a b bf e1) as [size e']
  end.
  cbn [fst snd] in *. split; [reflexivity | exact H1].
Qed.

Lemma blocks_of_spec (n : nat) :
  forall l : list byte,
    (128 * n <= length l)%nat ->
    full_reads 128 (map Some (blocks_of n 128 l)) = blocks_of n 128 l
    /\ length (blocks_of n 128 l) = n
    /\ concat (blocks_of n 128 l) = firstn (128 * n) l.
Proof.
  induction n as [| n IH]; intros l Hlen; cbn [blocks_of map full_reads concat length].
  - repeat split; reflexivity.
  - destruct (IH (skipn 128 l) ltac:(rewrite length_drop; lia)) as (H1 & H2 & H3).
    assert (Hb : (128 <=? length (firstn 128 l))%nat = true).
    { apply Nat.leb_le. rewrite length_take. lia. }
    rewrite Hb, H1, H2, H3.
    split; [| split; [reflexivity |]].
    + f_equal. rewrite take_take, Nat.min_id. reflexivity.
    + rewrite <- (take_drop 128 (firstn (128 * S n) l)).
      rewrite take_take, skipn_firstn_comm.
      replace (128 `min` (128 * S n))%nat with 128%nat by lia.
      replace (128 * S n - 128)%nat with (128 * n)%nat by lia.
      reflexivity.
Qed.

(** X20.  Saving and loading fit together: an image saved from one EEPROM
    (every write complete) and then read back in blocks of 128 bytes into
    another one makes the loader return 1 and the first 2048 bytes of the
    second EEPROM equal to those of the first; what the second holds
    beyond them is untouched. *)
Theorem eeprom_save_then_load (buff buff' : list byte) (e e2 : EepromWorld) :
  open_ok e = true ->
  (2048 <= length (eeprom e))%nat ->
  Forall (fun r => r = 128) (firstn 16 (write_results e)) ->
  open_ok e2 = true ->
  (2048 <= length (eeprom e2))%nat ->
  read_results e2
  = map Some (blocks_of 16 128 (usb_file (snd (eeprom_save_bin_to_usb buff e)))) ->
  fst (eeprom_load_bin_from_usb buff' e2) = 1
  /\ eeprom (snd (eeprom_load_bin_from_usb buff' e2))
     = firstn 2048 (eeprom e) ++ skipn 2048 (eeprom e2).
Proof.
  intros Hopen Hlen Hw Hopen2 Hlen2 Hreads.
  pose proof (eeprom_save_file buff e Hopen Hlen Hw) as Hfile.
  rewrite Hfile in Hreads.
  destruct (blocks_of_spec 16 (firstn 2048 (eeprom e))
              ltac:(rewrite length_take; lia)) as (Hfull & Hn & Hcat).
  unfold eeprom_load_bin_from_usb. rewrite Hopen2.
  destruct (load_loop_blocks 16 (Z.to_nat 2048) 0 buff' e2 ltac:(lia) ltac:(lia) ltac:(lia))
    as (H1 & H2 & _).
  rewrite Hreads, Hfull in H1, H2.
  rewrite take_ge in H1, H2 by lia.
  rewrite Hn in H1, H2. rewrite Hcat in H2.
  change (Z.of_nat (128 * 16)) with 2048 in H1, H2.
  change (Z.of_nat 0) with 0 in H1, H2.
  destruct (load_loop (Z.to_nat 2048) 2048 0 128 buff' e2) as [size e'].
  cbn [fst snd] in *. subst size. split; [reflexivity |].
  rewrite H2. cbn [firstn app]. rewrite take_take. reflexivity.
Qed.

Lemma eeprom_save_then_load_witness :
  fst (eeprom_load_bin_from_usb (repeat x00 128)
         (mkEepromWorld true (map Some (blocks_of 16 128 (repeat x01 2048))) []
                        (repeat xff 2100) [])) = 1
  /\ eeprom (snd (eeprom_load_bin_from_usb (repeat x00 128)
         (mkEepromWorld true (map Some (blocks_of 16 128 (repeat x01 2048))) []
                        (repeat xff 2100) [])))
     = repeat x01 2048 ++ repeat xff 52.
Proof.
  destruct (eeprom_save_then_load (repeat x00 128) (repeat x00 128)
              (mkEepromWorld true [] [] (repeat x01 2048) [])
              (mkEepromWorld true (map Some (blocks_of 16 128 (repeat x01 2048))) []
                             (repeat xff 2100) []))
    as [H1 H2].
  - reflexivity.
  - vm_compute. lia.
  - constructor.
  - reflexivity.
  - vm_compute. lia.
  - vm_compute. reflexivity.
  - split; [exact H1 |]. rewrite H2. vm_compute. reflexivity.
Defined.
